(** * Kolkata Metro Sarathi: graph builder and minimum-switch route search

    A shallow embedding of [backend/PathFinder/PathShower.py]:
    [build_graph_and_station_lines] and [find_min_switch_path].

    Python dictionaries are finite maps ([gmap]), Python sets are finite
    sets ([gset]).  The order in which Python walks a set (hash order) or
    the items of a dictionary is not part of the value, so it is an explicit
    parameter of the model, the [iteration] discipline. *)

From Stdlib Require Import String Ascii OrderedTypeEx Wellfounded.
From stdpp Require Import gmap strings list fin_maps sorting.

#[local] Set Warnings "-clear-no-such-hyp".

(** ** Data model *)

(** Stations and lines are Python strings.  The graph is
    [dict[station] -> dict[neighbor_station] -> set(line_names)], a
    [gmap string (gmap string (gset string))]; the station index is
    [dict[station] -> set(line_names)], a [gmap string (gset string)].

    One element of [line_items] is the line name with
    [list(line_dict.keys())].  The keys of a Python dictionary are pairwise
    distinct, so the station list of a real input never repeats a station;
    the builder does not look at that and is defined on every list. *)

(** How a run walks its sets and dictionaries. *)
Record iteration := Iteration {
  set_iter : gset string → list string;
  set_iter_perm : ∀ s, set_iter s ≡ₚ elements s;
  dict_items : gmap string (gset string) → list (string * gset string);
  dict_items_perm : ∀ m, dict_items m ≡ₚ map_to_list m
}.

Definition canonical_iteration : iteration :=
  {| set_iter := elements;
     set_iter_perm := λ s, reflexivity (elements s);
     dict_items := map_to_list;
     dict_items_perm := λ m, reflexivity (map_to_list m) |}.

(** ** build_graph_and_station_lines *)

Module Builder.

(** The four values the builder returns. *)
Record built := Built {
  graph : gmap string (gmap string (gset string));
  station_lines : gmap string (gset string);
  canonical_to_display : gmap string string;
  id_to_names : gmap string (gmap string nat)
}.

(** [station_lines[s].add(line_name)] on a [defaultdict(set)]. *)
Definition add_station_line (s : string) (line_name : string)
    (sl : gmap string (gset string)) : gmap string (gset string) :=
  <[s := default ∅ (sl !! s) ∪ {[line_name]}]> sl.

(** [id_to_names[s][s] += 1] on a [defaultdict(Counter)]. *)
Definition count_name (s : string) (names : gmap string (gmap string nat))
    : gmap string (gmap string nat) :=
  let c := default ∅ (names !! s) in
  <[s := <[s := S (default 0 (c !! s))]> c]> names.

(** [graph[a][b].add(line_name)] on a [defaultdict] of [defaultdict(set)]. *)
Definition add_edge (a b : string) (line_name : string)
    (g : gmap string (gmap string (gset string)))
    : gmap string (gmap string (gset string)) :=
  let nbrs := default ∅ (g !! a) in
  <[a := <[b := default ∅ (nbrs !! b) ∪ {[line_name]}]> nbrs]> g.

(** [for s in stations: ...] *)
Fixpoint add_stations (line_name : string) (stations : list string)
    (acc : gmap string (gset string) * gmap string (gmap string nat))
    : gmap string (gset string) * gmap string (gmap string nat) :=
  match stations with
  | [] => acc
  | s :: rest =>
      add_stations line_name rest
        (add_station_line s line_name acc.1, count_name s acc.2)
  end.

(** [for i in range(len(stations) - 1): a, b = stations[i], stations[i + 1]; ...] *)
Fixpoint add_edges (line_name : string) (stations : list string)
    (g : gmap string (gmap string (gset string)))
    : gmap string (gmap string (gset string)) :=
  match stations with
  | a :: (b :: _) as rest =>
      add_edges line_name rest (add_edge b a line_name (add_edge a b line_name g))
  | _ => g
  end.

(** The body of [for line_name, line_dict in line_items]. *)
Definition add_line (st : gmap string (gmap string (gset string)) *
                          (gmap string (gset string) * gmap string (gmap string nat)))
    (item : string * list string) :=
  (add_edges item.1 item.2 st.1, add_stations item.1 item.2 st.2).

Definition build_state (line_items : list (string * list string)) :=
  foldl add_line (∅, (∅, ∅)) line_items.

Definition build_graph_and_station_lines (line_items : list (string * list string))
    : built :=
  let st := build_state line_items in
  {| graph := st.1;
     station_lines := st.2.1;
     canonical_to_display := map_imap (λ s _, Some s) st.2.2;
     id_to_names := st.2.2 |}.

End Builder.

(** ** find_min_switch_path *)

Module Search.

(** A heap entry [(switches, stations_count, curr, curr_line, parent)];
    [parent] is [None] or the entry this one was reached from. *)
#[warnings="-register-all"]
Inductive entry := Entry {
  e_switches : nat;
  e_stations : nat;
  e_station : string;
  e_line : string;
  e_parent : option entry
}.

(** The key [(station, line)] under which [visited] records an entry, and
    its cost [(switches, stations_count)]. *)
Definition e_key (e : entry) : string * string := (e_station e, e_line e).
Definition e_cost (e : entry) : nat * nat := (e_switches e, e_stations e).

(** Tuple comparison [(a, b) < (c, d)]. *)
Definition cost_ltb (x y : nat * nat) : bool :=
  Nat.ltb x.1 y.1 || (Nat.eqb x.1 y.1 && Nat.ltb x.2 y.2).

(** The order [heapq] sees on entries: the tuples compared component by
    component.  Two entries that agree on the first four components never
    sit in the heap together (lemma [heap_keys_distinct]), so the
    comparison never reaches the parent component. *)
Definition entry_ltb (x y : entry) : bool :=
  match Nat.compare (e_switches x) (e_switches y) with
  | Lt => true
  | Gt => false
  | Eq =>
    match Nat.compare (e_stations x) (e_stations y) with
    | Lt => true
    | Gt => false
    | Eq =>
      match String.compare (e_station x) (e_station y) with
      | Lt => true
      | Gt => false
      | Eq => String.ltb (e_line x) (e_line y)
      end
    end
  end.

(** The least entry of a non-empty heap and the entries that stay. *)
Fixpoint extract_min (m : entry) (l : list entry) : entry * list entry :=
  match l with
  | [] => (m, [])
  | x :: l' =>
      if entry_ltb x m
      then let r := extract_min x l' in (r.1, m :: r.2)
      else let r := extract_min m l' in (r.1, x :: r.2)
  end.

(** [heapq.heappop(pq)]; [None] when the heap is empty. *)
Definition heappop (pq : list entry) : option (entry * list entry) :=
  match pq with
  | [] => None
  | e :: rest => Some (extract_min e rest)
  end.

(** [heapq.heappush(pq, e)] *)
Definition heappush (pq : list entry) (e : entry) : list entry := e :: pq.

(** What a call does: it returns a value or raises. *)
Inductive outcome (A : Type) :=
  | Returned (a : A)
  | Raised_ValueError.
Arguments Returned {A} a.
Arguments Raised_ValueError {A}.

(** One turn of the scan [min] makes: keep the least element so far. *)
Definition min_step (acc : option string) (x : string) : option string :=
  match acc with
  | None => Some x
  | Some m => if String.ltb x m then Some x else Some m
  end.

Section WithIteration.
Variable it : iteration.

(** [min(lines_between)]: the first least element met; [None] stands for
    the [ValueError] of an empty set. *)
Definition set_min (s : gset string) : option string :=
  foldl min_step None (set_iter it s).

(** [graph[curr]] on the [defaultdict]: a missing key is inserted with an
    empty neighbour dictionary. *)
Definition touch (curr : string) (g : gmap string (gmap string (gset string)))
    : gmap string (gmap string (gset string)) :=
  match g !! curr with
  | Some _ => g
  | None => <[curr := ∅]> g
  end.

(** The seeding loop [for line in station_lines[src]], from the state
    [st] of [visited] and [pq] and over the lines in the order they are
    met. *)
Definition seed_from (src : string)
    (st : gmap (string * string) (nat * nat) * list entry)
    (lines : list string) : gmap (string * string) (nat * nat) * list entry :=
  foldl (λ st line, (<[(src, line) := (0, 1)]> st.1,
                     heappush st.2 (Entry 0 0 src line None))) st lines.

Definition seed (src : string) (lines : gset string)
    : gmap (string * string) (nat * nat) * list entry :=
  seed_from src (∅, []) (set_iter it lines).

(** The line taken to a neighbour. *)
Definition edge_line (curr_line : string) (lines_between : gset string)
    : option string :=
  if decide (curr_line ∈ lines_between) then Some curr_line
  else set_min lines_between.

(** The tuple pushed for the neighbour [nbr] reached on line [el] from the
    popped entry [e]: [new_switches = switches + (edge_line != curr_line)],
    [new_stations = stations_count + 1], and [e] as parent. *)
Definition successor (e : entry) (nbr el : string) : entry :=
  Entry (e_switches e + (if decide (el = e_line e) then 0 else 1))
        (e_stations e + 1) nbr el (Some e).

(** [(new_switches, new_stations) < best_seen], with
    [(inf, inf)] for a key not yet in [visited]. *)
Definition improves (visited : gmap (string * string) (nat * nat)) (n : entry)
    : bool :=
  match visited !! e_key n with
  | None => true
  | Some best_seen => cost_ltb (e_cost n) best_seen
  end.

(** One turn of [for nbr, lines_between in graph[curr].items()]. *)
Definition relax (e : entry)
    (st : gmap (string * string) (nat * nat) * list entry)
    (item : string * gset string)
    : outcome (gmap (string * string) (nat * nat) * list entry) :=
  match edge_line (e_line e) item.2 with
  | None => Raised_ValueError
  | Some el =>
      let n := successor e item.1 el in
      if improves st.1 n
      then Returned (<[e_key n := e_cost n]> st.1, heappush st.2 n)
      else Returned st
  end.

Fixpoint relax_all (e : entry)
    (st : gmap (string * string) (nat * nat) * list entry)
    (items : list (string * gset string))
    : outcome (gmap (string * string) (nat * nat) * list entry) :=
  match items with
  | [] => Returned st
  | item :: rest =>
      match relax e st item with
      | Raised_ValueError => Raised_ValueError
      | Returned st' => relax_all e st' rest
      end
  end.

(** The stale state check. *)
Definition stale (visited : gmap (string * string) (nat * nat)) (e : entry) : bool :=
  match visited !! e_key e with
  | None => false
  | Some best => cost_ltb best (e_cost e)
  end.

(** The state of the [while pq] loop: the graph object (it is a
    [defaultdict], reading it can add a key), [visited] and [pq]. *)
Record loop_state := LoopState {
  ls_graph : gmap string (gmap string (gset string));
  ls_visited : gmap (string * string) (nat * nat);
  ls_pq : list entry
}.

(** The result of one iteration. *)
Inductive step_result :=
  | Continue (s : loop_state)
  | Break (best_final : option entry) (g : gmap string (gmap string (gset string)))
  | Raise (g : gmap string (gmap string (gset string))).

Definition step (dest : string) (s : loop_state) : step_result :=
  match heappop (ls_pq s) with
  | None => Break None (ls_graph s)
  | Some (e, pq') =>
      if stale (ls_visited s) e
      then Continue (LoopState (ls_graph s) (ls_visited s) pq')
      else if decide (e_station e = dest)
      then Break (Some e) (ls_graph s)
      else
        let g' := touch (e_station e) (ls_graph s) in
        match relax_all e (ls_visited s, pq')
                (dict_items it (default ∅ (g' !! e_station e))) with
        | Raised_ValueError => Raise g'
        | Returned st' => Continue (LoopState g' st'.1 st'.2)
        end
  end.

(** The [while pq] loop, at most [fuel] iterations; [None] when they do
    not suffice. *)
Fixpoint search_loop (fuel : nat) (dest : string) (s : loop_state)
    : option (outcome (option entry) * gmap string (gmap string (gset string))) :=
  match fuel with
  | 0 => None
  | S fuel' =>
      match step dest s with
      | Continue s' => search_loop fuel' dest s'
      | Break best_final g => Some (Returned best_final, g)
      | Raise g => Some (Raised_ValueError, g)
      end
  end.

(** [rev_stations] and [rev_lines] before they are reversed: the entry's
    own station and line, then those of the chain of parents walked by
    [while ptr is not None]. *)
Fixpoint walk_back (e : entry) : list string * list string :=
  let r := match e_parent e with
           | None => ([], [])
           | Some prev => walk_back prev
           end in
  (e_station e :: r.1, e_line e :: r.2).

(** What the function returns when a path is found. *)
Record found := Found {
  f_path : list string;
  f_switches : nat;
  f_stations : nat;
  f_lines : list string
}.

(** Path reconstruction from [best_final].  [rev_lines[i + 1]] is always
    in range, the two lists have the same length (lemma
    [walk_back_spec]), so the default of the lookup is never used. *)
Definition reconstruct (best_final : entry) : found :=
  let back := walk_back best_final in
  let rev_stations := reverse back.1 in
  let rev_lines := reverse back.2 in
  let lines_for_edges :=
    (λ i, default "" (rev_lines !! (i + 1))) <$> seq 0 (length rev_stations - 1) in
  Found rev_stations (e_switches best_final) (e_stations best_final) lines_for_edges.

(** [find_min_switch_path(graph, station_lines, src, dest)] run for at most
    [fuel] turns of the main loop.  The value is [None] for the Python
    result [(None, None, None, None)]; the second component is the graph
    object after the call. *)
Definition find_min_switch_path (fuel : nat)
    (g : gmap string (gmap string (gset string)))
    (sl : gmap string (gset string)) (src dest : string)
    : option (outcome (option found) * gmap string (gmap string (gset string))) :=
  match sl !! src, sl !! dest with
  | Some src_lines, Some _ =>
      let st := seed src src_lines in
      match search_loop fuel dest (LoopState g st.1 st.2) with
      | None => None
      | Some (Raised_ValueError, g') => Some (Raised_ValueError, g')
      | Some (Returned None, g') => Some (Returned None, g')
      | Some (Returned (Some best_final), g') =>
          Some (Returned (Some (reconstruct best_final)), g')
      end
  | _, _ => Some (Returned None, g)
  end.

End WithIteration.

End Search.

(** ** Notions the properties are stated with *)

Module Route.
Import Builder Search.

(** The label set of the directed edge [a -> b], when [b] is a neighbour
    of [a]. *)
Definition edge (g : gmap string (gmap string (gset string))) (a b : string)
    : option (gset string) :=
  g !! a ≫= λ nbrs, nbrs !! b.

(** Line [x] is one of the labels of the edge [a -> b]. *)
Definition has_label (g : gmap string (gmap string (gset string)))
    (a b x : string) : Prop :=
  ∃ L, edge g a b = Some L ∧ x ∈ L.

Definition symmetric (g : gmap string (gmap string (gset string))) : Prop :=
  ∀ a b, edge g a b = edge g b a.

(** Line [l] has station [s] in its sequence. *)
Definition serves (items : list (string * list string)) (l s : string) : Prop :=
  ∃ stations, (l, stations) ∈ items ∧ s ∈ stations.

(** [b] is reachable from [a] along edges of the graph. *)
Definition reachable (g : gmap string (gmap string (gset string)))
    : string → string → Prop :=
  rtc (λ a b, is_Some (edge g a b)).

(** [lines] rides [path] in [g]: one line per hop, each a label of the
    edge it is used on. *)
Fixpoint rides (g : gmap string (gmap string (gset string)))
    (path : list string) (lines : list string) : Prop :=
  match path, lines with
  | [_], [] => True
  | a :: (b :: _) as rest, l :: lines' => has_label g a b l ∧ rides g rest lines'
  | _, _ => False
  end.

(** A valid route from [src] to [dest]. *)
Definition valid_route (g : gmap string (gmap string (gset string)))
    (src dest : string) (path lines : list string) : Prop :=
  head path = Some src ∧ last path = Some dest ∧ rides g path lines.

(** Line changes along a route: hops whose line differs from the line of
    the hop before. *)
Fixpoint count_switches (lines : list string) : nat :=
  match lines with
  | l :: (l' :: _) as rest =>
      (if decide (l = l') then 0 else 1) + count_switches rest
  | _ => 0
  end.

(** The data-model invariant of a graph: every edge carries at least one
    line. *)
Definition labels_nonempty (g : gmap string (gmap string (gset string))) : Prop :=
  ∀ a b L, edge g a b = Some L → L ≠ ∅.

End Route.

(** ** Invariants of the search *)

Module Invariant.
Import Builder Search Route.

(** Every hop of the chain of parents of [e] is an edge of [g] that
    carries the line of the entry it leads to, and the chain starts at
    [src]. *)
Fixpoint entry_ok (g : gmap string (gmap string (gset string))) (src : string)
    (e : entry) : Prop :=
  match e_parent e with
  | None => e_station e = src
  | Some p =>
      entry_ok g src p ∧ has_label g (e_station p) (e_station e) (e_line e)
  end.

(** Induction along the chain of parents. *)
Fixpoint entry_chain_ind (P : entry → Prop)
    (Hroot : ∀ sw st s l, P (Entry sw st s l None))
    (Hstep : ∀ sw st s l p, P p → P (Entry sw st s l (Some p)))
    (e : entry) : P e :=
  match e with
  | Entry sw st s l None => Hroot sw st s l
  | Entry sw st s l (Some p) =>
      Hstep sw st s l p (entry_chain_ind P Hroot Hstep p)
  end.

(** The four components [heapq] compares. *)
Definition e_key4 (e : entry) : nat * nat * string * string :=
  (e_switches e, e_stations e, e_station e, e_line e).

(** The station count of an entry is the number of hops of its chain of
    parents. *)
Fixpoint entry_hops (e : entry) : Prop :=
  match e_parent e with
  | None => e_stations e = 0
  | Some p => entry_hops p ∧ e_stations e = e_stations p + 1
  end.

(** The graph object [g] is the graph [g0] the call received, but for
    stations without an entry in [g0] that now have an empty one. *)
Definition grown_from (g0 g : gmap string (gmap string (gset string))) : Prop :=
  ∀ a, g !! a = g0 !! a ∨ (g0 !! a = None ∧ g !! a = Some ∅).

(** The graph object of the loop keeps the edges of the graph [g0] the
    call received. *)
Definition edges_kept (g0 : gmap string (gmap string (gset string)))
    (s : loop_state) : Prop :=
  ∀ a b, edge (ls_graph s) a b = edge g0 a b.

(** The graph keeps its edges, and every entry of the heap comes with a
    walk from the source. *)
Definition walks_inv (g0 : gmap string (gmap string (gset string)))
    (src : string) (s : loop_state) : Prop :=
  edges_kept g0 s ∧ ∀ e, e ∈ ls_pq s → entry_ok g0 src e.

(** Station [a] is not the destination and each of its neighbours is
    recorded in [visited] under some line. *)
Definition closed (g0 : gmap string (gmap string (gset string))) (dest : string)
    (visited : gmap (string * string) (nat * nat)) (a : string) : Prop :=
  a ≠ dest ∧ ∀ b L, edge g0 a b = Some L → ∃ l, is_Some (visited !! (b, l)).

(** The heap holds an entry for key [k] that the stale check lets
    through. *)
Definition pending (visited : gmap (string * string) (nat * nat))
    (pq : list entry) (k : string * string) : Prop :=
  ∃ e, e ∈ pq ∧ e_key e = k ∧ stale visited e = false.

(** Every recorded key is still to be expanded or belongs to a closed
    station, and the source is recorded. *)
Definition frontier_inv (g0 : gmap string (gmap string (gset string)))
    (src dest : string) (s : loop_state) : Prop :=
  edges_kept g0 s ∧
  labels_nonempty g0 ∧
  (∃ l, is_Some (ls_visited s !! (src, l))) ∧
  ∀ k, is_Some (ls_visited s !! k) →
       pending (ls_visited s) (ls_pq s) k ∨ closed g0 dest (ls_visited s) k.1.

(** Entry [e] is accounted for in [visited]: its key is recorded with a
    cost that is not above its own, or [e] is a seed, pushed with 0 stations
    and recorded with 1. *)
Definition entry_recorded (visited : gmap (string * string) (nat * nat))
    (e : entry) : Prop :=
  ∃ c, visited !! e_key e = Some c ∧
       (cost_ltb (e_cost e) c = false ∨ (e_stations e = 0 ∧ c = (0, 1))).

(** No two entries of the heap agree on the four components [heapq]
    compares first, and every entry is accounted for. *)
Definition heap_inv (visited : gmap (string * string) (nat * nat))
    (pq : list entry) : Prop :=
  NoDup (e_key4 <$> pq) ∧ ∀ e, e ∈ pq → entry_recorded visited e.

(** Two states of [visited] and [pq] that differ in the arrangement of the
    heap only, and two outcomes of that kind. *)
Definition same_heap
    (st1 st2 : gmap (string * string) (nat * nat) * list entry) : Prop :=
  st1.1 = st2.1 ∧ st1.2 ≡ₚ st2.2.

Definition same_outcome
    (o1 o2 : outcome (gmap (string * string) (nat * nat) * list entry)) : Prop :=
  match o1, o2 with
  | Returned st1, Returned st2 => same_heap st1 st2
  | Raised_ValueError, Raised_ValueError => True
  | _, _ => False
  end.

Definition same_state (s1 s2 : loop_state) : Prop :=
  ls_graph s1 = ls_graph s2 ∧ ls_visited s1 = ls_visited s2 ∧
  ls_pq s1 ≡ₚ ls_pq s2.

(** The keys [(neighbour, line)] the loop can ever record: the head and a
    label of some edge. *)
Definition label_keys (g : gmap string (gmap string (gset string)))
    : list (string * string) :=
  am ← map_to_list g; bL ← map_to_list am.2; l ← elements bL.2; [(bL.1, l)].

(** The termination measure: for each key of [label_keys] whether it is
    still unvisited and its recorded cost, then the length of the heap,
    compared lexicographically. *)
Definition key_measure (o : option (nat * nat)) : list nat :=
  match o with
  | None => [1; 0; 0]
  | Some c => [0; c.1; c.2]
  end.

Definition visited_measure (U : list (string * string))
    (visited : gmap (string * string) (nat * nat)) : list nat :=
  k ← U; key_measure (visited !! k).

Definition loop_measure (U : list (string * string)) (s : loop_state) : list nat :=
  visited_measure U (ls_visited s) ++ [length (ls_pq s)].

Inductive lex_lt : list nat → list nat → Prop :=
  | lex_lt_head x y l l' :
      x < y → length l = length l' → lex_lt (x :: l) (y :: l')
  | lex_lt_tail x l l' :
      lex_lt l l' → lex_lt (x :: l) (x :: l').

(** [v'] is below [v] in the measure, whatever follows. *)
Definition visited_lt (U : list (string * string))
    (v' v : gmap (string * string) (nat * nat)) : Prop :=
  ∀ t t', length t = length t' →
          lex_lt (visited_measure U v' ++ t) (visited_measure U v ++ t').

End Invariant.

(** ** Notions for the rest of the builder *)

Module BuilderSpec.
Import Builder Search Route.

(** [a] is followed by [b] in the station sequence of a line named [l]. *)
Definition adjacent_in (items : list (string * list string)) (l a b : string)
    : Prop :=
  ∃ stations i, (l, stations) ∈ items ∧
                stations !! i = Some a ∧ stations !! S i = Some b.

(** How often [s] occurs in the station sequences of all lines. *)
Definition occurrences (items : list (string * list string)) (s : string) : nat :=
  sum_list ((λ item, length (filter (λ x, x = s) item.2)) <$> items).

End BuilderSpec.

(** ** Notions for the rest of the search *)

Module SearchSpec.
Import Builder Search Route Invariant.

(** The switch count of an entry is brought forward along its chain of
    parents: 0 at a seed, one more than the parent's where the line
    differs from the parent's. *)
Fixpoint entry_switches_ok (e : entry) : Prop :=
  match e_parent e with
  | None => e_switches e = 0
  | Some p =>
      entry_switches_ok p ∧
      e_switches e = e_switches p + (if decide (e_line e = e_line p) then 0 else 1)
  end.

(** [x <= y] on costs, as tuples. *)
Definition cost_le (x y : nat * nat) : Prop := cost_ltb y x = false.

(** The cost after one more hop, from line [l] to line [el]. *)
Definition hop_cost (c : nat * nat) (l el : string) : nat * nat :=
  (c.1 + (if decide (el = l) then 0 else 1), c.2 + 1).

(** The rides the loop of [find_min_switch_path] can take: start at [src]
    on any line [l] of its index entry [Ls], at cost [(0, 0)]; from station
    [a] on line [l], go to a neighbour [b] on the line [edge_line] picks for
    the edge, that is [l] itself when [l] is a label of the edge and the
    least label otherwise. *)
Inductive greedy_ride (it : iteration)
    (g : gmap string (gmap string (gset string))) (src : string)
    (Ls : gset string) : string * string → nat * nat → Prop :=
  | greedy_seed l : l ∈ Ls → greedy_ride it g src Ls (src, l) (0, 0)
  | greedy_hop a l c b L el :
      greedy_ride it g src Ls (a, l) c →
      edge g a b = Some L → edge_line it l L = Some el →
      greedy_ride it g src Ls (b, el) (hop_cost c l el).

(** The invariant behind the minimality of the result.  [E] lists the keys
    expanded so far with the cost they were expanded at. *)
Definition opt_inv (it : iteration)
    (g0 : gmap string (gmap string (gset string))) (src dest : string)
    (Ls : gset string) (E : list ((string * string) * (nat * nat)))
    (v : gmap (string * string) (nat * nat)) (pq : list entry) : Prop :=
  (∀ l, l ∈ Ls → Entry 0 0 src l None ∈ pq ∨ ((src, l), (0, 0)) ∈ E) ∧
  (∀ k x, v !! k = Some x →
     (∃ e, e ∈ pq ∧ e_key e = k ∧ stale v e = false ∧ cost_le (e_cost e) x) ∨
     (∃ c, (k, c) ∈ E ∧ cost_le c x)) ∧
  (∀ a l c b L el, ((a, l), c) ∈ E →
     edge g0 a b = Some L → edge_line it l L = Some el →
     ∃ x, v !! (b, el) = Some x ∧ cost_le x (hop_cost c l el)) ∧
  (∀ k c, (k, c) ∈ E → k.1 ≠ dest) ∧
  (∀ e, e ∈ pq → greedy_ride it g0 src Ls (e_key e) (e_cost e)).

(** All hops of [path] are edges that carry line [l]. *)
Fixpoint on_line (g : gmap string (gmap string (gset string))) (l : string)
    (path : list string) : Prop :=
  match path with
  | a :: (b :: _) as rest => has_label g a b l ∧ on_line g l rest
  | _ => True
  end.

End SearchSpec.

(** ** find_station_by_display *)

Module Resolve.

(** The order in which the items of a display-name dictionary are met. *)
Record display_order := DisplayOrder {
  display_items : gmap string string → list (string * string);
  display_items_perm : ∀ m, display_items m ≡ₚ map_to_list m
}.

Definition canonical_display_order : display_order :=
  {| display_items := map_to_list;
     display_items_perm := λ m, reflexivity (map_to_list m) |}.

Section WithNormalize.
(** [normalize_name] strips, lower-cases and filters its argument with the
    Unicode tables of [str] and [re]; the resolution below only applies it
    and compares its results, so it is a parameter here. *)
Variable normalize_name : string → string.

(** [find_station_by_display(query, canonical_to_display)], on the items
    [canonical_to_display.items()] yields, in the order it yields them: the
    first exact match, else the first match after normalisation, else
    [None]. *)
Definition find_station_by_display (query : string)
    (items : list (string * string)) : option string :=
  match list_find (λ cd, cd.2 = query) items with
  | Some (_, (cid, _)) => Some cid
  | None =>
      let nq := normalize_name query in
      match list_find (λ cd, normalize_name cd.2 = nq) items with
      | Some (_, (cid, _)) => Some cid
      | None => None
      end
  end.

End WithNormalize.

End Resolve.

(** ** CombinedGraph.py: the adjacency list [metro_graph] *)

Module CombinedGraph.
Import Search.

(** [if station not in metro_graph: metro_graph[station] = set()] *)
Definition ensure (station : string) (mg : gmap string (gset string))
    : gmap string (gset string) :=
  match mg !! station with
  | Some _ => mg
  | None => <[station := ∅]> mg
  end.

(** [metro_graph[station].add(x)] on a plain [dict]; the key is there when
    this runs, [ensure] comes first. *)
Definition add_neighbor (station x : string) (mg : gmap string (gset string))
    : gmap string (gset string) :=
  <[station := default ∅ (mg !! station) ∪ {[x]}]> mg.

(** [for i, station in enumerate(stations)]: [prev] is [stations[i-1]] and
    is there when [i > 0]; the head of [rest] is [stations[i+1]] and is
    there when [i < len(stations) - 1]. *)
Fixpoint add_line_neighbors (prev : option string) (stations : list string)
    (mg : gmap string (gset string)) : gmap string (gset string) :=
  match stations with
  | [] => mg
  | station :: rest =>
      let mg1 := ensure station mg in
      let mg2 := match prev with
                 | Some p => add_neighbor station p mg1
                 | None => mg1
                 end in
      let mg3 := match rest with
                 | next :: _ => add_neighbor station next mg2
                 | [] => mg2
                 end in
      add_line_neighbors (Some station) rest mg3
  end.

(** The first loop, [for line in lines], on [list(line.keys())] of each
    line. *)
Definition neighbor_sets (lines : list (list string)) : gmap string (gset string) :=
  foldl (λ mg stations, add_line_neighbors None stations mg) ∅ lines.

(** [a <= b] on strings. *)
Definition str_le (a b : string) : Prop := String.leb a b = true.

Global Instance str_le_dec a b : Decision (str_le a b).
Proof. unfold str_le. apply _. Defined.

(** [sorted(list(s))]: the elements of the set, in the order the set
    yields them, sorted. *)
Definition sorted_list (it : iteration) (s : gset string) : list string :=
  merge_sort str_le (set_iter it s).

(** [metro_graph] after the second loop. *)
Definition metro_graph (it : iteration) (lines : list (list string))
    : gmap string (list string) :=
  sorted_list it <$> neighbor_sets lines.

End CombinedGraph.

Module CombinedSpec.

(** [a] and [b] follow each other, in either order, in the sequence. *)
Definition neighbors_in (stations : list string) (a b : string) : Prop :=
  ∃ i, (stations !! i = Some a ∧ stations !! S i = Some b) ∨
       (stations !! i = Some b ∧ stations !! S i = Some a).

(** [a < b] on strings. *)
Definition str_lt (a b : string) : Prop := String.ltb a b = true.

End CombinedSpec.

(** ** main *)

Module Cli.
Import Builder Search Resolve.

(** What one [print] call of [main] writes: one constructor per call, with
    the values its text is formatted from. *)
Inductive printed :=
  | Warning (s : string) (counter : gmap string nat)
      (* WARNING: station key '{s}' has multiple display forms: {dict(counter)} *)
  | Source_not_found
      (* Source not found. Try exact name or normalized form. *)
  | Destination_not_found
      (* Destination not found. Try exact name or normalized form. *)
  | No_path_found
      (* No path found between the stations. *)
  | Path_header
      (* \nPath (stations): *)
  | Path_stations (path : list string)
      (* " -> ".join(path) *)
  | Stations_traversed (stations_traversed : nat)
      (* Stations traversed (including source): {stations_traversed} *)
  | Number_of_switches (switches : nat).
      (* Number of switches: {switches} *)

(** The order in which [id_to_names.items()] yields its items. *)
Record names_order := NamesOrder {
  names_items : gmap string (gmap string nat) → list (string * gmap string nat);
  names_items_perm : ∀ m, names_items m ≡ₚ map_to_list m
}.

Definition canonical_names_order : names_order :=
  {| names_items := map_to_list;
     names_items_perm := λ m, reflexivity (map_to_list m) |}.

Section WithEnvironment.
(** [normalize_name] and [str.strip] work with the Unicode tables of
    Python; [LINE_ITEMS] is read from the line files.  [main] only applies
    them, so they are parameters here, with the iteration orders of the
    run. *)
Variable normalize_name : string → string.
Variable strip : string → string.
Variable it : iteration.
Variable dord : display_order.
Variable nord : names_order.
Variable LINE_ITEMS : list (string * list string).

(** [for s, counter in id_to_names.items(): if len(counter) > 1: print(...)] *)
Definition warnings (names : gmap string (gmap string nat)) : list printed :=
  item ← names_items nord names;
  if decide (1 < size item.2) then [Warning item.1 item.2] else [].

(** [main()], reading the two lines [src_input] and [dest_input] and
    running the search for at most [fuel] turns of its loop.  The value is
    what was printed, in order, and how the run ended. *)
Definition main (fuel : nat) (src_input dest_input : string)
    : option (list printed * outcome unit) :=
  let b := build_graph_and_station_lines LINE_ITEMS in
  let out := warnings (id_to_names b) in
  let src_q := strip src_input in
  let dest_q := strip dest_input in
  let items := display_items dord (canonical_to_display b) in
  let src := find_station_by_display normalize_name src_q items in
  let dest := find_station_by_display normalize_name dest_q items in
  match src with
  | None => Some (out ++ [Source_not_found], Returned ())
  | Some src =>
      match dest with
      | None => Some (out ++ [Destination_not_found], Returned ())
      | Some dest =>
          match find_min_switch_path it fuel (graph b) (station_lines b) src dest with
          | None => None
          | Some (Raised_ValueError, _) => Some (out, Raised_ValueError)
          | Some (Returned None, _) => Some (out ++ [No_path_found], Returned ())
          | Some (Returned (Some r), _) =>
              Some (out ++ [Path_header;
                            Path_stations (f_path r);
                            Stations_traversed (f_stations r);
                            Number_of_switches (f_switches r)], Returned ())
          end
      end
  end.

End WithEnvironment.

End Cli.

Module CliSpec.
Import Builder Resolve.

(** The station [main] resolves an input line to: the line is stripped and
    looked up in the display names of the builder. *)
Definition resolve (normalize_name strip : string → string)
    (dord : display_order) (LINE_ITEMS : list (string * list string))
    (input : string) : option string :=
  find_station_by_display normalize_name (strip input)
    (display_items dord
       (canonical_to_display (build_graph_and_station_lines LINE_ITEMS))).

End CliSpec.

Import Builder Search Route Invariant.

(** * The builder: edges, labels and the station index *)

Lemma edge_add_edge a b l g x y :
  edge (add_edge a b l g) x y =
    if decide (x = a ∧ y = b)
    then Some (default ∅ (edge g a b) ∪ {[l]})
    else edge g x y.
Proof.
  unfold edge, add_edge.
  destruct (decide (x = a)) as [->|Hx].
  - rewrite lookup_insert_eq. simpl.
    destruct (decide (y = b)) as [->|Hy].
    + rewrite lookup_insert_eq, decide_True by done.
      by destruct (g !! a).
    + rewrite lookup_insert_ne, decide_False by naive_solver.
      by destruct (g !! a).
  - rewrite lookup_insert_ne, decide_False by naive_solver. done.
Qed.

Lemma symmetric_empty : symmetric ∅.
Proof. intros a b. unfold edge. by rewrite !lookup_empty. Qed.

Lemma symmetric_add_both a b l g :
  symmetric g → symmetric (add_edge b a l (add_edge a b l g)).
Proof.
  intros Hg x y. rewrite !edge_add_edge.
  pose proof (Hg a b) as Hab. pose proof (Hg x y) as Hxy.
  repeat case_decide; destruct_and?; simplify_eq; try done;
    try (rewrite ?Hab; simpl; f_equal; set_solver);
    try naive_solver.
Qed.

Lemma symmetric_add_edges l stations g :
  symmetric g → symmetric (add_edges l stations g).
Proof.
  revert g. induction stations as [|a [|b rest] IH]; intros g Hg; simpl; try done.
  apply IH. by apply symmetric_add_both.
Qed.

Lemma symmetric_build_state items st :
  symmetric st.1 → symmetric (foldl add_line st items).1.
Proof.
  revert st. induction items as [|item items IH]; intros st Hst; simpl; [done|].
  apply IH. simpl. by apply symmetric_add_edges.
Qed.

Lemma build_symmetric items :
  symmetric (graph (build_graph_and_station_lines items)).
Proof. apply symmetric_build_state, symmetric_empty. Qed.



Lemma add_stations_lookup l stations acc s :
  (add_stations l stations acc).1 !! s =
    if decide (s ∈ stations)
    then Some (default ∅ (acc.1 !! s) ∪ {[l]})
    else acc.1 !! s.
Proof.
  revert acc. induction stations as [|a rest IH]; intros acc.
  - done.
  - cbn [add_stations]. rewrite IH. cbn [fst]. unfold add_station_line.
    destruct (decide (s = a)) as [->|Hne].
    + rewrite lookup_insert_eq. cbn [default].
      destruct (decide (a ∈ rest)), (decide (a ∈ a :: rest)); try set_solver.
      f_equal; set_solver.
    + rewrite lookup_insert_ne by done.
      destruct (decide (s ∈ rest)), (decide (s ∈ a :: rest)); try done; set_solver.
Qed.

Lemma add_edges_labels l stations g a b x L :
  edge (add_edges l stations g) a b = Some L → x ∈ L →
  x ∈ default ∅ (edge g a b) ∨ (x = l ∧ a ∈ stations).
Proof.
  revert g L. induction stations as [|c [|d rest] IH]; intros g L HL Hx; simpl in *.
  - left. by rewrite HL.
  - left. by rewrite HL.
  - destruct (IH _ _ HL Hx) as [Hin|[-> Hin]].
    + rewrite !edge_add_edge in Hin.
      repeat case_decide; destruct_and?; simplify_eq; simpl in *; set_solver.
    + right. split; [done|]. by apply list_elem_of_further.
Qed.

Lemma build_state_index_keys items st s :
  is_Some ((foldl add_line st items).2.1 !! s) ↔
  is_Some (st.2.1 !! s) ∨ ∃ item, item ∈ items ∧ s ∈ item.2.
Proof.
  revert st. induction items as [|item items IH]; intros st; cbn [foldl].
  - split; [by left|]. intros [?|(?&?%not_elem_of_nil&_)]; done.
  - rewrite IH. cbn [add_line fst snd]. rewrite add_stations_lookup.
    case_decide as Hin.
    + split; [intros _|intros _; by left]. right. exists item. set_solver.
    + split.
      * intros [?|(i&?&?)]; [by left|]. right. exists i. set_solver.
      * intros [?|(i&[->|?]%elem_of_cons&?)]; [by left|done|]. right. eauto.
Qed.

Lemma build_state_index_lines items st s x :
  x ∈ default ∅ ((foldl add_line st items).2.1 !! s) ↔
  x ∈ default ∅ (st.2.1 !! s) ∨ serves items x s.
Proof.
  revert st. induction items as [|item items IH]; intros st; cbn [foldl].
  - split; [by left|]. intros [?|(?&?%not_elem_of_nil&_)]; done.
  - rewrite IH. cbn [add_line fst snd]. rewrite add_stations_lookup.
    unfold serves. destruct item as [l sts]. cbn [fst snd].
    case_decide as Hin; cbn [from_option id].
    + rewrite elem_of_union, elem_of_singleton. split.
      * intros [[?| ->]|(sts'&?&?)]; [by left| |].
        -- right. exists sts. set_solver.
        -- right. exists sts'. set_solver.
      * intros [?|(sts'&[?|?]%elem_of_cons&?)]; [by left;left| |]; simplify_eq.
        -- left. by right.
        -- right. eauto.
    + split.
      * intros [?|(sts'&?&?)]; [by left|]. right. exists sts'. set_solver.
      * intros [?|(sts'&[?|?]%elem_of_cons&?)]; simplify_eq;
          [by left|done|right; eauto].
Qed.

Lemma build_state_labels items st a b x L :
  edge (foldl add_line st items).1 a b = Some L → x ∈ L →
  x ∈ default ∅ (edge st.1 a b) ∨ serves items x a.
Proof.
  revert st L. induction items as [|item items IH]; intros st L HL Hx; simpl in *.
  - left. by rewrite HL.
  - destruct (IH _ _ HL Hx) as [Hin|(sts&?&?)].
    + simpl in Hin. destruct (edge (add_edges item.1 item.2 st.1) a b) as [L'|] eqn:HL';
        [|set_solver].
      destruct (add_edges_labels _ _ _ _ _ _ _ HL' Hin) as [?|[-> ?]]; [by left|].
      right. exists item.2. split; [|done]. destruct item; set_solver.
    + right. exists sts. set_solver.
Qed.

Lemma has_label_add_edge_mono c d l g a b x :
  has_label g a b x → has_label (add_edge c d l g) a b x.
Proof.
  intros (L&HL&Hx). unfold has_label. rewrite edge_add_edge.
  case_decide as H; [|eauto]. destruct H as [-> ->].
  eexists. split; [done|]. rewrite HL. set_solver.
Qed.

Lemma has_label_add_edge_new a b l g : has_label (add_edge a b l g) a b l.
Proof.
  unfold has_label. rewrite edge_add_edge, decide_True by done.
  eexists. split; [done|]. set_solver.
Qed.

Lemma has_label_add_edges_mono l stations g a b x :
  has_label g a b x → has_label (add_edges l stations g) a b x.
Proof.
  revert g. induction stations as [|c [|d rest] IH]; intros g Hg; try done.
  change (add_edges l (c :: d :: rest) g)
    with (add_edges l (d :: rest) (add_edge d c l (add_edge c d l g))).
  by apply IH, has_label_add_edge_mono, has_label_add_edge_mono.
Qed.

Lemma has_label_add_edges_new l stations g i a b :
  stations !! i = Some a → stations !! S i = Some b →
  has_label (add_edges l stations g) a b l ∧ has_label (add_edges l stations g) b a l.
Proof.
  revert g i. induction stations as [|c [|d rest] IH]; intros g i Ha Hb; try done.
  change (add_edges l (c :: d :: rest) g)
    with (add_edges l (d :: rest) (add_edge d c l (add_edge c d l g))).
  destruct i as [|i].
  - simpl in Ha, Hb. simplify_eq. split; apply has_label_add_edges_mono.
    + apply has_label_add_edge_mono, has_label_add_edge_new.
    + apply has_label_add_edge_new.
  - apply (IH _ i); done.
Qed.

Lemma has_label_build_state_mono items st a b x :
  has_label st.1 a b x → has_label (foldl add_line st items).1 a b x.
Proof.
  revert st. induction items as [|item items IH]; intros st Hst; [done|].
  cbn [foldl]. apply IH. by apply has_label_add_edges_mono.
Qed.

Lemma has_label_build_state_new items st l stations i a b :
  (l, stations) ∈ items →
  stations !! i = Some a → stations !! S i = Some b →
  has_label (foldl add_line st items).1 a b l ∧
  has_label (foldl add_line st items).1 b a l.
Proof.
  revert st. induction items as [|item items IH]; intros st Hin Ha Hb.
  - by apply not_elem_of_nil in Hin.
  - cbn [foldl]. apply elem_of_cons in Hin as [<-|Hin]; [|by apply IH].
    destruct (has_label_add_edges_new l stations st.1 i a b Ha Hb).
    split; by apply has_label_build_state_mono.
Qed.

(** ** The claims about the builder *)

(** C6: the built graph is symmetric: when [b] has [a] as a neighbour with
    label set [L], then [a] has [b] as a neighbour with the same label set
    [L]. *)
Theorem built_graph_symmetric (items : list (string * list string))
    (a b : string) (L : gset string) :
  edge (graph (build_graph_and_station_lines items)) b a = Some L →
  edge (graph (build_graph_and_station_lines items)) a b = Some L.
Proof. intros H. by rewrite build_symmetric. Qed.

Lemma built_graph_symmetric_witness :
  edge (graph (build_graph_and_station_lines
                 [("L1", ["A"; "B"; "C"]); ("L2", ["C"; "B"])])) "B" "C"
    = Some {["L1"; "L2"]}.
Proof.
  apply (built_graph_symmetric
           [("L1", ["A"; "B"; "C"]); ("L2", ["C"; "B"])] "B" "C").
  vm_compute. reflexivity.
Defined.

Lemma station_index_spec (items : list (string * list string))
    (s : string) (Ls : gset string) :
  let b := build_graph_and_station_lines items in
  (s ∈ dom (station_lines b) ↔ ∃ l, serves items l s) ∧
  (station_lines b !! s = Some Ls →
   ∀ l, l ∈ Ls ↔ (∃ nbr, has_label (graph b) s nbr l) ∨ serves items l s).
Proof.
  cbn zeta. unfold build_graph_and_station_lines. cbn [graph station_lines].
  unfold build_state. split.
  - rewrite elem_of_dom, build_state_index_keys. cbn [fst snd].
    rewrite lookup_empty. unfold serves. split.
    + intros [[? [=]]|([l sts]&?&?)]. eauto.
    + intros (l&sts&?&?). right. by exists (l, sts).
  - intros Hs l.
    pose proof (build_state_index_lines items (∅, (∅, ∅)) s l) as Hl.
    rewrite Hs in Hl. cbn [fst snd from_option id] in Hl.
    rewrite lookup_empty in Hl. cbn in Hl. rewrite Hl. split.
    + intros [?%not_elem_of_empty|?]; [done|by right].
    + intros [(nbr&L&HL&Hin)|?]; [|by right].
      destruct (build_state_labels _ _ _ _ _ _ HL Hin) as [He|?]; [|by right].
      cbn in He. unfold edge in He. rewrite lookup_empty in He. set_solver.
Qed.

(** C7: a station is a key of the station index exactly when some input
    line has it in its sequence, and the entry of a station is the union of
    the label sets of its incident edges together with the lines whose
    sequence contains it. *)
Theorem station_lines_characterised (items : list (string * list string))
    (s : string) (Ls : gset string) :
  let b := build_graph_and_station_lines items in
  (s ∈ dom (station_lines b) ↔ ∃ l, serves items l s) ∧
  (station_lines b !! s = Some Ls →
   ∀ l, l ∈ Ls ↔ (∃ nbr, has_label (graph b) s nbr l) ∨ serves items l s).
Proof. apply station_index_spec. Qed.

Lemma station_lines_characterised_witness :
  "L2" ∈ ({["L1"; "L2"]} : gset string) ↔
    (∃ nbr, has_label (graph (build_graph_and_station_lines
               [("L1", ["A"; "B"; "C"]); ("L2", ["C"; "B"])])) "B" nbr "L2")
    ∨ serves [("L1", ["A"; "B"; "C"]); ("L2", ["C"; "B"])] "L2" "B".
Proof.
  apply (station_lines_characterised
           [("L1", ["A"; "B"; "C"]); ("L2", ["C"; "B"])] "B" {["L1"; "L2"]}).
  vm_compute. reflexivity.
Defined.

(** * The search: the heap and the seeding loop *)

Lemma extract_min_perm m l :
  (extract_min m l).1 :: (extract_min m l).2 ≡ₚ m :: l.
Proof.
  revert m. induction l as [|x l IH]; intros m; [done|].
  cbn [extract_min]. destruct (entry_ltb x m); cbn [fst snd].
  - by rewrite Permutation_swap, (IH x).
  - rewrite Permutation_swap, (IH m). apply Permutation_swap.
Qed.

Lemma heappop_perm pq e rest : heappop pq = Some (e, rest) → pq ≡ₚ e :: rest.
Proof.
  destruct pq as [|m l]; [done|]. intros [= H].
  pose proof (extract_min_perm m l) as Hp. by rewrite H in Hp.
Qed.

Lemma heappop_None pq : heappop pq = None → pq = [].
Proof. by destruct pq. Qed.

Lemma heappop_is_Some pq : pq ≠ [] → is_Some (heappop pq).
Proof. destruct pq; [done|]. intros _. by eexists. Qed.

Section WithIteration.
Variable it : iteration.

Lemma elem_of_set_iter (s : gset string) x : x ∈ set_iter it s ↔ x ∈ s.
Proof. by rewrite (set_iter_perm it s), elem_of_elements. Qed.

Lemma set_iter_NoDup (s : gset string) : NoDup (set_iter it s).
Proof. rewrite (set_iter_perm it s). apply NoDup_elements. Qed.

Lemma elem_of_dict_items (m : gmap string (gset string)) k v :
  (k, v) ∈ dict_items it m ↔ m !! k = Some v.
Proof. by rewrite (dict_items_perm it m), elem_of_map_to_list. Qed.

Lemma dict_items_NoDup (m : gmap string (gset string)) :
  NoDup (dict_items it m).*1.
Proof. rewrite (dict_items_perm it m). apply NoDup_fst_map_to_list. Qed.

Lemma seed_from_cons src st l lines :
  seed_from src st (l :: lines) =
    seed_from src (<[(src, l) := (0, 1)]> st.1,
                   heappush st.2 (Entry 0 0 src l None)) lines.
Proof. done. Qed.

Lemma seed_from_visited src st lines k :
  (seed_from src st lines).1 !! k =
    if decide (k.1 = src ∧ k.2 ∈ lines) then Some (0, 1) else st.1 !! k.
Proof.
  revert st. induction lines as [|l lines IH]; intros st.
  - cbn. case_decide as H; [|done]. by destruct H as (_&?%not_elem_of_nil).
  - rewrite seed_from_cons, IH. cbn [fst].
    destruct k as [s l']. cbn [fst snd].
    destruct (decide ((s, l') = (src, l))) as [[= -> ->]|Hne].
    + rewrite lookup_insert_eq.
      destruct (decide (src = src ∧ l ∈ lines)),
        (decide (src = src ∧ l ∈ l :: lines)); set_solver.
    + rewrite lookup_insert_ne by done.
      destruct (decide (s = src ∧ l' ∈ lines)) as [H|H].
      * rewrite decide_True; [done|]. set_solver.
      * rewrite decide_False; [done|].
        intros [-> [->|?]%elem_of_cons]; [done|]. by apply H.
Qed.

Lemma seed_from_pq src st lines :
  (seed_from src st lines).2 ≡ₚ ((λ l, Entry 0 0 src l None) <$> lines) ++ st.2.
Proof.
  revert st. induction lines as [|l lines IH]; intros st; [done|].
  rewrite seed_from_cons, IH. cbn [snd].
  unfold heappush. rewrite fmap_cons. by rewrite <-Permutation_middle.
Qed.

Lemma seed_visited src (lines : gset string) k :
  (seed it src lines).1 !! k =
    if decide (k.1 = src ∧ k.2 ∈ lines) then Some (0, 1) else None.
Proof.
  unfold seed. rewrite seed_from_visited. cbn [fst]. rewrite lookup_empty.
  destruct (decide (k.1 = src ∧ k.2 ∈ set_iter it lines)) as [H|H].
  - rewrite decide_True; [done|]. by rewrite elem_of_set_iter in H.
  - rewrite decide_False; [done|]. by rewrite elem_of_set_iter in H.
Qed.

Lemma seed_pq src lines :
  (seed it src lines).2 ≡ₚ (λ l, Entry 0 0 src l None) <$> set_iter it lines.
Proof.
  unfold seed.
  rewrite seed_from_pq. cbn [snd]. by rewrite app_nil_r.
Qed.

Lemma elem_of_seed_pq src lines e :
  e ∈ (seed it src lines).2 ↔ ∃ l, l ∈ lines ∧ e = Entry 0 0 src l None.
Proof.
  rewrite seed_pq, list_elem_of_fmap. split.
  - intros (l&->&?%elem_of_set_iter). eauto.
  - intros (l&?&->). exists l. by rewrite elem_of_set_iter.
Qed.

End WithIteration.

(** * Queries decided before or at the first turn of the loop *)

(** C3, as the code has it: when the source or the destination is no key
    of the station index, the call raises nothing and returns the all-[None]
    result, the very value it returns when no path exists; the graph is
    left as it was. *)
Theorem unknown_station_returns_none (it : iteration) (fuel : nat)
    (g : gmap string (gmap string (gset string)))
    (sl : gmap string (gset string)) (src dest : string) :
  sl !! src = None ∨ sl !! dest = None →
  find_min_switch_path it fuel g sl src dest = Some (Returned None, g).
Proof.
  unfold find_min_switch_path. intros [-> | ->]; [done|].
  by destruct (sl !! src).
Qed.

Lemma unknown_station_returns_none_witness :
  find_min_switch_path canonical_iteration 0 ∅ {["A" := {["L"]}]} "A" "Z"
    = Some (Returned None, ∅).
Proof.
  apply (unknown_station_returns_none canonical_iteration 0 ∅
           {["A" := {["L"]}]} "A" "Z").
  right. reflexivity.
Defined.

(** C3 fails as stated: on a network of two separate lines the query for a
    station that is in no line and the query between the two lines return
    the same value, no error tells them apart. *)
Lemma unknown_station_not_distinguished :
  let b := build_graph_and_station_lines
             [("L1", ["A"; "B"]); ("L2", ["C"; "D"])] in
  station_lines b !! "Z" = None ∧
  is_Some (station_lines b !! "A") ∧ is_Some (station_lines b !! "C") ∧
  find_min_switch_path canonical_iteration 10 (graph b) (station_lines b) "A" "Z"
    = Some (Returned None, graph b) ∧
  find_min_switch_path canonical_iteration 10 (graph b) (station_lines b) "A" "C"
    = Some (Returned None, graph b).
Proof.
  cbn zeta. split_and!.
  - vm_compute. reflexivity.
  - vm_compute. eauto.
  - vm_compute. eauto.
  - vm_compute. reflexivity.
  - vm_compute. reflexivity.
Qed.

(** C2, what the code does: the query from a known station to itself
    returns the one-station path with 0 switches, and with a station count
    of 0, not 1: the seed entry is pushed with count 0 although [visited]
    records 1 for it. *)
Theorem reflexive_query_counts_zero (it : iteration) (fuel : nat)
    (g : gmap string (gmap string (gset string)))
    (sl : gmap string (gset string)) (X : string) (Ls : gset string) :
  sl !! X = Some Ls → Ls ≠ ∅ →
  find_min_switch_path it (S fuel) g sl X X
    = Some (Returned (Some (Found [X] 0 0 [])), g).
Proof.
  intros HX Hne. unfold find_min_switch_path. rewrite HX.
  cbn [search_loop]. unfold step. cbn [ls_pq ls_visited ls_graph].
  destruct (heappop (seed it X Ls).2) as [[e rest]|] eqn:Hpop.
  - assert (e ∈ (seed it X Ls).2) as He.
    { rewrite (heappop_perm _ _ _ Hpop). apply list_elem_of_here. }
    apply elem_of_seed_pq in He as (l&Hl&->).
    unfold stale. cbn [e_station e_line e_switches e_stations].
    rewrite seed_visited. cbn [fst snd]. rewrite decide_True by done.
    cbn. rewrite decide_True by done. done.
  - apply heappop_None in Hpop.
    apply set_choose_L in Hne as [l Hl].
    assert (Entry 0 0 X l None ∈ (seed it X Ls).2) as He.
    { apply elem_of_seed_pq. eauto. }
    rewrite Hpop in He. by apply not_elem_of_nil in He.
Qed.

Lemma reflexive_query_counts_zero_witness :
  find_min_switch_path canonical_iteration 1
    (graph (build_graph_and_station_lines [("L1", ["A"; "B"])]))
    (station_lines (build_graph_and_station_lines [("L1", ["A"; "B"])]))
    "A" "A"
  = Some (Returned (Some (Found ["A"] 0 0 [])),
          graph (build_graph_and_station_lines [("L1", ["A"; "B"])])).
Proof.
  apply (reflexive_query_counts_zero canonical_iteration 0 _ _ "A" {["L1"]}).
  - vm_compute. reflexivity.
  - intros H. assert ("L1" ∈ (∅ : gset string)) as Hin by (rewrite <-H; set_solver).
    by apply not_elem_of_empty in Hin.
Defined.

(** * The order on strings *)

Lemma str_ltb_lt a b : String.ltb a b = true ↔ String_as_OT.lt a b.
Proof.
  unfold String.ltb. rewrite <-String_as_OT.cmp_lt. unfold String_as_OT.cmp.
  by destruct (String.compare a b).
Qed.

Lemma str_ltb_irrefl a : String.ltb a a = false.
Proof.
  apply not_true_is_false. rewrite str_ltb_lt. intros H.
  by apply String_as_OT.lt_not_eq in H.
Qed.

Lemma str_ltb_trans a b c :
  String.ltb a b = true → String.ltb b c = true → String.ltb a c = true.
Proof. rewrite !str_ltb_lt. apply String_as_OT.lt_trans. Qed.

Lemma str_compare_Gt a b : String.compare a b = Gt ↔ String.ltb b a = true.
Proof.
  unfold String.ltb. rewrite (String.compare_antisym b a).
  by destruct (String.compare a b).
Qed.

Lemma str_compare_Eq a b : String.compare a b = Eq ↔ a = b.
Proof. apply String_as_OT.cmp_eq. Qed.

Lemma str_ltb_total a b :
  String.ltb a b = false → String.ltb b a = false → a = b.
Proof.
  intros H1 H2. apply str_compare_Eq.
  destruct (String.compare a b) eqn:Hc; [done| |].
  - unfold String.ltb in H1. by rewrite Hc in H1.
  - apply str_compare_Gt in Hc. congruence.
Qed.

(** * [min] of a set of lines *)

Lemma foldl_min_step_Some a xs :
  ∃ m, foldl min_step (Some a) xs = Some m ∧ m ∈ a :: xs ∧
       ∀ x, x ∈ a :: xs → String.ltb x m = false.
Proof.
  revert a. induction xs as [|y xs IH]; intros a.
  - exists a. split_and!; [done|set_solver|].
    intros x ->%list_elem_of_singleton. apply str_ltb_irrefl.
  - cbn [foldl min_step]. destruct (String.ltb y a) eqn:Hya.
    + destruct (IH y) as (m&->&Hm&Hmin). exists m. split_and!; [done|set_solver|].
      intros x [->|Hx]%elem_of_cons; [|by apply Hmin].
      apply not_true_is_false. intros Ham.
      assert (String.ltb y m = true) as Hym by (by eapply str_ltb_trans).
      rewrite Hmin in Hym; [done|set_solver].
    + destruct (IH a) as (m&->&Hm&Hmin). exists m. split_and!; [done|set_solver|].
      intros x [->|[->|Hx]%elem_of_cons]%elem_of_cons.
      * apply Hmin. set_solver.
      * apply not_true_is_false. intros Hym.
        destruct (decide (m = a)) as [->|Hne]; [congruence|].
        assert (String.ltb a m = false) as Ham by (apply Hmin; set_solver).
        assert (String.ltb m a = true) as Hma.
        { apply not_false_iff_true. intros Hma. by apply Hne, str_ltb_total. }
        assert (String.ltb y a = true) by (by eapply str_ltb_trans). congruence.
      * apply Hmin. set_solver.
Qed.

Section WithIteration.
Variable it : iteration.

Lemma set_min_spec (s : gset string) :
  match set_min it s with
  | None => s = ∅
  | Some m => m ∈ s ∧ ∀ x, x ∈ s → String.ltb x m = false
  end.
Proof.
  unfold set_min.
  destruct (set_iter it s) as [|a xs] eqn:Hxs.
  - cbn. apply set_eq. intros x. rewrite <-(elem_of_set_iter it), Hxs. set_solver.
  - cbn [foldl min_step].
    destruct (foldl_min_step_Some a xs) as (m&->&Hm&Hmin).
    rewrite <-Hxs in Hm, Hmin. split.
    + by apply (elem_of_set_iter it).
    + intros x Hx. by apply Hmin, elem_of_set_iter.
Qed.

Lemma edge_line_Some cl (L : gset string) el :
  edge_line it cl L = Some el → el ∈ L.
Proof.
  unfold edge_line. case_decide; [by intros [= <-]|].
  intros Hm. pose proof (set_min_spec L) as Hs. rewrite Hm in Hs. by destruct Hs.
Qed.

Lemma edge_line_None cl (L : gset string) :
  edge_line it cl L = None → L = ∅.
Proof.
  unfold edge_line. case_decide; [done|].
  intros Hm. pose proof (set_min_spec L) as Hs. by rewrite Hm in Hs.
Qed.

End WithIteration.

(** * The main loop: how a turn changes the state *)

Lemma edge_touch c g a b : edge (touch c g) a b = edge g a b.
Proof.
  unfold touch, edge. destruct (g !! c) eqn:Hc; [done|].
  destruct (decide (a = c)) as [->|Hne].
  - rewrite lookup_insert_eq, Hc. cbn. by rewrite lookup_empty.
  - by rewrite lookup_insert_ne.
Qed.

Lemma touch_items c g b L :
  default ∅ (touch c g !! c) !! b = Some L ↔ edge g c b = Some L.
Proof.
  rewrite <-(edge_touch c g c b). unfold edge.
  destruct (touch c g !! c) as [m|]; cbn; [done|]. by rewrite lookup_empty.
Qed.

Lemma cost_ltb_irrefl c : cost_ltb c c = false.
Proof.
  unfold cost_ltb. rewrite !Nat.ltb_irrefl. by rewrite andb_false_r.
Qed.

Lemma cost_ltb_spec x y :
  cost_ltb x y = true ↔ x.1 < y.1 ∨ (x.1 = y.1 ∧ x.2 < y.2).
Proof.
  unfold cost_ltb.
  rewrite orb_true_iff, andb_true_iff, !Nat.ltb_lt, Nat.eqb_eq. done.
Qed.

Section WithIteration.
Variable it : iteration.

(** What one [relax] does. *)
Lemma relax_Returned e st item st' :
  relax it e st item = Returned st' →
  ∃ el, el ∈ item.2 ∧
    let n := successor e item.1 el in
    (improves st.1 n = true ∧
       st' = (<[e_key n := e_cost n]> st.1, n :: st.2)) ∨
    (improves st.1 n = false ∧ st' = st).
Proof.
  unfold relax. destruct (edge_line it (e_line e) item.2) as [el|] eqn:Hel; [|done].
  apply edge_line_Some in Hel. cbn zeta. intros Hrun.
  exists el. split; [done|].
  destruct (improves st.1 (successor e item.1 el)); simplify_eq; eauto.
Qed.

Lemma relax_Raised e st item :
  relax it e st item = Raised_ValueError → item.2 = ∅.
Proof.
  unfold relax. destruct (edge_line it (e_line e) item.2) as [el|] eqn:Hel.
  - by destruct (improves _ _).
  - intros _. by apply edge_line_None in Hel.
Qed.

(** A property of [(visited, pq)] kept by every [relax] is kept by the
    whole [for] loop. *)
Lemma relax_all_ind (P : gmap (string * string) (nat * nat) * list entry → Prop)
    e (items : list (string * gset string)) :
  (∀ st item st', item ∈ items → P st →
                  relax it e st item = Returned st' → P st') →
  ∀ st st', P st → relax_all it e st items = Returned st' → P st'.
Proof.
  induction items as [|item items IH]; intros Hstep st st' Hst Hrun.
  - cbn in Hrun. by simplify_eq.
  - cbn [relax_all] in Hrun.
    destruct (relax it e st item) as [st1|] eqn:H1; [|done].
    apply (IH (λ st0 i st0' Hi, Hstep st0 i st0' (list_elem_of_further _ _ _ Hi))
             st1 st'); [|done].
    apply (Hstep st item st1); [apply list_elem_of_here|done..].
Qed.

Lemma relax_all_Raised e st (items : list (string * gset string)) :
  relax_all it e st items = Raised_ValueError →
  ∃ item, item ∈ items ∧ item.2 = ∅.
Proof.
  revert st. induction items as [|item items IH]; intros st Hrun; [done|].
  cbn [relax_all] in Hrun.
  destruct (relax it e st item) as [st1|] eqn:H1.
  - destruct (IH _ Hrun) as (i&?&?). exists i. set_solver.
  - exists item. split; [set_solver|]. by eapply relax_Raised.
Qed.

(** The states a run goes through. *)
Lemma search_loop_ind (I : loop_state → Prop) dest :
  (∀ s s', I s → step it dest s = Continue s' → I s') →
  ∀ fuel s r, I s → search_loop it fuel dest s = Some r →
  ∃ s_end, I s_end ∧
    match step it dest s_end with
    | Continue _ => False
    | Break best_final g => r = (Returned best_final, g)
    | Raise g => r = (Raised_ValueError, g)
    end.
Proof.
  intros Hstep. induction fuel as [|fuel IH]; intros s r Hs Hrun; [done|].
  cbn [search_loop] in Hrun.
  destruct (step it dest s) as [s'|b g|g] eqn:Hst.
  - apply (IH s'); [by eapply Hstep|done].
  - exists s. rewrite Hst. split; [done|]. by simplify_eq.
  - exists s. rewrite Hst. split; [done|]. by simplify_eq.
Qed.

Lemma search_loop_mono dest fuel fuel' s r :
  search_loop it fuel dest s = Some r → fuel ≤ fuel' →
  search_loop it fuel' dest s = Some r.
Proof.
  revert fuel' s. induction fuel as [|fuel IH]; intros fuel' s Hrun Hle; [done|].
  destruct fuel' as [|fuel']; [lia|]. cbn [search_loop] in *.
  destruct (step it dest s); [|done..]. apply IH; [done|lia].
Qed.

(** One turn, case by case. *)
Lemma step_cases dest s :
  match step it dest s with
  | Break None g => ls_pq s = [] ∧ g = ls_graph s
  | Break (Some e) g =>
      ∃ rest, ls_pq s ≡ₚ e :: rest ∧ stale (ls_visited s) e = false ∧
              e_station e = dest ∧ g = ls_graph s
  | Continue s' =>
      ∃ e rest, ls_pq s ≡ₚ e :: rest ∧
        ((stale (ls_visited s) e = true ∧
          s' = LoopState (ls_graph s) (ls_visited s) rest) ∨
         (stale (ls_visited s) e = false ∧ e_station e ≠ dest ∧
          ls_graph s' = touch (e_station e) (ls_graph s) ∧
          relax_all it e (ls_visited s, rest)
            (dict_items it (default ∅ (ls_graph s' !! e_station e)))
            = Returned (ls_visited s', ls_pq s')))
  | Raise g =>
      ∃ e rest, ls_pq s ≡ₚ e :: rest ∧ stale (ls_visited s) e = false ∧
        e_station e ≠ dest ∧ g = touch (e_station e) (ls_graph s) ∧
        relax_all it e (ls_visited s, rest)
          (dict_items it (default ∅ (g !! e_station e))) = Raised_ValueError
  end.
Proof.
  unfold step. destruct (heappop (ls_pq s)) as [[e rest]|] eqn:Hpop.
  - apply heappop_perm in Hpop.
    destruct (stale (ls_visited s) e) eqn:Hstale.
    { exists e, rest. split; [done|]. by left. }
    case_decide as Hd.
    { exists rest. done. }
    destruct (relax_all _ _ _ _) as [[v' pq']|] eqn:Hrel.
    + exists e, rest. split; [done|]. right. done.
    + exists e, rest. done.
  - by apply heappop_None in Hpop.
Qed.

End WithIteration.

(** * The returned route is a walk of the graph *)

Lemma rides_snoc g path lines a b l :
  rides g path lines → last path = Some a → has_label g a b l →
  rides g (path ++ [b]) (lines ++ [l]).
Proof.
  revert lines. induction path as [|x [|y rest] IH]; intros lines Hr Hlast Hlab.
  - done.
  - destruct lines; [|done]. cbn in Hlast. simplify_eq. cbn. done.
  - destruct lines as [|l0 lines]; [done|]. destruct Hr as [H0 Hr].
    change (has_label g x y l0 ∧ rides g ((y :: rest) ++ [b]) (lines ++ [l])).
    split; [done|]. apply IH; done.
Qed.

Lemma rides_length g path lines :
  rides g path lines → length path = S (length lines).
Proof.
  revert lines. induction path as [|x [|y rest] IH]; intros lines Hr.
  - done.
  - by destruct lines.
  - destruct lines as [|l0 lines]; [done|]. destruct Hr as [_ Hr].
    cbn [length]. f_equal. by apply IH.
Qed.

Lemma lines_for_edges_drop (l : list string) n :
  n = length l →
  (λ i, default EmptyString (l !! (i + 1))) <$> seq 0 (n - 1) = drop 1 l.
Proof.
  intros ->. apply list_eq. intros i.
  rewrite list_lookup_fmap, lookup_drop.
  destruct (decide (i < length l - 1)) as [Hlt|Hge].
  - rewrite lookup_seq_lt by done. cbn.
    destruct (lookup_lt_is_Some_2 l (i + 1)) as [x Hx]; [lia|].
    rewrite Hx. cbn. by rewrite Nat.add_comm in Hx.
  - rewrite lookup_seq_ge by lia. cbn. symmetry. apply lookup_ge_None. lia.
Qed.

Lemma walk_back_spec g src e :
  entry_ok g src e →
  length (walk_back e).1 = length (walk_back e).2 ∧
  head (walk_back e).1 = Some (e_station e) ∧
  last (walk_back e).1 = Some src ∧
  rides g (reverse (walk_back e).1) (drop 1 (reverse (walk_back e).2)).
Proof.
  induction e as [sw st s l|sw st s l p IH] using entry_chain_ind.
  - cbn. intros ->. done.
  - cbn [entry_ok e_parent e_station e_line]. intros [Hp Hlab].
    destruct (IH Hp) as (Hlen&Hhd&Hlast&Hr).
    cbn [walk_back e_parent e_station e_line fst snd].
    split_and!.
    + cbn. by f_equal.
    + done.
    + destruct (walk_back p).1; [done|]. done.
    + rewrite !reverse_cons.
      assert (drop 1 (reverse (walk_back p).2 ++ [l])
              = drop 1 (reverse (walk_back p).2) ++ [l]) as ->.
      { destruct (reverse (walk_back p).2) eqn:Hrev; [|done].
        apply (f_equal length) in Hrev. rewrite length_reverse, <-Hlen in Hrev.
        destruct (walk_back p).1; done. }
      apply (rides_snoc _ _ _ (e_station p)); [done| |done].
      by rewrite last_reverse.
Qed.

Lemma reconstruct_valid g src e :
  entry_ok g src e →
  valid_route g src (e_station e) (f_path (reconstruct e)) (f_lines (reconstruct e)) ∧
  f_switches (reconstruct e) = e_switches e ∧
  f_stations (reconstruct e) = e_stations e.
Proof.
  intros Hok. destruct (walk_back_spec g src e Hok) as (Hlen&Hhd&Hlast&Hr).
  unfold reconstruct. cbn [f_path f_lines f_switches f_stations].
  rewrite lines_for_edges_drop by (by rewrite !length_reverse).
  split; [|done]. unfold valid_route. split_and!.
  - by rewrite head_reverse.
  - by rewrite last_reverse.
  - done.
Qed.

Section WithIteration.
Variable it : iteration.
Variables (g0 : gmap string (gmap string (gset string))) (src dest : string).

Lemma walks_inv_step s s' :
  walks_inv g0 src s → step it dest s = Continue s' → walks_inv g0 src s'.
Proof.
  intros [Hg Hpq] Hst. pose proof (step_cases it dest s) as Hc.
  rewrite Hst in Hc. destruct Hc as (e&rest&Hperm&[[_ ->]|(_&_&Hg'&Hrel)]).
  - split; [done|]. cbn. intros e' He'. apply Hpq. rewrite Hperm. set_solver.
  - split.
    { intros a b. by rewrite Hg', edge_touch. }
    assert (entry_ok g0 src e) as He by (apply Hpq; rewrite Hperm; set_solver).
    revert Hrel.
    apply (relax_all_ind it (λ st, ∀ e', e' ∈ st.2 → entry_ok g0 src e')).
    + intros st [nbr L] st' Hitem Hst0 Hrun.
      apply relax_Returned in Hrun as (el&Hel&[[_ ->]|[_ ->]]); [|done].
      cbn [fst snd] in *. intros e' [->|?]%elem_of_cons; [|by apply Hst0].
      cbn [entry_ok successor e_parent e_station e_line]. split; [done|].
      exists L. split; [|done].
      apply elem_of_dict_items in Hitem.
      rewrite Hg' in Hitem. apply touch_items in Hitem. by rewrite <-Hg.
    + cbn. intros e' He'. apply Hpq. rewrite Hperm. set_solver.
Qed.

Lemma walks_inv_seed (Ls : gset string) :
  walks_inv g0 src (LoopState g0 (seed it src Ls).1 (seed it src Ls).2).
Proof.
  split; [done|]. cbn. intros e (l&_&->)%elem_of_seed_pq. done.
Qed.

End WithIteration.

(** C10: a returned route starts at the source, ends at the destination,
    has one line per hop, and every hop is an edge of the graph whose label
    set holds the line returned for it. *)
Theorem returned_route_is_walk (it : iteration) (fuel : nat)
    (g : gmap string (gmap string (gset string)))
    (sl : gmap string (gset string)) (src dest : string)
    (r : found) (g' : gmap string (gmap string (gset string))) :
  find_min_switch_path it fuel g sl src dest = Some (Returned (Some r), g') →
  valid_route g src dest (f_path r) (f_lines r) ∧
  length (f_path r) = S (length (f_lines r)).
Proof.
  unfold find_min_switch_path.
  destruct (sl !! src) as [Ls|]; [|done]. destruct (sl !! dest); [|done].
  destruct (search_loop _ _ _ _) as [[[[e|]|] g1]|] eqn:Hrun; try done.
  intros [= <- <-].
  apply (search_loop_ind it (walks_inv g src) dest (walks_inv_step it g src dest))
    in Hrun as (s_end&[_ Hpq]&Hend); [|apply walks_inv_seed].
  pose proof (step_cases it dest s_end) as Hc.
  destruct (step it dest s_end) as [|b gb|]; [done| |done].
  simplify_eq. destruct Hc as (rest&Hperm&_&<-&_).
  assert (entry_ok g src e) as He by (apply Hpq; rewrite Hperm; set_solver).
  destruct (reconstruct_valid g src e He) as (Hv&_).
  split; [done|]. destruct Hv as (_&_&Hr). by apply rides_length in Hr.
Qed.

Lemma returned_route_is_walk_witness :
  let b := build_graph_and_station_lines
             [("L0", ["X"; "A"]); ("L1", ["A"; "B"]); ("L2", ["A"; "B"; "C"])] in
  valid_route (graph b) "X" "C" ["X"; "A"; "B"; "C"] ["L0"; "L1"; "L2"] ∧
  length ["X"; "A"; "B"; "C"] = S (length ["L0"; "L1"; "L2"]).
Proof.
  cbn zeta.
  apply (returned_route_is_walk canonical_iteration 10 _
           (station_lines (build_graph_and_station_lines
             [("L0", ["X"; "A"]); ("L1", ["A"; "B"]); ("L2", ["A"; "B"; "C"])]))
           "X" "C" (Found ["X"; "A"; "B"; "C"] 2 3 ["L0"; "L1"; "L2"])
           (graph (build_graph_and_station_lines
             [("L0", ["X"; "A"]); ("L1", ["A"; "B"]); ("L2", ["A"; "B"; "C"])]))).
  vm_compute. reflexivity.
Defined.

(** * The search terminates *)

Lemma lex_lt_length l l' : lex_lt l l' → length l = length l'.
Proof. induction 1; cbn; congruence. Qed.

Lemma lex_lt_acc n : ∀ l, length l = n → Acc lex_lt l.
Proof.
  induction n as [|n IHn]; intros l Hl.
  - destruct l; [|done]. constructor. intros y Hy. inversion Hy.
  - destruct l as [|x t]; [done|]. injection Hl as Hl.
    revert t Hl. induction x as [x IHx] using lt_wf_ind. intros t Hl.
    pose proof (IHn t Hl) as Hacc. induction Hacc as [t _ IHt].
    constructor. intros y Hy. inversion Hy as [x' ? l1 ? Hlt Hlen|? l1 ? Hlt]; subst.
    + apply IHx; [done|congruence].
    + apply IHt; [done|]. apply lex_lt_length in Hlt. congruence.
Qed.

Lemma lex_lt_wf : well_founded lex_lt.
Proof. intros l. by apply (lex_lt_acc (length l)). Qed.

Lemma lex_lt_trans l1 l2 l3 : lex_lt l1 l2 → lex_lt l2 l3 → lex_lt l1 l3.
Proof.
  intros H12. revert l3. induction H12 as [x y l l' Hxy Hlen|x l l' H IH];
    intros l3 H23; inversion H23 as [? z ? l3' Hyz Hlen3|? ? l3' H3]; subst.
  - constructor; [lia|congruence].
  - constructor; [done|]. apply lex_lt_length in H3. congruence.
  - constructor; [done|]. apply lex_lt_length in H. congruence.
  - apply lex_lt_tail. by apply IH.
Qed.

Lemma lex_lt_app_l p l l' : lex_lt l l' → lex_lt (p ++ l) (p ++ l').
Proof. intros H. induction p; [done|]. by apply lex_lt_tail. Qed.

Lemma lex_lt_app_r l l' t t' :
  lex_lt l l' → length t = length t' → lex_lt (l ++ t) (l' ++ t').
Proof.
  intros H Ht. induction H as [x y l l' Hxy Hlen|x l l' H IH]; cbn.
  - constructor; [done|]. rewrite !length_app. congruence.
  - by apply lex_lt_tail.
Qed.

Lemma key_measure_length o : length (key_measure o) = 3.
Proof. by destruct o. Qed.

Lemma visited_measure_length U v : length (visited_measure U v) = 3 * length U.
Proof.
  unfold visited_measure. induction U as [|k U IH]; [done|].
  rewrite bind_cons, length_app, key_measure_length, IH. cbn [length]. lia.
Qed.

Lemma key_measure_improves v n :
  improves v n = true →
  lex_lt (key_measure (Some (e_cost n))) (key_measure (v !! e_key n)).
Proof.
  unfold improves. destruct (v !! e_key n) as [best|]; cbn.
  - intros [H|[H1 H2]]%cost_ltb_spec; cbn in *; apply lex_lt_tail.
    + by apply lex_lt_head.
    + rewrite H1. apply lex_lt_tail. by apply lex_lt_head.
  - intros _. apply lex_lt_head; [lia|done].
Qed.

Lemma visited_lt_insert U v k c :
  k ∈ U → lex_lt (key_measure (Some c)) (key_measure (v !! k)) →
  visited_lt U (<[k := c]> v) v.
Proof.
  intros Hk Hlt. unfold visited_lt, visited_measure.
  induction U as [|u U IH]; intros t t' Ht; [by apply not_elem_of_nil in Hk|].
  rewrite !bind_cons, <-!app_assoc.
  destruct (decide (u = k)) as [->|Hne].
  - rewrite lookup_insert_eq. apply lex_lt_app_r; [done|].
    rewrite !length_app. fold (visited_measure U (<[k:=c]> v)).
    fold (visited_measure U v). rewrite !visited_measure_length. lia.
  - rewrite lookup_insert_ne by done. apply lex_lt_app_l, IH; [set_solver|done].
Qed.

Lemma visited_lt_trans U v1 v2 v3 :
  visited_lt U v1 v2 → visited_lt U v2 v3 → visited_lt U v1 v3.
Proof.
  intros H12 H23 t t' Ht.
  eapply lex_lt_trans; [by apply (H12 t t')|by apply (H23 t' t')].
Qed.

Lemma elem_of_label_keys g a b l : has_label g a b l → (b, l) ∈ label_keys g.
Proof.
  intros (L&HL&Hl). unfold edge in HL.
  destruct (g !! a) as [m|] eqn:Ha; [|done]. cbn in HL.
  unfold label_keys. apply list_elem_of_bind. exists (a, m). split.
  - apply list_elem_of_bind. exists (b, L). split.
    + apply list_elem_of_bind. exists l. split; [set_solver|].
      by apply elem_of_elements.
    + by apply elem_of_map_to_list.
  - by apply elem_of_map_to_list.
Qed.

Section WithIteration.
Variable it : iteration.
Variables (g0 : gmap string (gmap string (gset string))) (dest : string).

Lemma edges_kept_step s s' :
  edges_kept g0 s → step it dest s = Continue s' → edges_kept g0 s'.
Proof.
  intros Hg Hst. pose proof (step_cases it dest s) as Hc.
  rewrite Hst in Hc. destruct Hc as (e&rest&Hperm&[[_ ->]|(_&_&Hg'&Hrel)]).
  - done.
  - intros a b. by rewrite Hg', edge_touch.
Qed.

Lemma relax_all_measure e st0 st' (items : list (string * gset string)) :
  (∀ item, item ∈ items → edge g0 (e_station e) item.1 = Some item.2) →
  relax_all it e st0 items = Returned st' →
  st' = st0 ∨ visited_lt (label_keys g0) st'.1 st0.1.
Proof.
  intros Hitems.
  apply (relax_all_ind it
           (λ st, st = st0 ∨ visited_lt (label_keys g0) st.1 st0.1)); [|by left].
  intros st [nbr L] st1 Hitem Hst Hrun.
  apply relax_Returned in Hrun as (el&Hel&[[Himp ->]|[_ ->]]); [|done].
  right. cbn [fst snd] in *.
  assert (visited_lt (label_keys g0)
            (<[e_key (successor e nbr el) := e_cost (successor e nbr el)]> st.1)
            st.1) as Hlt.
  { apply visited_lt_insert; [|by apply key_measure_improves].
    apply (elem_of_label_keys g0 (e_station e)). exists L.
    split; [|done]. by apply (Hitems (nbr, L)). }
  destruct Hst as [->|Hst]; [done|]. by eapply visited_lt_trans.
Qed.

Lemma step_measure s s' :
  edges_kept g0 s → step it dest s = Continue s' →
  lex_lt (loop_measure (label_keys g0) s') (loop_measure (label_keys g0) s).
Proof.
  intros Hg Hst. pose proof (step_cases it dest s) as Hc.
  rewrite Hst in Hc. destruct Hc as (e&rest&Hperm&[[_ ->]|(_&_&Hg'&Hrel)]).
  - unfold loop_measure. cbn. apply lex_lt_app_l.
    apply lex_lt_head; [|done]. rewrite Hperm. cbn. lia.
  - apply relax_all_measure in Hrel as [Heq|Hlt].
    + unfold loop_measure. injection Heq as -> ->. apply lex_lt_app_l.
      apply lex_lt_head; [|done]. rewrite Hperm. cbn. lia.
    + by apply Hlt.
    + intros [nbr L] Hitem. apply elem_of_dict_items in Hitem.
      rewrite Hg' in Hitem. apply touch_items in Hitem. by rewrite <-Hg.
Qed.

(** Every run of the loop ends: with enough turns it breaks or raises. *)
Lemma search_loop_terminates s :
  edges_kept g0 s → ∃ fuel r, search_loop it fuel dest s = Some r.
Proof.
  induction s as [s IH] using
    (well_founded_induction
       (wf_inverse_image _ _ _ (loop_measure (label_keys g0)) lex_lt_wf)).
  intros Hg. destruct (step it dest s) as [s'|b g|g] eqn:Hst.
  - destruct (IH s') as (fuel&r&Hrun).
    + by apply step_measure.
    + by eapply edges_kept_step.
    + exists (S fuel), r. cbn [search_loop]. by rewrite Hst.
  - exists 1. eexists. cbn [search_loop]. by rewrite Hst.
  - exists 1. eexists. cbn [search_loop]. by rewrite Hst.
Qed.

End WithIteration.

(** Every call returns or raises: the model never needs more than a finite
    number of turns. *)
Lemma find_min_switch_path_terminates (it : iteration)
    (g : gmap string (gmap string (gset string)))
    (sl : gmap string (gset string)) (src dest : string) :
  ∃ fuel r, find_min_switch_path it fuel g sl src dest = Some r.
Proof.
  unfold find_min_switch_path.
  destruct (sl !! src) as [Ls|]; [|by exists 0; eexists].
  destruct (sl !! dest); [|by exists 0; eexists].
  destruct (search_loop_terminates it g dest
              (LoopState g (seed it src Ls).1 (seed it src Ls).2))
    as (fuel&[[[e|]|] g']&Hrun); [done|..];
    exists fuel; rewrite Hrun; eauto.
Qed.

Lemma find_min_switch_path_mono (it : iteration)
    (g : gmap string (gmap string (gset string)))
    (sl : gmap string (gset string)) (src dest : string) fuel fuel' r :
  find_min_switch_path it fuel g sl src dest = Some r → fuel ≤ fuel' →
  find_min_switch_path it fuel' g sl src dest = Some r.
Proof.
  unfold find_min_switch_path.
  destruct (sl !! src) as [Ls|]; [|done]. destruct (sl !! dest); [|done].
  destruct (search_loop it fuel dest _) as [r1|] eqn:Hrun; [|done].
  intros Hr Hle. by rewrite (search_loop_mono it dest fuel fuel' _ r1).
Qed.

(** * No path is reported exactly when there is none *)

(** What the builder returns meets the data-model invariants the search
    relies on. *)
Lemma labels_nonempty_add_edge a b l g :
  labels_nonempty g → labels_nonempty (add_edge a b l g).
Proof.
  intros Hg x y L. rewrite edge_add_edge. case_decide; [|apply Hg].
  intros [= <-]. set_solver.
Qed.

Lemma labels_nonempty_add_edges l stations g :
  labels_nonempty g → labels_nonempty (add_edges l stations g).
Proof.
  revert g. induction stations as [|a [|b rest] IH]; intros g Hg; try done.
  change (add_edges l (a :: b :: rest) g)
    with (add_edges l (b :: rest) (add_edge b a l (add_edge a b l g))).
  by apply IH, labels_nonempty_add_edge, labels_nonempty_add_edge.
Qed.

Lemma labels_nonempty_build_state items st :
  labels_nonempty st.1 → labels_nonempty (foldl add_line st items).1.
Proof.
  revert st. induction items as [|item items IH]; intros st Hst; [done|].
  cbn [foldl]. apply IH. cbn. by apply labels_nonempty_add_edges.
Qed.

Lemma built_labels_nonempty items :
  labels_nonempty (graph (build_graph_and_station_lines items)).
Proof.
  apply labels_nonempty_build_state. intros a b L. unfold edge. cbn.
  by rewrite lookup_empty.
Qed.

Lemma built_index_nonempty items s Ls :
  station_lines (build_graph_and_station_lines items) !! s = Some Ls → Ls ≠ ∅.
Proof.
  intros Hs HLs.
  assert (s ∈ dom (station_lines (build_graph_and_station_lines items))) as Hdom.
  { apply elem_of_dom. eauto. }
  destruct (station_index_spec items s Ls) as [Hk Hl].
  apply Hk in Hdom as (l&Hl'). cbn zeta in Hl.
  assert (l ∈ Ls) as Hin by (apply (Hl Hs); by right).
  set_solver.
Qed.

Lemma rides_reachable g path lines a b :
  rides g path lines → head path = Some a → last path = Some b →
  reachable g a b.
Proof.
  revert lines a. induction path as [|x [|y rest] IH]; intros lines a Hr Hh Hl.
  - done.
  - cbn in *. simplify_eq. apply rtc_refl.
  - destruct lines as [|l0 lines]; [done|]. destruct Hr as [(L&HL&_) Hr].
    cbn in Hh. simplify_eq. eapply rtc_l; [by eexists|].
    apply (IH lines); [done|done|]. done.
Qed.

Section WithIteration.
Variable it : iteration.
Variables (g0 : gmap string (gmap string (gset string))) (src dest : string).

Lemma relax_all_recorded e st st' (items : list (string * gset string)) k :
  relax_all it e st items = Returned st' →
  is_Some (st.1 !! k) → is_Some (st'.1 !! k).
Proof.
  intros Hrun Hk. revert Hrun.
  apply (relax_all_ind it (λ st0, is_Some (st0.1 !! k))); [|done].
  intros st0 item st1 _ H0 Hrun.
  apply relax_Returned in Hrun as (el&_&[[_ ->]|[_ ->]]); [|done].
  cbn [fst]. rewrite lookup_insert. by case_decide.
Qed.

Lemma relax_all_covers e st st' (items : list (string * gset string)) item :
  relax_all it e st items = Returned st' → item ∈ items →
  ∃ l, is_Some (st'.1 !! (item.1, l)).
Proof.
  revert st. induction items as [|i items IH]; intros st Hrun Hin.
  - by apply not_elem_of_nil in Hin.
  - cbn [relax_all] in Hrun.
    destruct (relax it e st i) as [st1|] eqn:H1; [|done].
    apply elem_of_cons in Hin as [->|Hin]; [|by eapply IH].
    apply relax_Returned in H1 as (el&_&H1). exists el.
    eapply relax_all_recorded; [done|].
    destruct H1 as [[_ ->]|[Himp ->]].
    + cbn [fst]. unfold e_key. cbn. by rewrite lookup_insert_eq.
    + unfold improves, e_key in Himp. cbn in Himp.
      by destruct (st.1 !! (i.1, el)).
Qed.

Lemma closed_mono v v' a :
  (∀ k, is_Some (v !! k) → is_Some (v' !! k)) →
  closed g0 dest v a → closed g0 dest v' a.
Proof.
  intros Hmono [Hne Hc]. split; [done|]. intros b L HL.
  destruct (Hc b L HL) as (l&?). exists l. by apply Hmono.
Qed.

Lemma relax_all_frontier e st st' (items : list (string * gset string)) :
  (∀ k, is_Some (st.1 !! k) →
        pending st.1 st.2 k ∨ closed g0 dest st.1 k.1 ∨ k.1 = e_station e) →
  relax_all it e st items = Returned st' →
  ∀ k, is_Some (st'.1 !! k) →
       pending st'.1 st'.2 k ∨ closed g0 dest st'.1 k.1 ∨ k.1 = e_station e.
Proof.
  intros Hst Hrun. revert Hrun.
  apply (relax_all_ind it
    (λ st0, ∀ k, is_Some (st0.1 !! k) →
       pending st0.1 st0.2 k ∨ closed g0 dest st0.1 k.1 ∨ k.1 = e_station e));
    [|done].
  clear st st' Hst. intros st [nbr L] st' _ Hst Hrun.
  apply relax_Returned in Hrun as (el&_&[[_ ->]|[_ ->]]); [|done].
  cbn [fst snd]. set (n := successor e nbr el). intros k Hk.
  destruct (decide (k = e_key n)) as [->|Hne].
  - left. exists n. split_and!; [set_solver|done|].
    unfold stale. rewrite lookup_insert_eq. apply cost_ltb_irrefl.
  - rewrite lookup_insert_ne in Hk by done.
    destruct (Hst k Hk) as [(e'&He'&Hkey&Hstale)|[Hc|?]].
    + left. exists e'. split_and!; [set_solver|done|].
      unfold stale in *. rewrite lookup_insert_ne by congruence. done.
    + right. left. eapply closed_mono; [|done].
      intros k' Hk'. rewrite lookup_insert. by case_decide.
    + by right; right.
Qed.

Lemma frontier_inv_step s s' :
  frontier_inv g0 src dest s → step it dest s = Continue s' →
  frontier_inv g0 src dest s'.
Proof.
  intros (Hg&Hne&Hsrc&Hfr) Hst.
  pose proof (edges_kept_step it g0 dest s s' Hg Hst) as Hg1.
  pose proof (step_cases it dest s) as Hc.
  rewrite Hst in Hc. destruct Hc as (e&rest&Hperm&[[Hstale ->]|(_&Hdest&Hg'&Hrel)]).
  - split_and!; [done..|]. cbn. intros k Hk.
    destruct (Hfr k Hk) as [(e'&He'&Hkey&Hst')|?]; [|by right].
    left. exists e'. split_and!; [|done..].
    rewrite Hperm in He'. apply elem_of_cons in He' as [->|?]; [congruence|done].
  - split_and!; [done..| |].
    + destruct Hsrc as (l&Hl). exists l.
      by apply (relax_all_recorded _ _ _ _ _ Hrel).
    + intros k Hk.
      assert (closed g0 dest (ls_visited s') (e_station e)) as Hclosed.
      { split; [done|]. intros b L HL.
        apply (relax_all_covers _ _ _ _ (b, L) Hrel).
        apply elem_of_dict_items. rewrite Hg'. apply touch_items.
        by rewrite Hg. }
      assert (∀ k0, is_Some ((ls_visited s, rest).1 !! k0) →
                pending (ls_visited s, rest).1 (ls_visited s, rest).2 k0 ∨
                closed g0 dest (ls_visited s, rest).1 k0.1 ∨
                k0.1 = e_station e) as Hstart.
      { cbn. intros k0 Hk0.
        destruct (Hfr k0 Hk0) as [(e'&He'&Hkey&Hst')|?]; [|by right; left].
        rewrite Hperm in He'. apply elem_of_cons in He' as [->|?].
        - right; right. by rewrite <-Hkey.
        - left. by exists e'. }
      destruct (relax_all_frontier e _ _ _ Hstart Hrel k Hk) as [?|[?|Heq]];
        [by left|by right|].
      right. by rewrite Heq.
Qed.

Lemma frontier_inv_seed (Ls : gset string) :
  labels_nonempty g0 → Ls ≠ ∅ →
  frontier_inv g0 src dest (LoopState g0 (seed it src Ls).1 (seed it src Ls).2).
Proof.
  intros Hne HLs. split_and!; [done|done| |]; cbn.
  - apply set_choose_L in HLs as [l Hl]. exists l.
    rewrite seed_visited, decide_True by done. eauto.
  - intros [s l]. rewrite seed_visited. case_decide as Hd; [|by intros [? [=]]].
    intros _. cbn in Hd. destruct Hd as [-> Hl]. left.
    exists (Entry 0 0 src l None). split_and!; [|done|].
    + apply elem_of_seed_pq. eauto.
    + unfold stale, e_key. cbn. rewrite seed_visited, decide_True by done. done.
Qed.

(** When the loop ends with an empty heap, nothing recorded leads to the
    destination. *)
Lemma frontier_inv_exhausted s :
  frontier_inv g0 src dest s → ls_pq s = [] → ¬ reachable g0 src dest.
Proof.
  intros (_&_&Hsrc&Hfr) Hpq Hreach.
  assert (∀ a, (∃ l, is_Some (ls_visited s !! (a, l))) →
               closed g0 dest (ls_visited s) a) as Hclosed.
  { intros a (l&Hl). destruct (Hfr _ Hl) as [(e&He&_)|?]; [|done].
    rewrite Hpq in He. by apply not_elem_of_nil in He. }
  assert (∃ l, is_Some (ls_visited s !! (dest, l))) as Hd.
  { clear Hfr. unfold reachable in Hreach.
    induction Hreach as [a|a b c [L HL] _ IH]; [done|].
    apply IH; [|done]. destruct (Hclosed a Hsrc) as [_ Hc]. by apply (Hc b L). }
  by destruct (Hclosed dest Hd).
Qed.

Lemma frontier_inv_no_raise s :
  frontier_inv g0 src dest s →
  match step it dest s with Raise _ => False | _ => True end.
Proof.
  intros (Hg&Hne&_). pose proof (step_cases it dest s) as Hc.
  destruct (step it dest s) as [| |g]; [done..|].
  destruct Hc as (e&rest&_&_&_&->&Hrel).
  apply relax_all_Raised in Hrel as ([b L]&Hitem&HL). cbn in HL. subst L.
  apply elem_of_dict_items, touch_items in Hitem. rewrite Hg in Hitem.
  by apply Hne in Hitem.
Qed.

End WithIteration.

Lemma find_min_switch_path_outcome (it : iteration) (fuel : nat)
    (g : gmap string (gmap string (gset string)))
    (sl : gmap string (gset string)) (src dest : string) (Ls : gset string)
    o g' :
  labels_nonempty g → sl !! src = Some Ls → Ls ≠ ∅ → is_Some (sl !! dest) →
  find_min_switch_path it fuel g sl src dest = Some (o, g') →
  match o with
  | Returned None => ¬ reachable g src dest
  | Returned (Some r) => reachable g src dest
  | Raised_ValueError => False
  end.
Proof.
  intros Hne Hsrc HLs [Ld Hdest]. unfold find_min_switch_path.
  rewrite Hsrc, Hdest.
  destruct (search_loop _ _ _ _) as [[o1 g1]|] eqn:Hrun; [|done].
  apply (search_loop_ind it
           (λ s, walks_inv g src s ∧ frontier_inv g src dest s) dest)
    in Hrun as (s_end&[[_ Hpq] Hfr]&Hend).
  - pose proof (step_cases it dest s_end) as Hc.
    pose proof (frontier_inv_no_raise it g src dest s_end Hfr) as Hnr.
    destruct (step it dest s_end) as [|[e|] gb|]; [done| | |done].
    + simplify_eq. intros [= <- <-].
      destruct Hc as (rest&Hperm&_&<-&_).
      assert (entry_ok g src e) as He by (apply Hpq; rewrite Hperm; set_solver).
      destruct (reconstruct_valid g src e He) as ((Hh&Hl&Hr)&_).
      by eapply rides_reachable.
    + simplify_eq. intros [= <- <-]. destruct Hc as [Hnil _].
      by eapply frontier_inv_exhausted.
  - intros s s' [Hw Hf] Hst. split.
    + by eapply walks_inv_step.
    + by eapply frontier_inv_step.
  - split; [apply walks_inv_seed|by apply frontier_inv_seed].
Qed.

Lemma outcome_iff_reachable (it : iteration)
    (g : gmap string (gmap string (gset string)))
    (sl : gmap string (gset string)) (src dest : string) (Ls : gset string) :
  labels_nonempty g → sl !! src = Some Ls → Ls ≠ ∅ → is_Some (sl !! dest) →
  ((∃ fuel g', find_min_switch_path it fuel g sl src dest
                 = Some (Returned None, g')) ↔ ¬ reachable g src dest) ∧
  ((∃ fuel r g', find_min_switch_path it fuel g sl src dest
                   = Some (Returned (Some r), g')) ↔ reachable g src dest).
Proof.
  intros Hne Hsrc HLs Hdest.
  destruct (find_min_switch_path_terminates it g sl src dest)
    as (fuel0&[o0 g0]&Hrun0).
  pose proof (find_min_switch_path_outcome it fuel0 g sl src dest Ls o0 g0
                Hne Hsrc HLs Hdest Hrun0) as H0.
  split; split.
  - intros (fuel&g'&Hrun).
    apply (find_min_switch_path_outcome it fuel g sl src dest Ls _ g'
             Hne Hsrc HLs Hdest Hrun).
  - intros Hnr. destruct o0 as [[r|]|]; [done| |done]. eauto.
  - intros (fuel&r&g'&Hrun).
    apply (find_min_switch_path_outcome it fuel g sl src dest Ls _ g'
             Hne Hsrc HLs Hdest Hrun).
  - intros Hr. destruct o0 as [[r|]|]; [|done..]. eauto.
Qed.



(** The same for what the builder returns, where the two conditions on
    the graph and the index always hold. *)
Corollary built_outcome_iff_reachable (it : iteration)
    (items : list (string * list string)) (src dest : string) :
  let b := build_graph_and_station_lines items in
  is_Some (station_lines b !! src) → is_Some (station_lines b !! dest) →
  ((∃ fuel g', find_min_switch_path it fuel (graph b) (station_lines b) src dest
                 = Some (Returned None, g')) ↔ ¬ reachable (graph b) src dest) ∧
  ((∃ fuel r g', find_min_switch_path it fuel (graph b) (station_lines b) src dest
                   = Some (Returned (Some r), g')) ↔ reachable (graph b) src dest).
Proof.
  cbn zeta. intros [Ls Hsrc] Hdest.
  apply (outcome_iff_reachable it _ _ src dest Ls); [|done| |done].
  - apply built_labels_nonempty.
  - by eapply built_index_nonempty.
Qed.

(** * The order of the heap *)

Lemma entry_ltb_spec x y :
  entry_ltb x y = true ↔
  e_switches x < e_switches y ∨
  (e_switches x = e_switches y ∧
   (e_stations x < e_stations y ∨
    (e_stations x = e_stations y ∧
     (String.ltb (e_station x) (e_station y) = true ∨
      (e_station x = e_station y ∧
       String.ltb (e_line x) (e_line y) = true))))).
Proof.
  unfold entry_ltb.
  destruct (Nat.compare_spec (e_switches x) (e_switches y)) as [H1|H1|H1];
    [|split; [by left|done]|split; [done|lia]].
  destruct (Nat.compare_spec (e_stations x) (e_stations y)) as [H2|H2|H2];
    [|split; [by right; split; [|left]|done]|split; [done|lia]].
  destruct (String.compare (e_station x) (e_station y)) eqn:H3.
  - apply str_compare_Eq in H3. split.
    + intros H. right. split; [done|]. right. split; [done|]. right. done.
    + intros [?|[_ [?|[_ [H|[_ H]]]]]]; try lia; [|done].
      rewrite H3, str_ltb_irrefl in H. done.
  - assert (String.ltb (e_station x) (e_station y) = true) as Hlt.
    { unfold String.ltb. by rewrite H3. }
    split; [|done]. intros _. right. split; [done|]. right. split; [done|].
    by left.
  - split; [done|]. apply str_compare_Gt in H3.
    intros [?|[_ [?|[_ [H|[H _]]]]]]; try lia.
    + pose proof (str_ltb_trans _ _ _ H H3) as Hxx.
      by rewrite str_ltb_irrefl in Hxx.
    + rewrite H, str_ltb_irrefl in H3. done.
Qed.

Lemma entry_ltb_irrefl x : entry_ltb x x = false.
Proof.
  apply not_true_is_false. rewrite entry_ltb_spec.
  rewrite !str_ltb_irrefl. intros [?|[_ [?|[_ [?|[_ ?]]]]]]; (lia || done).
Qed.

Lemma entry_ltb_trans x y z :
  entry_ltb x y = true → entry_ltb y z = true → entry_ltb x z = true.
Proof.
  rewrite !entry_ltb_spec.
  intros [?|[E1 [?|[E2 [H3|[E3 H4]]]]]] [?|[F1 [?|[F2 [G3|[F3 G4]]]]]];
    try (left; lia); right; (split; [lia|]);
    try (left; lia); right; (split; [lia|]).
  - left. by eapply str_ltb_trans.
  - left. by rewrite <-F3.
  - left. by rewrite E3.
  - right. split; [congruence|]. by eapply str_ltb_trans.
Qed.

Lemma entry_ltb_total x y :
  entry_ltb x y = false → entry_ltb y x = false → e_key4 x = e_key4 y.
Proof.
  intros H1%not_true_iff_false H2%not_true_iff_false.
  rewrite entry_ltb_spec in H1, H2. unfold e_key4.
  assert (e_switches x = e_switches y) as E1 by lia.
  assert (e_stations x = e_stations y) as E2 by lia.
  assert (e_station x = e_station y) as E3.
  { apply str_ltb_total; apply not_true_is_false; intros H.
    - apply H1. right. split; [done|]. right. split; [done|]. by left.
    - apply H2. right. split; [done|]. right. split; [done|]. by left. }
  assert (e_line x = e_line y) as E4.
  { apply str_ltb_total; apply not_true_is_false; intros H.
    - apply H1. right. split; [done|]. right. split; [done|]. by right.
    - apply H2. right. split; [done|]. right. split; [done|]. by right. }
  congruence.
Qed.

Lemma extract_min_least m l :
  ((extract_min m l).1 = m ∨ entry_ltb (extract_min m l).1 m = true) ∧
  ∀ x, x ∈ l → entry_ltb x (extract_min m l).1 = false.
Proof.
  revert m. induction l as [|y l IH]; intros m.
  - split; [by left|]. by intros x ?%not_elem_of_nil.
  - cbn [extract_min]. destruct (entry_ltb y m) eqn:Hym; cbn [fst].
    + destruct (IH y) as [Hr Hmin]. split.
      * right. destruct Hr as [->|Hr]; [done|]. by eapply entry_ltb_trans.
      * intros x [->|Hx]%elem_of_cons; [|by apply Hmin].
        destruct Hr as [->|Hr]; [apply entry_ltb_irrefl|].
        apply not_true_is_false. intros Hy.
        pose proof (entry_ltb_trans _ _ _ Hy Hr) as Hyy.
        by rewrite entry_ltb_irrefl in Hyy.
    + destruct (IH m) as [Hr Hmin]. split; [done|].
      intros x [->|Hx]%elem_of_cons; [|by apply Hmin].
      destruct Hr as [->|Hr]; [done|].
      apply not_true_is_false. intros Hy.
      pose proof (entry_ltb_trans _ _ _ Hy Hr). congruence.
Qed.

Lemma heappop_least pq e rest x :
  heappop pq = Some (e, rest) → x ∈ pq → entry_ltb x e = false.
Proof.
  destruct pq as [|m l]; [done|]. intros [= H] Hx.
  destruct (extract_min_least m l) as [Hr Hmin]. rewrite H in Hr, Hmin.
  cbn [fst] in *. apply elem_of_cons in Hx as [->|Hx]; [|by apply Hmin].
  destruct Hr as [->|Hr]; [apply entry_ltb_irrefl|].
  apply not_true_is_false. intros Hy.
  pose proof (entry_ltb_trans _ _ _ Hy Hr) as Hyy.
  by rewrite entry_ltb_irrefl in Hyy.
Qed.

Lemma NoDup_fmap_eq {A B} (f : A → B) (l : list A) x y :
  NoDup (f <$> l) → x ∈ l → y ∈ l → f x = f y → x = y.
Proof.
  induction l as [|a l IH]; intros Hnd Hx Hy Hf; [by apply not_elem_of_nil in Hx|].
  rewrite fmap_cons in Hnd. apply NoDup_cons in Hnd as [Ha Hnd].
  apply elem_of_cons in Hx as [->|Hx]; apply elem_of_cons in Hy as [->|Hy].
  - done.
  - destruct Ha. rewrite Hf. by apply list_elem_of_fmap_2.
  - destruct Ha. rewrite <-Hf. by apply list_elem_of_fmap_2.
  - by apply IH.
Qed.

(** With pairwise distinct keys the heap gives up the same entry however
    its array is arranged. *)
Lemma heappop_perm_unique pq1 pq2 :
  pq1 ≡ₚ pq2 → NoDup (e_key4 <$> pq1) →
  match heappop pq1, heappop pq2 with
  | Some (e1, r1), Some (e2, r2) => e1 = e2 ∧ r1 ≡ₚ r2
  | None, None => True
  | _, _ => False
  end.
Proof.
  intros Hperm Hnd.
  destruct (heappop pq1) as [[e1 r1]|] eqn:H1, (heappop pq2) as [[e2 r2]|] eqn:H2.
  - pose proof (heappop_perm _ _ _ H1) as P1.
    pose proof (heappop_perm _ _ _ H2) as P2.
    assert (e1 ∈ pq1) as He1 by (rewrite P1; set_solver).
    assert (e2 ∈ pq1) as He2 by (rewrite Hperm, P2; set_solver).
    assert (e1 = e2) as ->.
    { apply (NoDup_fmap_eq e_key4 pq1); [done..|].
      apply entry_ltb_total.
      - eapply heappop_least; [exact H2|]. by rewrite <-Hperm.
      - eapply heappop_least; [exact H1|done]. }
    split; [done|]. apply (Permutation_cons_inv (a := e2)).
    by rewrite <-P1, <-P2.
  - apply heappop_None in H2. subst pq2. apply heappop_perm in H1.
    rewrite H1 in Hperm. by apply Permutation_nil_r in Hperm.
  - apply heappop_None in H1. subst pq1. apply heappop_perm in H2.
    rewrite H2 in Hperm. by apply Permutation_nil_l in Hperm.
  - done.
Qed.

(** * The result does not depend on the order of iteration *)

Lemma set_min_iteration (it1 it2 : iteration) (L : gset string) :
  set_min it1 L = set_min it2 L.
Proof.
  pose proof (set_min_spec it1 L) as H1. pose proof (set_min_spec it2 L) as H2.
  destruct (set_min it1 L) as [m1|], (set_min it2 L) as [m2|]; try done.
  - destruct H1 as [Hin1 Hmin1], H2 as [Hin2 Hmin2].
    f_equal. apply str_ltb_total; auto.
  - destruct H1 as [Hin1 _]. set_solver.
  - destruct H2 as [Hin2 _]. set_solver.
Qed.

Lemma relax_iteration (it1 it2 : iteration) e st item :
  relax it1 e st item = relax it2 e st item.
Proof. unfold relax, edge_line. by rewrite (set_min_iteration it1 it2). Qed.

Lemma relax_all_iteration (it1 it2 : iteration) e st items :
  relax_all it1 e st items = relax_all it2 e st items.
Proof.
  revert st. induction items as [|item items IH]; intros st; [done|].
  cbn [relax_all]. rewrite (relax_iteration it1 it2).
  destruct (relax it2 e st item); [apply IH|done].
Qed.

Global Instance same_heap_equiv : Equivalence same_heap.
Proof.
  unfold same_heap. split.
  - by intros [v pq].
  - intros [v1 pq1] [v2 pq2] [H1 H2]; cbn in *. by rewrite H1, H2.
  - intros [v1 pq1] [v2 pq2] [v3 pq3] [H1 H2] [H3 H4]; cbn in *.
    split; [congruence|by rewrite H2].
Qed.

Global Instance same_outcome_equiv : Equivalence same_outcome.
Proof.
  split.
  - by intros [st|].
  - intros [st1|] [st2|]; cbn; done.
  - intros [st1|] [st2|] [st3|]; cbn; try done. intros ??. by etrans.
Qed.

Section WithIteration.
Variable it : iteration.

Lemma relax_same_heap e st1 st2 item :
  same_heap st1 st2 →
  same_outcome (relax it e st1 item) (relax it e st2 item).
Proof.
  intros [Hv Hpq]. unfold relax.
  destruct (edge_line it (e_line e) item.2) as [el|]; [|done].
  cbn zeta. rewrite Hv. destruct (improves st2.1 _); cbn; [|done].
  split; [done|]. cbn. unfold heappush. by rewrite Hpq.
Qed.

Lemma relax_all_same_heap e st1 st2 items :
  same_heap st1 st2 →
  same_outcome (relax_all it e st1 items) (relax_all it e st2 items).
Proof.
  revert st1 st2. induction items as [|item items IH]; intros st1 st2 Hst; [done|].
  cbn [relax_all]. pose proof (relax_same_heap e st1 st2 item Hst) as H.
  destruct (relax it e st1 item), (relax it e st2 item); try done. by apply IH.
Qed.

Lemma improves_insert_ne v k c n :
  k ≠ e_key n → improves (<[k := c]> v) n = improves v n.
Proof. intros Hne. unfold improves. by rewrite lookup_insert_ne. Qed.

(** Two neighbours can be relaxed in either order. *)
Lemma relax_swap e st1 st2 (x y : string * gset string) :
  x.1 ≠ y.1 → same_heap st1 st2 →
  same_outcome (relax_all it e st1 [y; x]) (relax_all it e st2 [x; y]).
Proof.
  intros Hxy [Hv Hpq]. destruct st1 as [v pq1], st2 as [v2 pq2].
  cbn in Hv, Hpq. subst v2. cbn [relax_all]. unfold relax. cbn [fst snd].
  destruct (edge_line it (e_line e) y.2) as [ely|],
           (edge_line it (e_line e) x.2) as [elx|]; cbn zeta.
  - set (ny := successor e y.1 ely). set (nx := successor e x.1 elx).
    assert (e_key ny ≠ e_key nx) as Hk by (unfold e_key; cbn; congruence).
    destruct (improves v ny) eqn:Hy, (improves v nx) eqn:Hx; cbn [fst snd];
      rewrite ?improves_insert_ne by done; rewrite ?Hx, ?Hy; cbn [fst snd];
      unfold heappush.
    + split; cbn; [by apply insert_insert_ne|].
      rewrite Hpq. apply Permutation_swap.
    + split; cbn; [done|]. by rewrite Hpq.
    + split; cbn; [done|]. by rewrite Hpq.
    + split; cbn; [done|]. by rewrite Hpq.
  - by destruct (improves v _).
  - by destruct (improves v _).
  - done.
Qed.

Lemma relax_all_app e st items1 items2 :
  relax_all it e st (items1 ++ items2) =
    match relax_all it e st items1 with
    | Returned st' => relax_all it e st' items2
    | Raised_ValueError => Raised_ValueError
    end.
Proof.
  revert st. induction items1 as [|item items1 IH]; intros st; [done|].
  cbn [app relax_all]. destruct (relax it e st item); [apply IH|done].
Qed.

(** The [for] loop over the neighbours gives the same [visited] and the
    same heap contents in whatever order the dictionary is walked. *)
Lemma relax_all_perm e items1 items2 :
  items1 ≡ₚ items2 → NoDup items1.*1 →
  ∀ st1 st2, same_heap st1 st2 →
  same_outcome (relax_all it e st1 items1) (relax_all it e st2 items2).
Proof.
  induction 1 as [|x l l' Hl IH|x y l|l l' l'' H1 IH1 H2 IH2];
    intros Hnd st1 st2 Hst.
  - done.
  - cbn [relax_all]. pose proof (relax_same_heap e st1 st2 x Hst) as H.
    rewrite fmap_cons in Hnd. apply NoDup_cons in Hnd as [_ Hnd].
    destruct (relax it e st1 x), (relax it e st2 x); try done. by apply IH.
  - change (y :: x :: l) with ([y; x] ++ l). change (x :: y :: l) with ([x; y] ++ l).
    rewrite !relax_all_app.
    rewrite !fmap_cons in Hnd. apply NoDup_cons in Hnd as [Hy _].
    assert (x.1 ≠ y.1) as Hxy by set_solver.
    pose proof (relax_swap e st1 st2 x y Hxy Hst) as H.
    destruct (relax_all it e st1 [y; x]), (relax_all it e st2 [x; y]); try done.
    by apply relax_all_same_heap.
  - etrans; [by apply (IH1 Hnd st1 st1)|].
    apply IH2; [|done]. by rewrite <-H1.
Qed.

End WithIteration.

(** * The heap never holds two entries with the same key *)

Lemma cost_ltb_false_trans c1 c2 c3 :
  cost_ltb c1 c2 = false → cost_ltb c3 c2 = true → cost_ltb c1 c3 = false.
Proof.
  intros H1%not_true_iff_false H2. apply not_true_iff_false.
  rewrite cost_ltb_spec in *. lia.
Qed.

Lemma heap_inv_perm v pq pq' : heap_inv v pq → pq ≡ₚ pq' → heap_inv v pq'.
Proof.
  intros [Hnd Hrec] Hperm. split.
  - by rewrite <-Hperm.
  - intros e He. apply Hrec. by rewrite Hperm.
Qed.

Lemma heap_inv_tail v e pq : heap_inv v (e :: pq) → heap_inv v pq.
Proof.
  intros [Hnd Hrec]. rewrite fmap_cons in Hnd. apply NoDup_cons in Hnd as [_ Hnd].
  split; [done|]. intros e' He'. apply Hrec. set_solver.
Qed.

Section WithIteration.
Variable it : iteration.

Lemma heap_inv_relax e st item st' :
  heap_inv st.1 st.2 → relax it e st item = Returned st' →
  heap_inv st'.1 st'.2.
Proof.
  intros [Hnd Hrec] Hrun.
  apply relax_Returned in Hrun as (el&_&[[Himp ->]|[_ ->]]); [|done].
  cbn [fst snd]. set (n := successor e item.1 el) in *.
  assert (e_stations n ≠ 0) as Hn by (cbn; lia).
  split.
  - rewrite fmap_cons. apply NoDup_cons. split; [|done].
    intros (e'&Hk4&He')%list_elem_of_fmap.
    destruct (Hrec e' He') as (c&Hc&Hle).
    assert (e_key e' = e_key n) as Hkey by (unfold e_key4, e_key in *; congruence).
    assert (e_cost e' = e_cost n) as Hcost by (unfold e_key4, e_cost in *; congruence).
    unfold improves in Himp. rewrite <-Hkey, Hc, <-Hcost in Himp.
    destruct Hle as [Hle|[Hz _]]; [congruence|].
    unfold e_key4 in Hk4. congruence.
  - intros e' [->|He']%elem_of_cons.
    + exists (e_cost n). rewrite lookup_insert_eq. split; [done|].
      left. apply cost_ltb_irrefl.
    + destruct (Hrec e' He') as (c&Hc&Hle).
      destruct (decide (e_key e' = e_key n)) as [Hkey|Hne].
      * exists (e_cost n). rewrite Hkey, lookup_insert_eq. split; [done|].
        unfold improves in Himp. rewrite <-Hkey, Hc in Himp.
        destruct Hle as [Hle|[_ ->]].
        -- left. by eapply cost_ltb_false_trans.
        -- apply cost_ltb_spec in Himp. cbn in Himp. lia.
      * exists c. by rewrite lookup_insert_ne.
Qed.

Lemma heap_inv_step dest s s' :
  heap_inv (ls_visited s) (ls_pq s) → step it dest s = Continue s' →
  heap_inv (ls_visited s') (ls_pq s').
Proof.
  intros Hinv Hst. pose proof (step_cases it dest s) as Hc.
  rewrite Hst in Hc. destruct Hc as (e&rest&Hperm&[[_ ->]|(_&_&_&Hrel)]).
  - cbn. eapply heap_inv_tail, heap_inv_perm; done.
  - revert Hrel.
    apply (relax_all_ind it (λ st, heap_inv st.1 st.2)).
    + intros st item st' _. apply heap_inv_relax.
    + cbn. eapply heap_inv_tail, heap_inv_perm; done.
Qed.

Lemma heap_inv_seed src (Ls : gset string) :
  heap_inv (seed it src Ls).1 (seed it src Ls).2.
Proof.
  split.
  - rewrite seed_pq, <-list_fmap_compose.
    apply NoDup_fmap_2; [|apply set_iter_NoDup].
    intros l1 l2 [=]. done.
  - intros e (l&Hl&->)%elem_of_seed_pq. exists (0, 1). split; [|by right].
    rewrite seed_visited. unfold e_key. cbn. by rewrite decide_True.
Qed.

(** The claim made at [entry_ltb]: at every turn of every run the entries
    of the heap differ pairwise in the first four components. *)
Lemma heap_keys_distinct g src dest (Ls : gset string) s :
  rtc (λ s1 s2, step it dest s1 = Continue s2)
      (LoopState g (seed it src Ls).1 (seed it src Ls).2) s →
  NoDup (e_key4 <$> ls_pq s).
Proof.
  intros Hrun.
  assert (heap_inv (ls_visited s) (ls_pq s)) as [Hnd _]; [|done].
  revert s Hrun. apply rtc_ind_r.
  - apply heap_inv_seed.
  - intros s1 s2 _ Hst IH. by eapply heap_inv_step.
Qed.

End WithIteration.

(** * Two runs under different orders of iteration go in lockstep *)

Lemma step_same_state (it1 it2 : iteration) dest s1 s2 :
  heap_inv (ls_visited s1) (ls_pq s1) → same_state s1 s2 →
  match step it1 dest s1, step it2 dest s2 with
  | Continue s1', Continue s2' => same_state s1' s2'
  | Break b1 g1, Break b2 g2 => b1 = b2 ∧ g1 = g2
  | Raise g1, Raise g2 => g1 = g2
  | _, _ => False
  end.
Proof.
  intros [Hnd _] (Hg&Hv&Hpq). unfold step.
  pose proof (heappop_perm_unique _ _ Hpq Hnd) as Hpop.
  destruct (heappop (ls_pq s1)) as [[e r1]|], (heappop (ls_pq s2)) as [[e2 r2]|];
    try done.
  destruct Hpop as [<- Hr]. rewrite <-Hv, <-Hg.
  destruct (stale (ls_visited s1) e); [done|].
  case_decide; [done|].
  set (g' := touch (e_station e) (ls_graph s1)).
  rewrite (relax_all_iteration it2 it1).
  pose proof (relax_all_perm it1 e
                (dict_items it1 (default ∅ (g' !! e_station e)))
                (dict_items it2 (default ∅ (g' !! e_station e)))) as Hrel.
  specialize (Hrel ltac:(by rewrite !dict_items_perm)
                   (dict_items_NoDup it1 _)
                   (ls_visited s1, r1) (ls_visited s1, r2)
                   ltac:(by split)).
  destruct (relax_all it1 e (ls_visited s1, r1) _) as [[v1 p1]|],
           (relax_all it1 e (ls_visited s1, r2) _) as [[v2 p2]|]; try done.
Qed.

Lemma search_loop_same_state (it1 it2 : iteration) dest fuel s1 s2 :
  heap_inv (ls_visited s1) (ls_pq s1) → same_state s1 s2 →
  search_loop it1 fuel dest s1 = search_loop it2 fuel dest s2.
Proof.
  revert s1 s2. induction fuel as [|fuel IH]; intros s1 s2 Hinv Hsame; [done|].
  cbn [search_loop].
  pose proof (step_same_state it1 it2 dest s1 s2 Hinv Hsame) as Hst.
  pose proof (heap_inv_step it1 dest s1) as Hnext.
  destruct (step it1 dest s1) as [s1'|b1 g1|g1], (step it2 dest s2) as [s2'|b2 g2|g2];
    try done.
  - apply IH; [by apply Hnext|done].
  - by destruct Hst as [-> ->].
  - by rewrite Hst.
Qed.

Lemma find_min_switch_path_iteration (it1 it2 : iteration) (fuel : nat)
    (g : gmap string (gmap string (gset string)))
    (sl : gmap string (gset string)) (src dest : string) :
  find_min_switch_path it1 fuel g sl src dest
    = find_min_switch_path it2 fuel g sl src dest.
Proof.
  unfold find_min_switch_path.
  destruct (sl !! src) as [Ls|]; [|done]. destruct (sl !! dest); [|done].
  rewrite (search_loop_same_state it1 it2 dest fuel _
             (LoopState g (seed it2 src Ls).1 (seed it2 src Ls).2)); [done|..].
  - apply heap_inv_seed.
  - split_and!; cbn; [done| |].
    + apply map_eq. intros k. by rewrite !seed_visited.
    + rewrite !seed_pq. by rewrite !set_iter_perm.
Qed.

(** * Where the code departs from its description *)

(** C1, what the code does: on the lines L0: X-A, L1: A-B, L2: A-B-C the
    query from X to C returns a route with 2 switches, while riding L0 to A
    and then L2 to B and C is a valid route with 1 switch.  When the line
    has to change, only the least label of the edge is tried. *)
Theorem greedy_line_choice_not_minimal (it : iteration) :
  let b := build_graph_and_station_lines
             [("L0", ["X"; "A"]); ("L1", ["A"; "B"]); ("L2", ["A"; "B"; "C"])] in
  fst <$> find_min_switch_path it 10
            (graph b) (station_lines b) "X" "C"
    = Some (Returned (Some (Found ["X"; "A"; "B"; "C"] 2 3 ["L0"; "L1"; "L2"]))) ∧
  valid_route (graph b) "X" "C" ["X"; "A"; "B"; "C"] ["L0"; "L2"; "L2"] ∧
  count_switches ["L0"; "L2"; "L2"] = 1.
Proof.
  cbn zeta. split_and!.
  - rewrite (find_min_switch_path_iteration it canonical_iteration).
    vm_compute. reflexivity.
  - split_and!; [done|done|].
    cbn [rides]. unfold has_label.
    split_and!; try done; eexists; (split; [vm_compute; reflexivity|]); set_solver.
  - reflexivity.
Qed.

(** C8, what the code does: a query from a station that has no edge
    leaves a new key in the graph.  The graph is a [defaultdict] and
    [graph[curr]] inserts the missing station with an empty neighbour
    dictionary. *)
Theorem isolated_source_changes_graph (it : iteration) :
  let b := build_graph_and_station_lines [("L1", ["A"]); ("L2", ["B"; "C"])] in
  is_Some (station_lines b !! "A") ∧ is_Some (station_lines b !! "B") ∧
  graph b !! "A" = None ∧
  ∃ g', find_min_switch_path it 10
          (graph b) (station_lines b) "A" "B" = Some (Returned None, g') ∧
        g' !! "A" = Some ∅ ∧ g' ≠ graph b.
Proof.
  cbn zeta. split_and!.
  - vm_compute. eauto.
  - vm_compute. eauto.
  - vm_compute. reflexivity.
  - rewrite (find_min_switch_path_iteration it canonical_iteration).
    eexists. split_and!.
    + vm_compute. reflexivity.
    + vm_compute. reflexivity.
    + intros H. apply (f_equal (λ m, m !! "A")) in H. vm_compute in H. done.
Qed.

(** * What the call leaves of the graph, and what it counts *)

Lemma grown_from_touch g0 g c : grown_from g0 g → grown_from g0 (touch c g).
Proof.
  intros Hg a. unfold touch. destruct (g !! c) eqn:Hc; [apply Hg|].
  destruct (decide (a = c)) as [->|Hne].
  - rewrite lookup_insert_eq. destruct (Hg c) as [H|[_ H]]; [|congruence].
    right. split; [congruence|done].
  - rewrite lookup_insert_ne by done. apply Hg.
Qed.

Lemma walk_back_length e :
  entry_hops e → length (walk_back e).1 = S (e_stations e).
Proof.
  induction e as [sw st s l|sw st s l p IH] using entry_chain_ind.
  - cbn. by intros ->.
  - cbn [entry_hops e_parent e_stations]. intros [Hp ->].
    cbn [walk_back e_parent fst length]. rewrite (IH Hp). lia.
Qed.

Section WithIteration.
Variable it : iteration.
Variables (g0 : gmap string (gmap string (gset string))) (src dest : string).

Lemma grown_hops_step s s' :
  grown_from g0 (ls_graph s) ∧ (∀ e, e ∈ ls_pq s → entry_hops e) →
  step it dest s = Continue s' →
  grown_from g0 (ls_graph s') ∧ (∀ e, e ∈ ls_pq s' → entry_hops e).
Proof.
  intros [Hg Hpq] Hst. pose proof (step_cases it dest s) as Hc.
  rewrite Hst in Hc. destruct Hc as (e&rest&Hperm&[[_ ->]|(_&_&Hg'&Hrel)]).
  - split; [done|]. cbn. intros e' He'. apply Hpq. rewrite Hperm. set_solver.
  - split; [rewrite Hg'; by apply grown_from_touch|].
    assert (entry_hops e) as He by (apply Hpq; rewrite Hperm; set_solver).
    revert Hrel. apply (relax_all_ind it (λ st, ∀ e', e' ∈ st.2 → entry_hops e')).
    + intros st item st' _ Hst0 Hrun.
      apply relax_Returned in Hrun as (el&_&[[_ ->]|[_ ->]]); [|done].
      cbn [snd]. intros e' [->|?]%elem_of_cons; [|by apply Hst0]. done.
    + cbn. intros e' He'. apply Hpq. rewrite Hperm. set_solver.
Qed.

End WithIteration.

(** The graph after a call: no entry is changed or removed; a station
    that had none may have got an empty one.  The edges are the same. *)
Lemma graph_after_call (it : iteration) (fuel : nat)
    (g : gmap string (gmap string (gset string)))
    (sl : gmap string (gset string)) (src dest : string) o g' :
  find_min_switch_path it fuel g sl src dest = Some (o, g') →
  grown_from g g'.
Proof.
  unfold find_min_switch_path.
  destruct (sl !! src) as [Ls|]; [|intros [= <- <-]; by left].
  destruct (sl !! dest); [|intros [= <- <-]; by left].
  destruct (search_loop _ _ _ _) as [[o1 g1]|] eqn:Hrun; [|done].
  apply (search_loop_ind it
           (λ s, grown_from g (ls_graph s) ∧ ∀ e, e ∈ ls_pq s → entry_hops e)
           dest (grown_hops_step it g dest))
    in Hrun as (s_end&[Hg _]&Hend).
  - pose proof (step_cases it dest s_end) as Hc.
    destruct (step it dest s_end) as [|[e|] gb|gb]; [done|..]; simplify_eq.
    + destruct Hc as (?&_&_&_&->). by intros [= <- <-].
    + destruct Hc as [_ ->]. by intros [= <- <-].
    + destruct Hc as (e&?&_&_&_&->&_). intros [= <- <-].
      by apply grown_from_touch.
  - split; [by left|]. cbn. intros e (l&_&->)%elem_of_seed_pq. done.
Qed.

(** The count a call returns is the number of hops of the route, one less
    than the number of its stations. *)
Lemma returned_count_is_hops (it : iteration) (fuel : nat)
    (g : gmap string (gmap string (gset string)))
    (sl : gmap string (gset string)) (src dest : string) r g' :
  find_min_switch_path it fuel g sl src dest = Some (Returned (Some r), g') →
  length (f_path r) = S (f_stations r).
Proof.
  unfold find_min_switch_path.
  destruct (sl !! src) as [Ls|]; [|done]. destruct (sl !! dest); [|done].
  destruct (search_loop _ _ _ _) as [[[[e|]|] g1]|] eqn:Hrun; try done.
  intros [= <- <-].
  apply (search_loop_ind it
           (λ s, grown_from g (ls_graph s) ∧ ∀ e, e ∈ ls_pq s → entry_hops e)
           dest (grown_hops_step it g dest))
    in Hrun as (s_end&[_ Hpq]&Hend).
  - pose proof (step_cases it dest s_end) as Hc.
    destruct (step it dest s_end) as [|b gb|]; [done| |done].
    simplify_eq. destruct Hc as (rest&Hperm&_).
    assert (entry_hops e) as He by (apply Hpq; rewrite Hperm; set_solver).
    unfold reconstruct. cbn [f_path f_stations].
    by rewrite length_reverse, walk_back_length.
  - split; [by left|]. cbn. intros e' (l&_&->)%elem_of_seed_pq. done.
Qed.

Lemma touch_known c g : is_Some (g !! c) → touch c g = g.
Proof. intros [m Hm]. unfold touch. by rewrite Hm. Qed.

(** On a symmetric graph, such as every graph of the builder, a query
    whose source has an entry in the graph leaves the graph as it was: only
    a source without any edge gets a new, empty entry. *)
Lemma graph_unchanged_from_connected_source (it : iteration) (fuel : nat)
    (g : gmap string (gmap string (gset string)))
    (sl : gmap string (gset string)) (src dest : string) o g' :
  symmetric g → is_Some (g !! src) →
  find_min_switch_path it fuel g sl src dest = Some (o, g') → g' = g.
Proof.
  intros Hsym Hsrc. unfold find_min_switch_path.
  destruct (sl !! src) as [Ls|]; [|by intros [= <- <-]].
  destruct (sl !! dest); [|by intros [= <- <-]].
  destruct (search_loop _ _ _ _) as [[o1 g1]|] eqn:Hrun; [|done].
  apply (search_loop_ind it
           (λ s, ls_graph s = g ∧ ∀ e, e ∈ ls_pq s → is_Some (g !! e_station e))
           dest) in Hrun as (s_end&[Hg Hpq]&Hend).
  - pose proof (step_cases it dest s_end) as Hc.
    destruct (step it dest s_end) as [|[e|] gb|gb]; [done|..]; simplify_eq.
    + destruct Hc as (?&_&_&_&->). by intros [= <- <-].
    + destruct Hc as [_ ->]. by intros [= <- <-].
    + destruct Hc as (e&rest&Hperm&_&_&->&_). intros [= <- <-].
      apply touch_known, Hpq. rewrite Hperm. set_solver.
  - intros s s' [Hg Hpq] Hst. pose proof (step_cases it dest s) as Hc.
    rewrite Hst in Hc. destruct Hc as (e&rest&Hperm&[[_ ->]|(_&_&Hg'&Hrel)]).
    + split; [done|]. cbn. intros e' He'. apply Hpq. rewrite Hperm. set_solver.
    + assert (is_Some (g !! e_station e)) as He
        by (apply Hpq; rewrite Hperm; set_solver).
      rewrite Hg, touch_known in Hg' by done. split; [done|].
      revert Hrel.
      apply (relax_all_ind it
               (λ st, ∀ e', e' ∈ st.2 → is_Some (g !! e_station e'))).
      * intros st [nbr L] st' Hitem Hst0 Hrelax.
        apply relax_Returned in Hrelax as (el&_&[[_ ->]|[_ ->]]); [|done].
        cbn [snd]. intros e' [->|?]%elem_of_cons; [|by apply Hst0].
        cbn. apply elem_of_dict_items in Hitem. rewrite Hg' in Hitem.
        assert (edge g (e_station e) nbr = Some L) as HL.
        { unfold edge. destruct He as [m Hm]. rewrite Hm in Hitem |- *. done. }
        rewrite Hsym in HL. unfold edge in HL.
        destruct (g !! nbr); [eauto|done].
      * cbn. intros e' He'. apply Hpq. rewrite Hperm. set_solver.
  - split; [done|]. cbn. intros e (l&_&->)%elem_of_seed_pq. done.
Qed.

(** * Asking again *)

Lemma touch_lookup c g a :
  default ∅ (touch c g !! a) = default ∅ (g !! a).
Proof.
  unfold touch. destruct (g !! c) eqn:Hc; [done|].
  destruct (decide (a = c)) as [->|Hne].
  - by rewrite lookup_insert_eq, Hc.
  - by rewrite lookup_insert_ne.
Qed.

Lemma touch_subseteq c g : g ⊆ touch c g.
Proof.
  unfold touch. destruct (g !! c) eqn:Hc; [done|]. by apply insert_subseteq.
Qed.

Section WithIteration.
Variable it : iteration.

Lemma search_loop_graph_mono dest fuel s o g' :
  search_loop it fuel dest s = Some (o, g') → ls_graph s ⊆ g'.
Proof.
  revert s. induction fuel as [|fuel IH]; intros s Hrun; [done|].
  cbn [search_loop] in Hrun. pose proof (step_cases it dest s) as Hc.
  destruct (step it dest s) as [s'|[e|] gb|gb]; simplify_eq.
  - destruct Hc as (e&rest&_&[[_ ->]|(_&_&Hg'&_)]).
    + by apply (IH _ Hrun).
    + etrans; [apply (touch_subseteq (e_station e))|]. rewrite <-Hg'.
      by apply IH.
  - by destruct Hc as (?&_&_&_&->).
  - by destruct Hc as [_ ->].
  - destruct Hc as (e&?&_&_&_&->&_). apply touch_subseteq.
Qed.

(** A run on a graph object that already has every entry the run would
    add goes the same way and leaves that object alone. *)
Lemma search_loop_on_grown dest fuel s o g' g2 :
  search_loop it fuel dest s = Some (o, g') →
  g' ⊆ g2 → (∀ c, default ∅ (ls_graph s !! c) = default ∅ (g2 !! c)) →
  search_loop it fuel dest (LoopState g2 (ls_visited s) (ls_pq s)) = Some (o, g2).
Proof.
  revert s. induction fuel as [|fuel IH]; intros s Hrun Hsub Hn; [done|].
  pose proof (search_loop_graph_mono _ _ _ _ _ Hrun) as Hmono.
  cbn [search_loop] in *. unfold step in *. cbn [ls_graph ls_visited ls_pq].
  destruct (heappop (ls_pq s)) as [[e rest]|]; [|by simplify_eq].
  destruct (stale (ls_visited s) e).
  { by apply (IH _ Hrun). }
  case_decide; [by simplify_eq|].
  assert (touch (e_station e) g2 = g2) as Hg2.
  { destruct (relax_all _ _ _ _) as [st'|] eqn:Hrel.
    - apply search_loop_graph_mono in Hrun. cbn in Hrun.
      apply touch_known.
      assert (is_Some (touch (e_station e) (ls_graph s) !! e_station e)) as [m Hm].
      { unfold touch. destruct (ls_graph s !! e_station e) eqn:Hc; [by rewrite Hc|].
        rewrite lookup_insert_eq. eauto. }
      exists m. eapply lookup_weaken; [done|]. by etrans.
    - simplify_eq. apply touch_known.
      assert (is_Some (touch (e_station e) (ls_graph s) !! e_station e)) as [m Hm].
      { unfold touch. destruct (ls_graph s !! e_station e) eqn:Hc; [by rewrite Hc|].
        rewrite lookup_insert_eq. eauto. }
      exists m. by eapply lookup_weaken. }
  rewrite Hg2, <-Hn, <-(touch_lookup (e_station e) (ls_graph s)).
  destruct (relax_all _ _ _ _) as [st'|] eqn:Hrel.
  - apply (IH _ Hrun Hsub). cbn. intros c. by rewrite touch_lookup.
  - by simplify_eq.
Qed.

End WithIteration.

(** Asking again, on the graph object as the first call left it, gives the
    same answer and changes nothing more. *)
Lemma find_min_switch_path_again (it : iteration) (fuel : nat)
    (g : gmap string (gmap string (gset string)))
    (sl : gmap string (gset string)) (src dest : string) o g' :
  find_min_switch_path it fuel g sl src dest = Some (o, g') →
  find_min_switch_path it fuel g' sl src dest = Some (o, g').
Proof.
  intros Hrun. pose proof (graph_after_call _ _ _ _ _ _ _ _ Hrun) as Hgrown.
  revert Hrun. unfold find_min_switch_path.
  destruct (sl !! src) as [Ls|]; [|by intros [= <- <-]].
  destruct (sl !! dest); [|by intros [= <- <-]].
  destruct (search_loop it fuel dest (LoopState g _ _)) as [[o1 g1]|] eqn:Hrun;
    [|done].
  intros Ho. assert (g1 = g') as -> by (by destruct o1 as [[?|]|]; simplify_eq).
  apply (search_loop_on_grown it dest fuel _ _ _ g') in Hrun; [|done|].
  - cbn in Hrun. by rewrite Hrun.
  - cbn. intros c. destruct (Hgrown c) as [->|[-> ->]]; done.
Qed.

(** C9: the call is deterministic.  Whatever the order in which the sets
    of lines and the neighbour dictionaries are walked, the same query on
    the same graph and index gives the same result: the same route, counts
    and lines, and the same graph object afterwards.  A second call on the
    graph object as the first one left it gives that result again. *)
Theorem find_min_switch_path_deterministic (it1 it2 : iteration) (fuel : nat)
    (g : gmap string (gmap string (gset string)))
    (sl : gmap string (gset string)) (src dest : string) :
  find_min_switch_path it1 fuel g sl src dest
    = find_min_switch_path it2 fuel g sl src dest ∧
  ∀ o g', find_min_switch_path it1 fuel g sl src dest = Some (o, g') →
          find_min_switch_path it2 fuel g' sl src dest = Some (o, g').
Proof.
  split; [apply find_min_switch_path_iteration|].
  intros o g' Hrun. rewrite (find_min_switch_path_iteration it2 it1).
  by apply (find_min_switch_path_again it1 fuel g).
Qed.

Lemma find_min_switch_path_deterministic_witness :
  let b := build_graph_and_station_lines [("L1", ["A"]); ("L2", ["B"; "C"])] in
  find_min_switch_path canonical_iteration 10
    (<["A" := ∅]> (graph b)) (station_lines b) "A" "B"
  = Some (Returned None, <["A" := ∅]> (graph b)).
Proof.
  cbn zeta.
  apply (proj2 (find_min_switch_path_deterministic
           canonical_iteration canonical_iteration 10
           (graph (build_graph_and_station_lines
                     [("L1", ["A"]); ("L2", ["B"; "C"])]))
           (station_lines (build_graph_and_station_lines
                     [("L1", ["A"]); ("L2", ["B"; "C"])]))
           "A" "B") (Returned None)).
  vm_compute. reflexivity.
Defined.

(** * The no-path result outside the invariants of the data model *)


Import BuilderSpec.

(** * More on the builder: edges, keys and the two name tables *)

Lemma has_label_add_edge_inv c d l g a b x :
  has_label (add_edge c d l g) a b x →
  has_label g a b x ∨ (x = l ∧ a = c ∧ b = d).
Proof.
  intros (L&HL&Hx). rewrite edge_add_edge in HL.
  case_decide as Hd; [|left; by exists L].
  destruct Hd as [-> ->]. simplify_eq.
  apply elem_of_union in Hx as [Hx|Hx%elem_of_singleton]; [|by right].
  left. unfold has_label. destruct (edge g c d) as [L0|]; [|set_solver].
  by exists L0.
Qed.

Lemma has_label_add_edges_inv l stations g a b x :
  has_label (add_edges l stations g) a b x →
  has_label g a b x ∨
  (x = l ∧ ∃ i, (stations !! i = Some a ∧ stations !! S i = Some b) ∨
                (stations !! i = Some b ∧ stations !! S i = Some a)).
Proof.
  revert g. induction stations as [|c [|d rest] IH]; intros g H; try by left.
  change (add_edges l (c :: d :: rest) g)
    with (add_edges l (d :: rest) (add_edge d c l (add_edge c d l g))) in H.
  apply IH in H as [H|(->&i&Hi)].
  - apply has_label_add_edge_inv in H as [H|(->&->&->)].
    + apply has_label_add_edge_inv in H as [H|(->&->&->)]; [by left|].
      right. split; [done|]. exists 0. by left.
    + right. split; [done|]. exists 0. by right.
  - right. split; [done|]. exists (S i). done.
Qed.

Lemma has_label_build_state_inv items st a b x :
  has_label (foldl add_line st items).1 a b x →
  has_label st.1 a b x ∨ adjacent_in items x a b ∨ adjacent_in items x b a.
Proof.
  revert st. induction items as [|[l sts] items IH]; intros st H; [by left|].
  cbn [foldl] in H. apply IH in H as [H|[(s&i&?&?)|(s&i&?&?)]].
  - cbn in H. apply has_label_add_edges_inv in H as [H|(->&i&[[??]|[??]])].
    + by left.
    + right; left. exists sts, i. set_solver.
    + right; right. exists sts, i. set_solver.
  - right; left. exists s, i. set_solver.
  - right; right. exists s, i. set_solver.
Qed.

Lemma built_edges_spec items a b l :
  has_label (graph (build_graph_and_station_lines items)) a b l ↔
  adjacent_in items l a b ∨ adjacent_in items l b a.
Proof.
  split.
  - intros H. apply has_label_build_state_inv in H as [(L&HL&_)|H]; [|done].
    cbn in HL. unfold edge in HL. by rewrite lookup_empty in HL.
  - intros [(sts&i&Hin&Ha&Hb)|(sts&i&Hin&Ha&Hb)].
    + by apply (has_label_build_state_new items _ l sts i a b).
    + by apply (has_label_build_state_new items _ l sts i b a).
Qed.

(** X1: the built graph has exactly the edges of the line sequences: a line
    name labels the edge between two stations exactly when the two stations
    follow each other, in either order, in the sequence of a line of that
    name. *)
Theorem built_edges_are_adjacent_pairs (items : list (string * list string))
    (a b l : string) :
  has_label (graph (build_graph_and_station_lines items)) a b l ↔
  adjacent_in items l a b ∨ adjacent_in items l b a.
Proof. apply built_edges_spec. Qed.

Lemma NoDup_lookup_S (stations : list string) i a :
  NoDup stations → stations !! i = Some a → stations !! S i = Some a → False.
Proof.
  intros Hnd Hi HS. pose proof (NoDup_lookup _ _ _ _ Hnd Hi HS). lia.
Qed.

Lemma built_no_self_loop items a :
  (∀ item, item ∈ items → NoDup item.2) →
  edge (graph (build_graph_and_station_lines items)) a a = None.
Proof.
  intros Hnd.
  destruct (edge (graph (build_graph_and_station_lines items)) a a) as [L|] eqn:HL;
    [|done].
  pose proof (built_labels_nonempty items a a L HL) as Hne.
  apply set_choose_L in Hne as [l Hl].
  assert (has_label (graph (build_graph_and_station_lines items)) a a l) as H
    by (by exists L).
  apply built_edges_spec in H as [(sts&i&Hin&Ha&Hb)|(sts&i&Hin&Ha&Hb)];
    destruct (NoDup_lookup_S sts i a (Hnd _ Hin) Ha Hb).
Qed.

(** X2: when no line repeats a station in its sequence, as is the case for
    the key list of a dictionary, no station of the built graph is its own
    neighbour. *)
Theorem built_graph_has_no_self_loop (items : list (string * list string))
    (a : string) :
  (∀ item, item ∈ items → NoDup item.2) →
  edge (graph (build_graph_and_station_lines items)) a a = None.
Proof. apply built_no_self_loop. Qed.

Lemma built_graph_has_no_self_loop_witness :
  edge (graph (build_graph_and_station_lines
                 [("L1", ["A"; "B"; "C"]); ("L2", ["C"; "B"])])) "B" "B" = None.
Proof.
  apply (built_graph_has_no_self_loop
           [("L1", ["A"; "B"; "C"]); ("L2", ["C"; "B"])] "B").
  intros item Hin. repeat (apply elem_of_cons in Hin as [->|Hin]);
    [..|by apply not_elem_of_nil in Hin]; cbn;
    by apply (bool_decide_eq_true_1 (NoDup _)).
Defined.

Lemma inner_nonempty_add_edge a b l g :
  (∀ x m, g !! x = Some m → m ≠ ∅) →
  ∀ x m, add_edge a b l g !! x = Some m → m ≠ ∅.
Proof.
  intros Hg x m. unfold add_edge. rewrite lookup_insert. case_decide.
  - intros [= <-]. apply insert_non_empty.
  - apply Hg.
Qed.

Lemma inner_nonempty_add_edges l stations g :
  (∀ x m, g !! x = Some m → m ≠ ∅) →
  ∀ x m, add_edges l stations g !! x = Some m → m ≠ ∅.
Proof.
  revert g. induction stations as [|a [|b rest] IH]; intros g Hg; try done.
  change (add_edges l (a :: b :: rest) g)
    with (add_edges l (b :: rest) (add_edge b a l (add_edge a b l g))).
  by apply IH, inner_nonempty_add_edge, inner_nonempty_add_edge.
Qed.

Lemma inner_nonempty_build_state items st :
  (∀ x m, st.1 !! x = Some m → m ≠ ∅) →
  ∀ x m, (foldl add_line st items).1 !! x = Some m → m ≠ ∅.
Proof.
  revert st. induction items as [|item items IH]; intros st Hst; [done|].
  cbn [foldl]. apply IH. cbn. by apply inner_nonempty_add_edges.
Qed.

Lemma built_graph_entry items a m :
  graph (build_graph_and_station_lines items) !! a = Some m →
  m ≠ ∅ ∧
  is_Some (station_lines (build_graph_and_station_lines items) !! a) ∧
  ∀ b, is_Some (m !! b) →
       is_Some (graph (build_graph_and_station_lines items) !! b).
Proof.
  intros Ha.
  assert (m ≠ ∅) as Hne.
  { revert Ha. apply inner_nonempty_build_state. intros x m0. cbn.
    by rewrite lookup_empty. }
  assert (∀ b L, m !! b = Some L →
            edge (graph (build_graph_and_station_lines items)) a b = Some L) as He.
  { intros b L Hb. unfold edge. by rewrite Ha. }
  split_and!; [done| |].
  - apply map_choose in Hne as (b&L&Hb). apply He in Hb.
    pose proof (built_labels_nonempty items a b L Hb) as HL.
    apply set_choose_L in HL as [l Hl].
    destruct (build_state_labels items (∅, (∅, ∅)) a b l L Hb Hl) as [H|H].
    + cbn in H. unfold edge in H. rewrite lookup_empty in H. set_solver.
    + destruct (station_index_spec items a ∅) as [Hk _].
      apply elem_of_dom, Hk. by exists l.
  - intros b [L Hb]. apply He in Hb. rewrite build_symmetric in Hb.
    unfold edge in Hb.
    by destruct (graph (build_graph_and_station_lines items) !! b).
Qed.

(** X3: a station has an entry in the built graph only if it has a
    neighbour: the entry is never an empty dictionary, the station is a key
    of the station index, and every neighbour listed has an entry of its
    own. *)
Theorem built_graph_entries_have_neighbours (items : list (string * list string))
    (a : string) (m : gmap string (gset string)) :
  graph (build_graph_and_station_lines items) !! a = Some m →
  m ≠ ∅ ∧
  is_Some (station_lines (build_graph_and_station_lines items) !! a) ∧
  ∀ b, is_Some (m !! b) →
       is_Some (graph (build_graph_and_station_lines items) !! b).
Proof. apply built_graph_entry. Qed.

Lemma built_graph_entries_have_neighbours_witness :
  ({["B" := {["L1"]}]} : gmap string (gset string)) ≠ ∅ ∧
  is_Some (station_lines (build_graph_and_station_lines
                            [("L1", ["A"; "B"]); ("L2", ["C"])]) !! "A") ∧
  ∀ b, is_Some (({["B" := {["L1"]}]} : gmap string (gset string)) !! b) →
       is_Some (graph (build_graph_and_station_lines
                         [("L1", ["A"; "B"]); ("L2", ["C"])]) !! b).
Proof.
  apply (built_graph_entries_have_neighbours
           [("L1", ["A"; "B"]); ("L2", ["C"])] "A" {["B" := {["L1"]}]}).
  vm_compute. reflexivity.
Defined.

Lemma add_stations_names l stations acc s n :
  acc.2 !! s = (if decide (n = 0) then None else Some {[s := n]}) →
  (add_stations l stations acc).2 !! s =
    if decide (n + length (filter (λ x, x = s) stations) = 0) then None
    else Some {[s := n + length (filter (λ x, x = s) stations)]}.
Proof.
  revert acc n. induction stations as [|a rest IH]; intros acc n Hacc.
  - cbn. rewrite Nat.add_0_r. done.
  - cbn [add_stations]. rewrite filter_cons.
    destruct (decide (a = s)) as [->|Hne].
    + cbn [length]. rewrite <-Nat.add_succ_comm. apply IH. cbn [snd].
      unfold count_name. rewrite lookup_insert_eq, Hacc.
      rewrite (decide_False (P := S n = 0)) by lia. f_equal.
      case_decide as Hn; cbn.
      * subst n. by rewrite lookup_empty.
      * rewrite lookup_singleton_eq. cbn. apply insert_singleton_eq.
    + apply IH. cbn [snd]. unfold count_name. by rewrite lookup_insert_ne.
Qed.

Lemma build_state_names items st s n :
  st.2.2 !! s = (if decide (n = 0) then None else Some {[s := n]}) →
  (foldl add_line st items).2.2 !! s =
    if decide (n + occurrences items s = 0) then None
    else Some {[s := n + occurrences items s]}.
Proof.
  revert st n. induction items as [|item items IH]; intros st n Hst.
  - cbn. by rewrite Nat.add_0_r.
  - cbn [foldl]. unfold occurrences. rewrite fmap_cons. cbn [sum_list_with].
    fold (occurrences items s). rewrite Nat.add_assoc. apply IH.
    cbn [add_line snd]. by apply add_stations_names.
Qed.

Lemma built_id_to_names items s :
  id_to_names (build_graph_and_station_lines items) !! s =
    if decide (occurrences items s = 0) then None
    else Some {[s := occurrences items s]}.
Proof.
  apply (build_state_names items (∅, (∅, ∅)) s 0). cbn. apply lookup_empty.
Qed.

Lemma occurrences_pos items s :
  occurrences items s ≠ 0 ↔ ∃ l, serves items l s.
Proof.
  unfold occurrences, serves. induction items as [|[l sts] items IH].
  - cbn. split; [done|]. by intros (?&?&?%not_elem_of_nil&_).
  - rewrite fmap_cons. cbn [sum_list_with snd]. split.
    + intros H. destruct (decide (s ∈ sts)) as [Hin|Hin].
      * exists l, sts. set_solver.
      * assert (filter (λ x, x = s) sts = []) as Hf.
        { destruct (filter (λ x, x = s) sts) as [|y ys] eqn:Hy; [done|].
          assert (y ∈ filter (λ x, x = s) sts) as Hyin by (rewrite Hy; set_solver).
          apply list_elem_of_filter in Hyin as [-> ?]. done. }
        rewrite Hf in H. cbn in H. apply IH in H as (l'&sts'&?&?).
        exists l', sts'. set_solver.
    + intros (l'&sts'&[[= -> ->]|Hin]%elem_of_cons&Hs).
      * assert (s ∈ filter (λ x, x = s) sts) as Hf
          by (by apply list_elem_of_filter).
        destruct (filter (λ x, x = s) sts); [by apply not_elem_of_nil in Hf|].
        cbn. lia.
      * assert (sum_list ((λ item, length (filter (λ x, x = s) item.2)) <$> items)
                ≠ 0) by (apply IH; eauto). lia.
Qed.

(** X4: [id_to_names] has an entry exactly for the stations that occur in
    some line; the entry of station [s] is a counter with the single key
    [s], whose count is the number of times [s] occurs in the station
    sequences.  So no counter ever has more than one key, and the
    [len(counter) > 1] test of [main] never holds. *)
Theorem id_to_names_single_name (items : list (string * list string))
    (s : string) :
  id_to_names (build_graph_and_station_lines items) !! s =
    if decide (occurrences items s = 0) then None
    else Some {[s := occurrences items s]}.
Proof. apply built_id_to_names. Qed.

Lemma built_canonical_to_display items s d :
  canonical_to_display (build_graph_and_station_lines items) !! s = Some d ↔
  d = s ∧ is_Some (station_lines (build_graph_and_station_lines items) !! s).
Proof.
  assert (is_Some (station_lines (build_graph_and_station_lines items) !! s)
          ↔ occurrences items s ≠ 0) as ->.
  { rewrite occurrences_pos, <-elem_of_dom.
    by destruct (station_index_spec items s ∅) as [Hk _]. }
  change (canonical_to_display (build_graph_and_station_lines items))
    with (map_imap (λ (s0 : string) (_ : gmap string nat), Some s0)
            (id_to_names (build_graph_and_station_lines items))).
  rewrite map_lookup_imap, built_id_to_names.
  case_decide; cbn; naive_solver.
Qed.

(** X5: [canonical_to_display] maps every key of the station index to
    itself and has no other key. *)
Theorem canonical_to_display_is_identity (items : list (string * list string))
    (s d : string) :
  canonical_to_display (build_graph_and_station_lines items) !! s = Some d ↔
  d = s ∧ is_Some (station_lines (build_graph_and_station_lines items) !! s).
Proof. apply built_canonical_to_display. Qed.

Import BuilderSpec SearchSpec.

(** * More on the search: how a call ends and what it reports *)

(** X6: every call ends.  For every graph, index, source and destination
    there is a number of loop turns from which on the call gives one and
    the same outcome, a result or the [ValueError]. *)
Theorem find_min_switch_path_always_ends (it : iteration)
    (g : gmap string (gmap string (gset string)))
    (sl : gmap string (gset string)) (src dest : string) :
  ∃ fuel r, ∀ fuel', fuel ≤ fuel' →
    find_min_switch_path it fuel' g sl src dest = Some r.
Proof.
  destruct (find_min_switch_path_terminates it g sl src dest) as (fuel&r&Hrun).
  exists fuel, r. intros fuel' Hle. by eapply find_min_switch_path_mono.
Qed.

Lemma find_min_switch_path_no_raise (it : iteration) (fuel : nat)
    (g : gmap string (gmap string (gset string)))
    (sl : gmap string (gset string)) (src dest : string) o g' :
  labels_nonempty g →
  find_min_switch_path it fuel g sl src dest = Some (o, g') →
  o ≠ Raised_ValueError.
Proof.
  intros Hne. unfold find_min_switch_path.
  destruct (sl !! src) as [Ls|]; [|by intros [= <- <-]].
  destruct (sl !! dest); [|by intros [= <- <-]].
  destruct (search_loop _ _ _ _) as [[o1 g1]|] eqn:Hrun; [|done].
  apply (search_loop_ind it (edges_kept g) dest (edges_kept_step it g dest))
    in Hrun as (s_end&Hg&Hend); [|done].
  pose proof (step_cases it dest s_end) as Hc.
  destruct (step it dest s_end) as [|[e|] gb|gb]; [done|..]; simplify_eq.
  - by intros [= <- <-].
  - by intros [= <- <-].
  - destruct Hc as (e&rest&_&_&_&->&Hrel).
    apply relax_all_Raised in Hrel as ([b L]&Hitem&HL). cbn in HL. subst L.
    apply elem_of_dict_items, touch_items in Hitem. rewrite Hg in Hitem.
    by apply Hne in Hitem.
Qed.

(** X7: on a graph whose edges all carry at least one line, as every
    built graph does, a call never raises: [min] is never applied to an
    empty set. *)
Theorem find_min_switch_path_never_raises (it : iteration) (fuel : nat)
    (g : gmap string (gmap string (gset string)))
    (sl : gmap string (gset string)) (src dest : string)
    (o : outcome (option found)) (g' : gmap string (gmap string (gset string))) :
  labels_nonempty g →
  find_min_switch_path it fuel g sl src dest = Some (o, g') →
  o ≠ Raised_ValueError.
Proof. apply find_min_switch_path_no_raise. Qed.

Lemma find_min_switch_path_never_raises_witness :
  Returned (Some (Found ["A"; "B"] 0 1 ["L1"]))
    ≠ (Raised_ValueError : outcome (option found)).
Proof.
  apply (find_min_switch_path_never_raises canonical_iteration 10
           (graph (build_graph_and_station_lines [("L1", ["A"; "B"])]))
           (station_lines (build_graph_and_station_lines [("L1", ["A"; "B"])]))
           "A" "B" _
           (graph (build_graph_and_station_lines [("L1", ["A"; "B"])]))).
  - apply built_labels_nonempty.
  - vm_compute. reflexivity.
Defined.

Lemma relax_all_empty_label it e st (items : list (string * gset string)) nbr :
  (nbr, ∅) ∈ items → relax_all it e st items = Raised_ValueError.
Proof.
  revert st. induction items as [|item items IH]; intros st Hin.
  - by apply not_elem_of_nil in Hin.
  - cbn [relax_all]. destruct (relax it e st item) as [st1|] eqn:H1; [|done].
    apply elem_of_cons in Hin as [<-|Hin]; [|by apply IH].
    unfold relax, edge_line in H1. cbn in H1.
    rewrite decide_False in H1 by set_solver.
    pose proof (set_min_spec it ∅) as Hmin.
    destruct (set_min it ∅) as [m|]; [set_solver|done].
Qed.

(** X8: an edge without any line makes the call fail.  When the source is
    not the destination, has a line in the index and has a neighbour whose
    edge carries an empty label set, the call raises the [ValueError] of
    [min] at its first turn and leaves the graph as it was. *)
Theorem empty_label_set_raises (it : iteration)
    (g : gmap string (gmap string (gset string)))
    (sl : gmap string (gset string)) (src nbr dest : string)
    (Ls : gset string) (m : gmap string (gset string)) :
  sl !! src = Some Ls → Ls ≠ ∅ → is_Some (sl !! dest) → src ≠ dest →
  g !! src = Some m → m !! nbr = Some ∅ →
  find_min_switch_path it 1 g sl src dest = Some (Raised_ValueError, g).
Proof.
  intros Hsrc HLs [Ld Hdest] Hne Hm Hnbr. unfold find_min_switch_path.
  rewrite Hsrc, Hdest. cbn [search_loop]. unfold step.
  cbn [ls_pq ls_visited ls_graph].
  destruct (heappop (seed it src Ls).2) as [[e rest]|] eqn:Hpop.
  - assert (e ∈ (seed it src Ls).2) as He.
    { rewrite (heappop_perm _ _ _ Hpop). apply list_elem_of_here. }
    apply elem_of_seed_pq in He as (l'&Hl'&->).
    unfold stale, e_key. cbn [e_station e_line e_cost e_switches e_stations].
    rewrite seed_visited. cbn [fst snd]. rewrite decide_True by done. cbn.
    rewrite decide_False by done.
    rewrite touch_known by eauto. rewrite Hm. cbn.
    rewrite (relax_all_empty_label it _ _ _ nbr); [done|].
    by apply elem_of_dict_items.
  - apply heappop_None in Hpop. apply set_choose_L in HLs as [l Hl].
    assert (Entry 0 0 src l None ∈ (seed it src Ls).2) as He.
    { apply elem_of_seed_pq. eauto. }
    rewrite Hpop in He. by apply not_elem_of_nil in He.
Qed.

Lemma empty_label_set_raises_witness :
  find_min_switch_path canonical_iteration 1 {["A" := {["B" := ∅]}]}
    {["A" := {["L"]}; "B" := {["L"]}]} "A" "B"
  = Some (Raised_ValueError, {["A" := {["B" := ∅]}]}).
Proof.
  apply (empty_label_set_raises canonical_iteration _
           {["A" := {["L"]}; "B" := {["L"]}]} "A" "B" "B" {["L"]} {["B" := ∅]}).
  - vm_compute. reflexivity.
  - intros H. assert ("L" ∈ (∅ : gset string)) as Hin by (rewrite <-H; set_solver).
    by apply not_elem_of_empty in Hin.
  - vm_compute. eauto.
  - discriminate.
  - vm_compute. reflexivity.
  - vm_compute. reflexivity.
Defined.

(** X9: the station count a call returns is the number of hops of the
    returned path, one less than the number of its stations. *)
Theorem returned_count_is_number_of_hops (it : iteration) (fuel : nat)
    (g : gmap string (gmap string (gset string)))
    (sl : gmap string (gset string)) (src dest : string)
    (r : found) (g' : gmap string (gmap string (gset string))) :
  find_min_switch_path it fuel g sl src dest = Some (Returned (Some r), g') →
  length (f_path r) = S (f_stations r).
Proof. apply returned_count_is_hops. Qed.

Lemma returned_count_is_number_of_hops_witness :
  length ["X"; "A"; "B"; "C"] = S 3.
Proof.
  apply (returned_count_is_number_of_hops canonical_iteration 10
           (graph (build_graph_and_station_lines
             [("L0", ["X"; "A"]); ("L1", ["A"; "B"]); ("L2", ["A"; "B"; "C"])]))
           (station_lines (build_graph_and_station_lines
             [("L0", ["X"; "A"]); ("L1", ["A"; "B"]); ("L2", ["A"; "B"; "C"])]))
           "X" "C" (Found ["X"; "A"; "B"; "C"] 2 3 ["L0"; "L1"; "L2"])
           (graph (build_graph_and_station_lines
             [("L0", ["X"; "A"]); ("L1", ["A"; "B"]); ("L2", ["A"; "B"; "C"])]))).
  vm_compute. reflexivity.
Defined.

(** X10: all a call can change in the graph is to give an empty entry to
    stations that had none: every entry the graph had is still there
    unchanged, and every edge is kept. *)
Theorem call_only_adds_empty_entries (it : iteration) (fuel : nat)
    (g : gmap string (gmap string (gset string)))
    (sl : gmap string (gset string)) (src dest : string)
    (o : outcome (option found)) (g' : gmap string (gmap string (gset string))) :
  find_min_switch_path it fuel g sl src dest = Some (o, g') →
  (∀ a, g' !! a = g !! a ∨ (g !! a = None ∧ g' !! a = Some ∅)) ∧
  (∀ a b, edge g' a b = edge g a b).
Proof.
  intros Hrun. pose proof (graph_after_call _ _ _ _ _ _ _ _ Hrun) as Hg.
  split; [done|]. intros a b. unfold edge.
  destruct (Hg a) as [->|[-> ->]]; [done|]. cbn. by rewrite lookup_empty.
Qed.

Lemma call_only_adds_empty_entries_witness :
  let g := graph (build_graph_and_station_lines
                    [("L1", ["A"]); ("L2", ["B"; "C"])]) in
  (∀ a, <["A" := ∅]> g !! a = g !! a ∨
        (g !! a = None ∧ <["A" := ∅]> g !! a = Some ∅)) ∧
  (∀ a b, edge (<["A" := ∅]> g) a b = edge g a b).
Proof.
  cbn zeta.
  apply (call_only_adds_empty_entries canonical_iteration 10 _
           (station_lines (build_graph_and_station_lines
                             [("L1", ["A"]); ("L2", ["B"; "C"])]))
           "A" "B" (Returned None)).
  vm_compute. reflexivity.
Defined.

(** X11: on a symmetric graph, such as every built graph, a query whose
    source has an entry in the graph leaves the graph exactly as it was. *)
Theorem connected_source_leaves_graph_unchanged (it : iteration) (fuel : nat)
    (g : gmap string (gmap string (gset string)))
    (sl : gmap string (gset string)) (src dest : string)
    (o : outcome (option found)) (g' : gmap string (gmap string (gset string))) :
  symmetric g → is_Some (g !! src) →
  find_min_switch_path it fuel g sl src dest = Some (o, g') → g' = g.
Proof. apply graph_unchanged_from_connected_source. Qed.

Lemma connected_source_leaves_graph_unchanged_witness :
  graph (build_graph_and_station_lines [("L1", ["A"; "B"]); ("L2", ["C"; "D"])])
  = graph (build_graph_and_station_lines [("L1", ["A"; "B"]); ("L2", ["C"; "D"])]).
Proof.
  apply (connected_source_leaves_graph_unchanged canonical_iteration 10
           (graph (build_graph_and_station_lines
                     [("L1", ["A"; "B"]); ("L2", ["C"; "D"])]))
           (station_lines (build_graph_and_station_lines
                     [("L1", ["A"; "B"]); ("L2", ["C"; "D"])]))
           "A" "C" (Returned None)).
  - apply build_symmetric.
  - vm_compute. eauto.
  - vm_compute. reflexivity.
Defined.

(** X12: the heap never holds two entries that agree on switches,
    stations, station and line.  So [heapq] never has to compare the
    parents of two entries, [None] with a tuple, which would raise a
    [TypeError]. *)
Theorem heap_entries_never_tie (it : iteration)
    (g : gmap string (gmap string (gset string))) (src dest : string)
    (Ls : gset string) (s : loop_state) :
  rtc (λ s1 s2, step it dest s1 = Continue s2)
      (LoopState g (seed it src Ls).1 (seed it src Ls).2) s →
  NoDup (e_key4 <$> ls_pq s).
Proof. apply heap_keys_distinct. Qed.

Lemma heap_entries_never_tie_witness :
  NoDup (e_key4 <$> ls_pq (LoopState ∅ (seed canonical_iteration "A" {["L1"; "L2"]}).1
                             (seed canonical_iteration "A" {["L1"; "L2"]}).2)).
Proof.
  apply (heap_entries_never_tie canonical_iteration ∅ "A" "B" {["L1"; "L2"]}).
  apply rtc_refl.
Defined.

Lemma count_switches_snoc (ls : list string) x :
  count_switches (ls ++ [x]) =
    count_switches ls +
    match last ls with
    | Some y => if decide (y = x) then 0 else 1
    | None => 0
    end.
Proof.
  induction ls as [|a [|b rest] IH]; [done| |].
  - cbn. lia.
  - change (count_switches ((a :: b :: rest) ++ [x]))
      with ((if decide (a = b) then 0 else 1) + count_switches ((b :: rest) ++ [x])).
    rewrite IH. cbn [count_switches last]. lia.
Qed.

Lemma walk_back_lengths e : length (walk_back e).1 = length (walk_back e).2.
Proof.
  induction e as [sw st s l|sw st s l p IH] using entry_chain_ind; [done|].
  cbn [walk_back e_parent fst snd length]. by rewrite IH.
Qed.

Lemma walk_back_head_line e : head (walk_back e).2 = Some (e_line e).
Proof. by destruct e. Qed.

Lemma entry_switches_count e :
  entry_switches_ok e →
  e_switches e = count_switches (reverse (walk_back e).2).
Proof.
  induction e as [sw st s l|sw st s l p IH] using entry_chain_ind.
  - cbn. done.
  - cbn [entry_switches_ok e_parent e_switches e_line]. intros [Hp ->].
    cbn [walk_back e_parent e_line snd]. rewrite reverse_cons, count_switches_snoc.
    rewrite last_reverse, walk_back_head_line, <-(IH Hp).
    destruct (decide (l = e_line p)), (decide (e_line p = l)); congruence.
Qed.

Section WithIteration.
Variable it : iteration.

Lemma switches_ok_step dest s s' :
  (∀ e, e ∈ ls_pq s → entry_switches_ok e) →
  step it dest s = Continue s' →
  ∀ e, e ∈ ls_pq s' → entry_switches_ok e.
Proof.
  intros Hpq Hst. pose proof (step_cases it dest s) as Hc.
  rewrite Hst in Hc. destruct Hc as (e&rest&Hperm&[[_ ->]|(_&_&_&Hrel)]).
  - cbn. intros e' He'. apply Hpq. rewrite Hperm. set_solver.
  - assert (entry_switches_ok e) as He by (apply Hpq; rewrite Hperm; set_solver).
    revert Hrel.
    apply (relax_all_ind it (λ st, ∀ e', e' ∈ st.2 → entry_switches_ok e')).
    + intros st item st' _ Hst0 Hrun.
      apply relax_Returned in Hrun as (el&_&[[_ ->]|[_ ->]]); [|done].
      cbn [snd]. intros e' [->|?]%elem_of_cons; [|by apply Hst0]. done.
    + cbn. intros e' He'. apply Hpq. rewrite Hperm. set_solver.
Qed.

End WithIteration.

Lemma returned_switches_bounds (it : iteration) (fuel : nat)
    (g : gmap string (gmap string (gset string)))
    (sl : gmap string (gset string)) (src dest : string) r g' :
  find_min_switch_path it fuel g sl src dest = Some (Returned (Some r), g') →
  count_switches (f_lines r) ≤ f_switches r ≤ S (count_switches (f_lines r)).
Proof.
  unfold find_min_switch_path.
  destruct (sl !! src) as [Ls|]; [|done]. destruct (sl !! dest); [|done].
  destruct (search_loop _ _ _ _) as [[[[e|]|] g1]|] eqn:Hrun; try done.
  intros [= <- <-].
  apply (search_loop_ind it (λ s, ∀ e, e ∈ ls_pq s → entry_switches_ok e)
           dest (switches_ok_step it dest))
    in Hrun as (s_end&Hpq&Hend).
  - pose proof (step_cases it dest s_end) as Hc.
    destruct (step it dest s_end) as [|b gb|]; [done| |done].
    simplify_eq. destruct Hc as (rest&Hperm&_).
    assert (entry_switches_ok e) as He by (apply Hpq; rewrite Hperm; set_solver).
    apply entry_switches_count in He.
    unfold reconstruct. cbn [f_lines f_switches].
    rewrite lines_for_edges_drop
      by (by rewrite !length_reverse, walk_back_lengths).
    rewrite He. destruct (reverse (walk_back e).2) as [|l0 [|l1 rest']]; cbn.
    + lia.
    + lia.
    + case_decide; lia.
  - cbn. intros e' (l&_&->)%elem_of_seed_pq. done.
Qed.

(** X13: the switch count a call returns is the number of line changes
    along the lines it returns, or one more: the one more is a change from
    the line the search started on to the line of the first hop, which the
    returned lines do not show. *)
Theorem returned_switches_count_line_changes (it : iteration) (fuel : nat)
    (g : gmap string (gmap string (gset string)))
    (sl : gmap string (gset string)) (src dest : string)
    (r : found) (g' : gmap string (gmap string (gset string))) :
  find_min_switch_path it fuel g sl src dest = Some (Returned (Some r), g') →
  count_switches (f_lines r) ≤ f_switches r ≤ S (count_switches (f_lines r)).
Proof. apply returned_switches_bounds. Qed.

Lemma returned_switches_count_line_changes_witness :
  count_switches ["L0"; "L1"; "L2"] ≤ 2 ≤ S (count_switches ["L0"; "L1"; "L2"]).
Proof.
  apply (returned_switches_count_line_changes canonical_iteration 10
           (graph (build_graph_and_station_lines
             [("L0", ["X"; "A"]); ("L1", ["A"; "B"]); ("L2", ["A"; "B"; "C"])]))
           (station_lines (build_graph_and_station_lines
             [("L0", ["X"; "A"]); ("L1", ["A"; "B"]); ("L2", ["A"; "B"; "C"])]))
           "X" "C" (Found ["X"; "A"; "B"; "C"] 2 3 ["L0"; "L1"; "L2"])
           (graph (build_graph_and_station_lines
             [("L0", ["X"; "A"]); ("L1", ["A"; "B"]); ("L2", ["A"; "B"; "C"])]))).
  vm_compute. reflexivity.
Defined.

Import BuilderSpec SearchSpec.

(** * The result is the cheapest of the rides the loop can take *)

Lemma cost_le_spec x y : cost_le x y ↔ x.1 < y.1 ∨ (x.1 = y.1 ∧ x.2 ≤ y.2).
Proof.
  unfold cost_le. rewrite <-not_true_iff_false, cost_ltb_spec. lia.
Qed.

Lemma cost_le_refl x : cost_le x x.
Proof. apply cost_le_spec. lia. Qed.

Lemma cost_le_trans x y z : cost_le x y → cost_le y z → cost_le x z.
Proof. rewrite !cost_le_spec. lia. Qed.

Lemma cost_lt_le x y : cost_ltb x y = true → cost_le x y.
Proof. rewrite cost_le_spec, cost_ltb_spec. lia. Qed.

Lemma cost_le_zero x : cost_le (0, 0) x.
Proof. apply cost_le_spec. cbn. lia. Qed.

Lemma cost_le_hop c l el : cost_le c (hop_cost c l el).
Proof. apply cost_le_spec. unfold hop_cost. cbn. case_decide; lia. Qed.

Lemma hop_cost_mono c c' l el :
  cost_le c c' → cost_le (hop_cost c l el) (hop_cost c' l el).
Proof. rewrite !cost_le_spec. unfold hop_cost. cbn. case_decide; lia. Qed.

Lemma successor_cost e nbr el :
  e_cost (successor e nbr el) = hop_cost (e_cost e) (e_line e) el.
Proof. done. Qed.

Lemma stale_zero v e : e_cost e = (0, 0) → stale v e = false.
Proof.
  intros He. unfold stale. rewrite He. destruct (v !! e_key e) as [b|]; [|done].
  apply not_true_iff_false. rewrite cost_ltb_spec. cbn. lia.
Qed.

Lemma entry_ltb_cost_le x m : entry_ltb x m = false → cost_le (e_cost m) (e_cost x).
Proof.
  intros H%not_true_iff_false. rewrite entry_ltb_spec in H.
  apply cost_le_spec. unfold e_cost. cbn.
  destruct (decide (e_switches m < e_switches x)); [by left|].
  right. split; lia.
Qed.

Section WithIteration.
Variable it : iteration.

Lemma step_Break_least dest s e g x :
  step it dest s = Break (Some e) g → x ∈ ls_pq s → entry_ltb x e = false.
Proof.
  unfold step. destruct (heappop (ls_pq s)) as [[m rest]|] eqn:Hpop; [|done].
  destruct (stale (ls_visited s) m); [done|].
  case_decide; [|by destruct (relax_all _ _ _ _)].
  intros [= -> _] Hx. by eapply heappop_least.
Qed.

Lemma relax_decreasing e st item st' k x :
  relax it e st item = Returned st' → st.1 !! k = Some x →
  ∃ x', st'.1 !! k = Some x' ∧ cost_le x' x.
Proof.
  intros Hrun Hk.
  apply relax_Returned in Hrun as (el&_&[[Himp ->]|[_ ->]]).
  - cbn [fst]. destruct (decide (k = e_key (successor e item.1 el))) as [->|Hne].
    + rewrite lookup_insert_eq. eexists. split; [done|].
      unfold improves in Himp. rewrite Hk in Himp. by apply cost_lt_le.
    + rewrite lookup_insert_ne by done. exists x. split; [done|apply cost_le_refl].
  - exists x. split; [done|apply cost_le_refl].
Qed.

Lemma relax_all_decreasing e st (items : list (string * gset string)) st' k x :
  relax_all it e st items = Returned st' → st.1 !! k = Some x →
  ∃ x', st'.1 !! k = Some x' ∧ cost_le x' x.
Proof.
  intros Hrun Hk. revert Hrun.
  apply (relax_all_ind it (λ st0, ∃ x', st0.1 !! k = Some x' ∧ cost_le x' x)).
  - intros st0 item st1 _ (x0&Hx0&Hle) Hrelax.
    destruct (relax_decreasing _ _ _ _ _ _ Hrelax Hx0) as (x1&Hx1&Hle1).
    exists x1. split; [done|]. by eapply cost_le_trans.
  - exists x. split; [done|apply cost_le_refl].
Qed.

Lemma relax_all_covers_cost e st (items : list (string * gset string)) st'
    item el :
  relax_all it e st items = Returned st' → item ∈ items →
  edge_line it (e_line e) item.2 = Some el →
  ∃ x, st'.1 !! (item.1, el) = Some x ∧
       cost_le x (hop_cost (e_cost e) (e_line e) el).
Proof.
  revert st. induction items as [|i items IH]; intros st Hrun Hin Hel.
  - by apply not_elem_of_nil in Hin.
  - cbn [relax_all] in Hrun.
    destruct (relax it e st i) as [st1|] eqn:H1; [|done].
    apply elem_of_cons in Hin as [->|Hin]; [|by eapply IH].
    assert (∃ x, st1.1 !! (i.1, el) = Some x ∧
                 cost_le x (hop_cost (e_cost e) (e_line e) el)) as (x&Hx&Hle).
    { unfold relax in H1. rewrite Hel in H1. cbn zeta in H1.
      destruct (improves st.1 (successor e i.1 el)) eqn:Himp; simplify_eq.
      - cbn [fst]. unfold e_key at 1. cbn [successor e_station e_line].
        rewrite lookup_insert_eq. eexists. split; [done|apply cost_le_refl].
      - unfold improves, e_key in Himp. cbn [successor e_station e_line] in Himp.
        destruct (st1.1 !! (i.1, el)) as [best|]; [|done].
        exists best. split; [done|]. by rewrite <-(successor_cost e i.1 el). }
    destruct (relax_all_decreasing _ _ _ _ _ _ Hrun Hx) as (x'&Hx'&Hle').
    exists x'. split; [done|]. by eapply cost_le_trans.
Qed.

Variables (g0 : gmap string (gmap string (gset string))) (src dest : string).
Variable Ls : gset string.

(** From the invariant: every ride the loop can take is matched by a live
    entry of the heap that is no dearer, or ends in a key already expanded
    at no more than its cost. *)
Lemma opt_inv_ride E v pq k c :
  opt_inv it g0 src dest Ls E v pq →
  greedy_ride it g0 src Ls k c →
  (∃ e, e ∈ pq ∧ stale v e = false ∧ cost_le (e_cost e) c) ∨
  (∃ c', (k, c') ∈ E ∧ cost_le c' c).
Proof.
  intros (HS&HV&HR&_&_) Hride.
  induction Hride as [l Hl|a l c b L el Hride IH HL Hel].
  - destruct (HS l Hl) as [Hin|Hin].
    + left. exists (Entry 0 0 src l None). split_and!; [done| |apply cost_le_refl].
      by apply stale_zero.
    + right. exists (0, 0). split; [done|apply cost_le_refl].
  - destruct IH as [(e&He&Hlive&Hle)|(c'&Hc'&Hle)].
    + left. exists e. split_and!; [done..|].
      eapply cost_le_trans; [done|apply cost_le_hop].
    + destruct (HR a l c' b L el Hc' HL Hel) as (x&Hx&Hxle).
      assert (cost_le x (hop_cost c l el)) as Hxc.
      { eapply cost_le_trans; [done|]. by apply hop_cost_mono. }
      destruct (HV _ _ Hx) as [(e&He&_&Hlive&Hle')|(c''&Hc''&Hle')].
      * left. exists e. split_and!; [done..|]. by eapply cost_le_trans.
      * right. exists c''. split; [done|]. by eapply cost_le_trans.
Qed.

Lemma opt_inv_seed :
  opt_inv it g0 src dest Ls [] (seed it src Ls).1 (seed it src Ls).2.
Proof.
  split_and!.
  - intros l Hl. left. apply elem_of_seed_pq. eauto.
  - intros [s l] x. rewrite seed_visited. case_decide as Hd; [|done].
    cbn in Hd. destruct Hd as [-> Hl]. intros [= <-]. left.
    exists (Entry 0 0 src l None). split_and!; [|done| |].
    + apply elem_of_seed_pq. eauto.
    + by apply stale_zero.
    + apply cost_le_zero.
  - intros a l c b L el Hin. by apply not_elem_of_nil in Hin.
  - intros k c Hin. by apply not_elem_of_nil in Hin.
  - intros e (l&Hl&->)%elem_of_seed_pq. by apply greedy_seed.
Qed.

Lemma opt_inv_step s s' E :
  edges_kept g0 s →
  opt_inv it g0 src dest Ls E (ls_visited s) (ls_pq s) →
  step it dest s = Continue s' →
  ∃ E', opt_inv it g0 src dest Ls E' (ls_visited s') (ls_pq s').
Proof.
  intros Hg (HS&HV&HR&HD&HG) Hst. pose proof (step_cases it dest s) as Hc.
  rewrite Hst in Hc.
  destruct Hc as (e&rest&Hperm&[[Hstale ->]|(Hlive&Hdest&Hg'&Hrel)]).
  - exists E. cbn. split_and!; [| |done|done|].
    + intros l Hl. destruct (HS l Hl) as [Hin|?]; [|by right]. left.
      rewrite Hperm in Hin. apply elem_of_cons in Hin as [<-|?]; [|done].
      by rewrite stale_zero in Hstale.
    + intros k x Hx. destruct (HV k x Hx) as [(e'&He'&Hkey&Hl'&Hle)|?]; [|by right].
      left. exists e'. split_and!; [|done..].
      rewrite Hperm in He'. apply elem_of_cons in He' as [->|?]; [congruence|done].
    + intros e' He'. apply HG. rewrite Hperm. set_solver.
  - set (E' := (e_key e, e_cost e) :: E).
    assert (greedy_ride it g0 src Ls (e_key e) (e_cost e)) as He
      by (apply HG; rewrite Hperm; set_solver).
    assert (∀ item, item ∈ dict_items it (default ∅ (ls_graph s' !! e_station e)) →
              edge g0 (e_station e) item.1 = Some item.2) as Hitems.
    { intros [b L] Hitem. apply elem_of_dict_items in Hitem.
      rewrite Hg' in Hitem. apply touch_items in Hitem. by rewrite <-Hg. }
    (* the [for] loop keeps the parts of the invariant, with the third
       part still for the keys expanded before *)
    assert (∀ st, relax_all it e (ls_visited s, rest)
                    (dict_items it (default ∅ (ls_graph s' !! e_station e)))
                  = Returned st →
              (∀ l, l ∈ Ls → Entry 0 0 src l None ∈ st.2 ∨ ((src, l), (0, 0)) ∈ E') ∧
              (∀ k x, st.1 !! k = Some x →
                 (∃ e0, e0 ∈ st.2 ∧ e_key e0 = k ∧ stale st.1 e0 = false ∧
                        cost_le (e_cost e0) x) ∨
                 (∃ c, (k, c) ∈ E' ∧ cost_le c x)) ∧
              (∀ a l c b L el, ((a, l), c) ∈ E →
                 edge g0 a b = Some L → edge_line it l L = Some el →
                 ∃ x, st.1 !! (b, el) = Some x ∧ cost_le x (hop_cost c l el)) ∧
              (∀ e0, e0 ∈ st.2 → greedy_ride it g0 src Ls (e_key e0) (e_cost e0)))
      as Hloop.
    { intros st. revert Hitems.
      generalize (dict_items it (default ∅ (ls_graph s' !! e_station e))).
      intros items Hitems Hrun. revert Hrun.
      apply (relax_all_ind it (λ st,
        (∀ l, l ∈ Ls → Entry 0 0 src l None ∈ st.2 ∨ ((src, l), (0, 0)) ∈ E') ∧
        (∀ k x, st.1 !! k = Some x →
           (∃ e0, e0 ∈ st.2 ∧ e_key e0 = k ∧ stale st.1 e0 = false ∧
                  cost_le (e_cost e0) x) ∨
           (∃ c, (k, c) ∈ E' ∧ cost_le c x)) ∧
        (∀ a l c b L el, ((a, l), c) ∈ E →
           edge g0 a b = Some L → edge_line it l L = Some el →
           ∃ x, st.1 !! (b, el) = Some x ∧ cost_le x (hop_cost c l el)) ∧
        (∀ e0, e0 ∈ st.2 → greedy_ride it g0 src Ls (e_key e0) (e_cost e0)))).
      - intros st0 item st1 Hitem (HS0&HV0&HR0&HG0) Hrelax.
        unfold relax in Hrelax.
        destruct (edge_line it (e_line e) item.2) as [el|] eqn:Hel; [|done].
        cbn zeta in Hrelax. set (n := successor e item.1 el) in *.
        destruct (improves st0.1 n) eqn:Himp; simplify_eq; [|done].
        cbn [fst snd]. unfold heappush. split_and!.
        + intros l Hl. destruct (HS0 l Hl); [left; set_solver|by right].
        + intros k x. rewrite lookup_insert. case_decide as Hk.
          * intros [= <-]. subst k. left. exists n.
            split_and!; [set_solver|done| |apply cost_le_refl].
            unfold stale. rewrite lookup_insert_eq. apply cost_ltb_irrefl.
          * intros Hx.
            destruct (HV0 k x Hx) as [(e'&He'&Hkey&Hl'&Hle)|?]; [|by right].
            left. exists e'. split_and!; [set_solver|done| |done].
            unfold stale in *. rewrite lookup_insert_ne by congruence. done.
        + intros a l c b L' el' Hin HL' Hel'.
          destruct (HR0 a l c b L' el' Hin HL' Hel') as (x&Hx&Hle).
          rewrite lookup_insert. case_decide as Hk.
          * eexists. split; [done|]. eapply cost_le_trans; [|done].
            apply cost_lt_le. unfold improves in Himp. by rewrite Hk, Hx in Himp.
          * eauto.
        + intros e' [->|?]%elem_of_cons; [|by apply HG0].
          unfold n. rewrite successor_cost. unfold e_key at 1.
          cbn [successor e_station e_line].
          apply (greedy_hop it g0 src Ls (e_station e) (e_line e) (e_cost e)
                   item.1 item.2 el); [done| |done].
          by apply Hitems.
      - cbn [fst snd]. split_and!.
        + intros l Hl. destruct (HS l Hl) as [Hin|?]; [|right; set_solver].
          rewrite Hperm in Hin. apply elem_of_cons in Hin as [<-|?]; [|by left].
          right. apply list_elem_of_here.
        + intros k x Hx.
          destruct (HV k x Hx) as [(e'&He'&Hkey&Hl'&Hle)|(c&?&?)].
          * rewrite Hperm in He'. apply elem_of_cons in He' as [->|?].
            -- right. exists (e_cost e). split; [|done]. rewrite <-Hkey.
               apply list_elem_of_here.
            -- left. by exists e'.
          * right. exists c. split; [set_solver|done].
        + done.
        + intros e' He'. apply HG. rewrite Hperm. set_solver. }
    destruct (Hloop _ Hrel) as (HS1&HV1&HR1&HG1). cbn [fst snd] in *.
    exists E'. split_and!; [done|done| |..|done].
    + intros a l c b L el [Heq|Hin]%elem_of_cons HL Hel.
      * unfold e_key in Heq. injection Heq as -> -> ->.
        apply (relax_all_covers_cost _ _ _ _ (b, L) el Hrel); [|done].
        apply elem_of_dict_items. rewrite Hg'. apply touch_items.
        by rewrite Hg.
      * by eapply HR1.
    + intros k c [Heq|Hin]%elem_of_cons; [|by eapply HD].
      injection Heq as -> ->. done.
Qed.

End WithIteration.

Lemma find_result_optimal (it : iteration) (fuel : nat)
    (g : gmap string (gmap string (gset string)))
    (sl : gmap string (gset string)) (src dest : string) (Ls : gset string)
    r g' :
  sl !! src = Some Ls →
  find_min_switch_path it fuel g sl src dest = Some (Returned (Some r), g') →
  (∃ l, greedy_ride it g src Ls (dest, l) (f_switches r, f_stations r)) ∧
  ∀ l c, greedy_ride it g src Ls (dest, l) c →
         cost_le (f_switches r, f_stations r) c.
Proof.
  intros Hsrc. unfold find_min_switch_path. rewrite Hsrc.
  destruct (sl !! dest); [|done].
  destruct (search_loop _ _ _ _) as [[[[e|]|] g1]|] eqn:Hrun; try done.
  intros [= <- <-].
  apply (search_loop_ind it
           (λ s, edges_kept g s ∧
                 ∃ E, opt_inv it g src dest Ls E (ls_visited s) (ls_pq s)) dest)
    in Hrun as (s_end&[Hg (E&Hinv)]&Hend).
  - pose proof (step_cases it dest s_end) as Hc.
    destruct (step it dest s_end) as [|b gb|] eqn:Hst; [done| |done].
    simplify_eq. destruct Hc as (rest&Hperm&Hlive&Hdest&_).
    unfold reconstruct. cbn [f_switches f_stations].
    split.
    + exists (e_line e). destruct Hinv as (_&_&_&_&HG).
      rewrite <-Hdest. apply (HG e). rewrite Hperm. set_solver.
    + intros l c Hride.
      destruct (opt_inv_ride it g src dest Ls E _ _ _ _ Hinv Hride)
        as [(e'&He'&_&Hle)|(c'&Hc'&_)].
      * eapply cost_le_trans; [|done].
        apply entry_ltb_cost_le. by eapply step_Break_least.
      * destruct Hinv as (_&_&_&HD&_). by destruct (HD _ _ Hc').
  - intros s s' [Hg (E&Hinv)] Hst. split.
    + by eapply edges_kept_step.
    + by eapply opt_inv_step.
  - split; [done|]. exists []. apply opt_inv_seed.
Qed.

(** X14: what the search does achieve.  The cost [(switches, stations)] of
    the returned route is the cost of a ride the loop can take from the
    source to the destination, and no such ride is cheaper, switches first,
    hops second.  The rides of the loop keep the line they are on whenever
    it serves the next edge and change to the least label of the edge
    otherwise. *)
Theorem result_is_cheapest_greedy_ride (it : iteration) (fuel : nat)
    (g : gmap string (gmap string (gset string)))
    (sl : gmap string (gset string)) (src dest : string) (Ls : gset string)
    (r : found) (g' : gmap string (gmap string (gset string))) :
  sl !! src = Some Ls →
  find_min_switch_path it fuel g sl src dest = Some (Returned (Some r), g') →
  (∃ l, greedy_ride it g src Ls (dest, l) (f_switches r, f_stations r)) ∧
  ∀ l c, greedy_ride it g src Ls (dest, l) c →
         cost_le (f_switches r, f_stations r) c.
Proof. apply find_result_optimal. Qed.

Lemma result_is_cheapest_greedy_ride_witness :
  let b := build_graph_and_station_lines
             [("L0", ["X"; "A"]); ("L1", ["A"; "B"]); ("L2", ["A"; "B"; "C"])] in
  (∃ l, greedy_ride canonical_iteration (graph b) "X" {["L0"]} ("C", l) (2, 3)) ∧
  ∀ l c, greedy_ride canonical_iteration (graph b) "X" {["L0"]} ("C", l) c →
         cost_le (2, 3) c.
Proof.
  cbn zeta.
  apply (result_is_cheapest_greedy_ride canonical_iteration 10 _
           (station_lines (build_graph_and_station_lines
             [("L0", ["X"; "A"]); ("L1", ["A"; "B"]); ("L2", ["A"; "B"; "C"])]))
           "X" "C" {["L0"]}
           (Found ["X"; "A"; "B"; "C"] 2 3 ["L0"; "L1"; "L2"])
           (graph (build_graph_and_station_lines
             [("L0", ["X"; "A"]); ("L1", ["A"; "B"]); ("L2", ["A"; "B"; "C"])]))).
  - vm_compute. reflexivity.
  - vm_compute. reflexivity.
Defined.

Lemma on_line_greedy_ride (it : iteration)
    (g : gmap string (gmap string (gset string))) (src : string)
    (Ls : gset string) (l : string) (path : list string) (a b : string) c :
  greedy_ride it g src Ls (a, l) c →
  head path = Some a → last path = Some b → on_line g l path →
  greedy_ride it g src Ls (b, l) (c.1, c.2 + (length path - 1)).
Proof.
  revert a c. induction path as [|x [|y rest] IH]; intros a c Hride Hh Hl Hon.
  - done.
  - cbn in *. simplify_eq. rewrite Nat.add_0_r. by destruct c.
  - cbn in Hh. simplify_eq. destruct Hon as [(L&HL&Hin) Hon].
    assert (greedy_ride it g src Ls (y, l) (hop_cost c l l)) as Hy.
    { apply (greedy_hop it g src Ls a l c y L l); [done..|].
      unfold edge_line. by rewrite decide_True. }
    specialize (IH y _ Hy eq_refl Hl Hon).
    unfold hop_cost in IH. rewrite decide_True in IH by done.
    cbn [fst snd length] in *.
    replace (c.2 + (S (S (length rest)) - 1)) with (c.2 + 1 + (S (length rest) - 1))
      by lia.
    by rewrite Nat.add_0_r in IH.
Qed.

Lemma direct_line_result (it : iteration) (fuel : nat)
    (g : gmap string (gmap string (gset string)))
    (sl : gmap string (gset string)) (src dest : string) (Ls : gset string)
    (l : string) (path : list string) r g' :
  sl !! src = Some Ls → l ∈ Ls →
  head path = Some src → last path = Some dest → on_line g l path →
  find_min_switch_path it fuel g sl src dest = Some (Returned (Some r), g') →
  f_switches r = 0 ∧ S (f_stations r) ≤ length path.
Proof.
  intros Hsrc Hl Hh Hla Hon Hrun.
  destruct (find_result_optimal it fuel g sl src dest Ls r g' Hsrc Hrun)
    as [_ Hopt].
  assert (greedy_ride it g src Ls (dest, l) (0, 0 + (length path - 1))) as Hride.
  { apply (on_line_greedy_ride it g src Ls l path src dest (0, 0)); [|done..].
    by apply greedy_seed. }
  apply Hopt in Hride. apply cost_le_spec in Hride. cbn in Hride.
  destruct path; [done|]. cbn [length] in *. lia.
Qed.

(** X15: a direct line is found.  When a line of the source's index
    entry labels every hop of some path from the source to the destination,
    the returned route needs no switch and has no more stations than that
    path. *)
Theorem direct_line_needs_no_switch (it : iteration) (fuel : nat)
    (g : gmap string (gmap string (gset string)))
    (sl : gmap string (gset string)) (src dest : string) (Ls : gset string)
    (l : string) (path : list string)
    (r : found) (g' : gmap string (gmap string (gset string))) :
  sl !! src = Some Ls → l ∈ Ls →
  head path = Some src → last path = Some dest → on_line g l path →
  find_min_switch_path it fuel g sl src dest = Some (Returned (Some r), g') →
  f_switches r = 0 ∧ S (f_stations r) ≤ length path.
Proof. apply direct_line_result. Qed.

Lemma direct_line_needs_no_switch_witness :
  f_switches (Found ["A"; "B"; "C"] 0 2 ["L2"; "L2"]) = 0 ∧
  S (f_stations (Found ["A"; "B"; "C"] 0 2 ["L2"; "L2"])) ≤ length ["A"; "B"; "C"].
Proof.
  apply (direct_line_needs_no_switch canonical_iteration 10
           (graph (build_graph_and_station_lines
             [("L0", ["X"; "A"]); ("L1", ["A"; "B"]); ("L2", ["A"; "B"; "C"])]))
           (station_lines (build_graph_and_station_lines
             [("L0", ["X"; "A"]); ("L1", ["A"; "B"]); ("L2", ["A"; "B"; "C"])]))
           "A" "C" {["L0"; "L1"; "L2"]} "L2" ["A"; "B"; "C"] _
           (graph (build_graph_and_station_lines
             [("L0", ["X"; "A"]); ("L1", ["A"; "B"]); ("L2", ["A"; "B"; "C"])]))).
  - vm_compute. reflexivity.
  - set_solver.
  - reflexivity.
  - reflexivity.
  - cbn [on_line]. unfold has_label.
    split_and!; try done; eexists; (split; [vm_compute; reflexivity|]); set_solver.
  - vm_compute. reflexivity.
Defined.

Import BuilderSpec SearchSpec Resolve.

(** * Resolving a typed name to a station *)

Section WithNormalize.
Variable normalize_name : string → string.

Lemma find_station_exact query (items : list (string * string)) cid :
  (cid, query) ∈ items →
  ∃ cid', find_station_by_display normalize_name query items = Some cid' ∧
          (cid', query) ∈ items.
Proof.
  intros Hin. unfold find_station_by_display.
  destruct (list_find (λ cd, cd.2 = query) items) as [[i [c d]]|] eqn:Hf.
  - apply list_find_Some in Hf as (Hi&Hd&_). cbn in Hd. subst d.
    exists c. split; [done|]. by eapply list_elem_of_lookup_2.
  - apply list_find_None in Hf. rewrite Forall_forall in Hf.
    by destruct (Hf _ Hin).
Qed.

Lemma find_station_spec query (items : list (string * string)) :
  match find_station_by_display normalize_name query items with
  | Some cid => ∃ display, (cid, display) ∈ items ∧
                  normalize_name display = normalize_name query
  | None => ∀ cid display, (cid, display) ∈ items →
              normalize_name display ≠ normalize_name query
  end.
Proof.
  unfold find_station_by_display.
  destruct (list_find (λ cd, cd.2 = query) items) as [[i [c d]]|] eqn:Hf.
  - apply list_find_Some in Hf as (Hi&Hd&_). cbn in Hd. subst d.
    exists query. split; [|done]. by eapply list_elem_of_lookup_2.
  - cbn zeta.
    destruct (list_find (λ cd, normalize_name cd.2 = normalize_name query) items)
      as [[i [c d]]|] eqn:Hn.
    + apply list_find_Some in Hn as (Hi&Hd&_). cbn in Hd.
      exists d. split; [|done]. by eapply list_elem_of_lookup_2.
    + apply list_find_None in Hn. rewrite Forall_forall in Hn.
      intros cid display Hin. apply (Hn _ Hin).
Qed.

(** X16: an exact match is never passed over.  When some item of the
    dictionary has the query as its display name, the result is the id of
    an item with exactly that display name, whatever other names normalise
    to the same text. *)
Theorem exact_display_name_is_found (query : string)
    (items : list (string * string)) (cid : string) :
  (cid, query) ∈ items →
  ∃ cid', find_station_by_display normalize_name query items = Some cid' ∧
          (cid', query) ∈ items.
Proof. apply find_station_exact. Qed.

(** X17: the result is [None] exactly when no display name of the
    dictionary normalises to the same text as the query; any id returned
    belongs to an item whose display name normalises like the query. *)
Theorem find_station_by_display_result (query : string)
    (items : list (string * string)) :
  match find_station_by_display normalize_name query items with
  | Some cid => ∃ display, (cid, display) ∈ items ∧
                  normalize_name display = normalize_name query
  | None => ∀ cid display, (cid, display) ∈ items →
              normalize_name display ≠ normalize_name query
  end.
Proof. apply find_station_spec. Qed.

Lemma resolve_built (dord : display_order)
    (line_items : list (string * list string)) (query : string) :
  let b := build_graph_and_station_lines line_items in
  let items := display_items dord (canonical_to_display b) in
  (is_Some (station_lines b !! query) →
   find_station_by_display normalize_name query items = Some query) ∧
  (∀ cid, find_station_by_display normalize_name query items = Some cid →
          is_Some (station_lines b !! cid) ∧
          normalize_name cid = normalize_name query).
Proof.
  cbn zeta.
  assert (∀ c d, (c, d) ∈ display_items dord
                   (canonical_to_display (build_graph_and_station_lines line_items))
            ↔ d = c ∧ is_Some (station_lines
                        (build_graph_and_station_lines line_items) !! c)) as Hitems.
  { intros c d. rewrite display_items_perm, elem_of_map_to_list.
    apply built_canonical_to_display. }
  split.
  - intros Hq.
    destruct (find_station_exact query
                (display_items dord (canonical_to_display
                   (build_graph_and_station_lines line_items))) query)
      as (cid&->&Hin); [by apply Hitems|].
    apply Hitems in Hin as [-> _]. done.
  - intros cid Hf. pose proof (find_station_spec query
      (display_items dord (canonical_to_display
         (build_graph_and_station_lines line_items)))) as Hs.
    rewrite Hf in Hs. destruct Hs as (d&Hin&Hn).
    apply Hitems in Hin as [-> Hk]. done.
Qed.

End WithNormalize.

Lemma exact_display_name_is_found_witness :
  ∃ cid', find_station_by_display (λ s, "x") "Park St"
            [("P1", "park st"); ("P2", "Park St")] = Some cid' ∧
          (cid', "Park St") ∈ [("P1", "park st"); ("P2", "Park St")].
Proof.
  apply (exact_display_name_is_found (λ s, "x") "Park St"
           [("P1", "park st"); ("P2", "Park St")] "P2").
  set_solver.
Defined.

(** X18: resolution against the table of the builder, as [main] does it.
    A query that is the name of a station of the index resolves to that
    station; and whatever a query resolves to is a key of the station
    index, so the search that follows never meets its unknown-station
    guard. *)
Theorem resolved_name_is_known_station (normalize_name : string → string)
    (dord : display_order) (line_items : list (string * list string))
    (query : string) :
  let b := build_graph_and_station_lines line_items in
  let items := display_items dord (canonical_to_display b) in
  (is_Some (station_lines b !! query) →
   find_station_by_display normalize_name query items = Some query) ∧
  (∀ cid, find_station_by_display normalize_name query items = Some cid →
          is_Some (station_lines b !! cid) ∧
          normalize_name cid = normalize_name query).
Proof. apply resolve_built. Qed.

Lemma resolved_name_is_known_station_witness :
  find_station_by_display (λ s, s) "B"
    (display_items canonical_display_order
       (canonical_to_display
          (build_graph_and_station_lines [("L1", ["A"; "B"])]))) = Some "B".
Proof.
  apply (resolved_name_is_known_station (λ s, s) canonical_display_order
           [("L1", ["A"; "B"])] "B").
  vm_compute. eauto.
Defined.

Import BuilderSpec SearchSpec Resolve CombinedGraph CombinedSpec.

(** * The adjacency list of CombinedGraph.py *)

Lemma neighbors_in_nil a b : ¬ neighbors_in [] a b.
Proof. intros (i&[[H _]|[H _]]); by rewrite lookup_nil in H. Qed.

Lemma neighbors_in_cons s rest a b :
  neighbors_in (s :: rest) a b ↔
  (s = a ∧ head rest = Some b) ∨ (s = b ∧ head rest = Some a) ∨
  neighbors_in rest a b.
Proof.
  unfold neighbors_in. split.
  - intros ([|i]&H).
    + change ((s :: rest) !! 1) with (rest !! 0) in H.
      change ((s :: rest) !! 0) with (Some s) in H.
      rewrite <-!head_lookup in H. naive_solver.
    + right; right. exists i. done.
  - intros [[-> H]|[[-> H]|(i&H)]].
    + exists 0. change ((a :: rest) !! 1) with (rest !! 0).
      rewrite <-!head_lookup. left. by split.
    + exists 0. change ((b :: rest) !! 1) with (rest !! 0).
      rewrite <-!head_lookup. right. by split.
    + exists (S i). done.
Qed.

Lemma ensure_lookup station mg a :
  default ∅ (ensure station mg !! a) = default ∅ (mg !! a).
Proof.
  unfold ensure. destruct (mg !! station) eqn:Hs; [done|].
  destruct (decide (a = station)) as [->|Hne].
  - by rewrite lookup_insert_eq, Hs.
  - by rewrite lookup_insert_ne.
Qed.

Lemma ensure_is_Some station mg a :
  is_Some (ensure station mg !! a) ↔ is_Some (mg !! a) ∨ a = station.
Proof.
  unfold ensure. destruct (mg !! station) eqn:Hs.
  - split; [by left|]. intros [?| ->]; [done|]. by rewrite Hs.
  - rewrite lookup_insert. case_decide; subst.
    + split; [by right|]. by eexists.
    + split; [by left|]. by intros [?|?].
Qed.

Lemma add_neighbor_lookup station x mg a b :
  b ∈ default ∅ (add_neighbor station x mg !! a) ↔
  b ∈ default ∅ (mg !! a) ∨ (a = station ∧ b = x).
Proof.
  unfold add_neighbor. rewrite lookup_insert. case_decide; subst; cbn.
  - set_solver.
  - naive_solver.
Qed.

Lemma add_neighbor_is_Some station x mg a :
  is_Some (add_neighbor station x mg !! a) ↔ is_Some (mg !! a) ∨ a = station.
Proof.
  unfold add_neighbor. rewrite lookup_insert. case_decide; subst.
  - split; [by right|]. by eexists.
  - split; [by left|]. by intros [?|?].
Qed.

Lemma add_line_neighbors_lookup prev stations mg a b :
  b ∈ default ∅ (add_line_neighbors prev stations mg !! a) ↔
  b ∈ default ∅ (mg !! a) ∨ neighbors_in stations a b ∨
  (prev = Some b ∧ head stations = Some a).
Proof.
  revert prev mg. induction stations as [|s rest IH]; intros prev mg.
  - cbn. split; [by left|]. intros [?|[?%neighbors_in_nil|[_ ?]]]; done.
  - cbn [add_line_neighbors]. rewrite IH, neighbors_in_cons. cbn [head].
    assert (b ∈ default ∅
              (match rest with
               | [] => match prev with
                       | Some p => add_neighbor s p (ensure s mg)
                       | None => ensure s mg
                       end
               | next :: _ =>
                   add_neighbor s next
                     match prev with
                     | Some p => add_neighbor s p (ensure s mg)
                     | None => ensure s mg
                     end
               end !! a)
            ↔ b ∈ default ∅ (mg !! a) ∨ (a = s ∧ prev = Some b) ∨
              (a = s ∧ head rest = Some b)) as ->.
    { destruct rest as [|next rest'], prev as [p|]; cbn [head];
        rewrite ?add_neighbor_lookup, ?ensure_lookup; naive_solver. }
    naive_solver.
Qed.

Lemma add_line_neighbors_is_Some prev stations mg a :
  is_Some (add_line_neighbors prev stations mg !! a) ↔
  is_Some (mg !! a) ∨ a ∈ stations.
Proof.
  revert prev mg. induction stations as [|s rest IH]; intros prev mg.
  - cbn. split; [by left|]. by intros [?|?%not_elem_of_nil].
  - cbn [add_line_neighbors]. rewrite IH, elem_of_cons.
    assert (is_Some
              (match rest with
               | [] => match prev with
                       | Some p => add_neighbor s p (ensure s mg)
                       | None => ensure s mg
                       end
               | next :: _ =>
                   add_neighbor s next
                     match prev with
                     | Some p => add_neighbor s p (ensure s mg)
                     | None => ensure s mg
                     end
               end !! a)
            ↔ is_Some (mg !! a) ∨ a = s) as ->.
    { destruct rest as [|next rest'], prev as [p|];
        rewrite ?add_neighbor_is_Some, ?ensure_is_Some; naive_solver. }
    naive_solver.
Qed.

Lemma neighbor_sets_lookup lines a b :
  b ∈ default ∅ (neighbor_sets lines !! a) ↔
  ∃ stations, stations ∈ lines ∧ neighbors_in stations a b.
Proof.
  unfold neighbor_sets.
  assert (∀ mg, b ∈ default ∅
                  (foldl (λ mg0 sts, add_line_neighbors None sts mg0) mg lines !! a)
                ↔ b ∈ default ∅ (mg !! a) ∨
                  ∃ stations, stations ∈ lines ∧ neighbors_in stations a b) as H.
  { induction lines as [|sts lines IH]; intros mg.
    - cbn. split; [by left|]. intros [?|(?&?%not_elem_of_nil&_)]; done.
    - cbn [foldl]. rewrite IH, add_line_neighbors_lookup. split.
      + intros [[?|[?|[? _]]]|(s&?&?)]; [by left| |done|].
        * right. exists sts. set_solver.
        * right. exists s. set_solver.
      + intros [?|(s&[->|?]%elem_of_cons&?)]; [by left;left| |].
        * left. right. by left.
        * right. eauto. }
  rewrite H, lookup_empty. cbn. set_solver.
Qed.

Lemma neighbor_sets_is_Some lines a :
  is_Some (neighbor_sets lines !! a) ↔ ∃ stations, stations ∈ lines ∧ a ∈ stations.
Proof.
  unfold neighbor_sets.
  assert (∀ mg, is_Some
                  (foldl (λ mg0 sts, add_line_neighbors None sts mg0) mg lines !! a)
                ↔ is_Some (mg !! a) ∨
                  ∃ stations, stations ∈ lines ∧ a ∈ stations) as H.
  { induction lines as [|sts lines IH]; intros mg.
    - cbn. split; [by left|]. intros [?|(?&?%not_elem_of_nil&_)]; done.
    - cbn [foldl]. rewrite IH, add_line_neighbors_is_Some. split.
      + intros [[?|?]|(s&?&?)]; [by left| |].
        * right. exists sts. set_solver.
        * right. exists s. set_solver.
      + intros [?|(s&[->|?]%elem_of_cons&?)]; [by left;left| |].
        * left. by right.
        * right. eauto. }
  rewrite H, lookup_empty. split; [|by right]. by intros [[? [=]]|?].
Qed.

Lemma str_le_ltb a b : str_le a b ↔ String.ltb b a = false.
Proof.
  unfold str_le, String.leb. rewrite <-not_true_iff_false, <-str_compare_Gt.
  destruct (String.compare a b); naive_solver.
Qed.

Global Instance str_le_total : Total str_le.
Proof. intros a b. apply String.leb_total. Qed.

Global Instance str_le_antisymm : AntiSymm (=) str_le.
Proof. intros a b. apply String.leb_antisym. Qed.

Global Instance str_le_trans : Transitive str_le.
Proof.
  intros a b c. rewrite !str_le_ltb. intros Hba Hcb.
  apply not_true_is_false. intros Hca.
  destruct (decide (a = b)) as [->|Hne]; [congruence|].
  assert (String.ltb a b = true) as Hab.
  { apply not_false_iff_true. intros Hab. by apply Hne, str_ltb_total. }
  pose proof (str_ltb_trans _ _ _ Hca Hab). congruence.
Qed.

Lemma elem_of_sorted_list it (s : gset string) b : b ∈ sorted_list it s ↔ b ∈ s.
Proof.
  unfold sorted_list. by rewrite merge_sort_Permutation, elem_of_set_iter.
Qed.

Lemma sorted_list_strict it (s : gset string) :
  StronglySorted str_lt (sorted_list it s).
Proof.
  assert (NoDup (sorted_list it s)) as Hnd.
  { unfold sorted_list. rewrite merge_sort_Permutation. apply set_iter_NoDup. }
  pose proof (StronglySorted_merge_sort str_le (set_iter it s)) as Hs.
  fold (sorted_list it s) in Hs.
  induction Hs as [|x l Hl IH Hx]; [constructor|].
  apply NoDup_cons in Hnd as [Hxl Hnd]. constructor; [by apply IH|].
  rewrite Forall_forall in Hx |- *. intros y Hy. specialize (Hx y Hy).
  unfold str_lt. apply not_false_iff_true. intros Hlt.
  apply str_le_ltb in Hx.
  assert (x = y) as -> by (by apply str_ltb_total). done.
Qed.

Lemma sorted_list_iteration it1 it2 (s : gset string) :
  sorted_list it1 s = sorted_list it2 s.
Proof.
  apply (Sorted_unique str_le).
  - apply Sorted_merge_sort, _.
  - apply Sorted_merge_sort, _.
  - unfold sorted_list. by rewrite !merge_sort_Permutation, !set_iter_perm.
Qed.

Lemma metro_graph_lookup it lines a :
  metro_graph it lines !! a = sorted_list it <$> neighbor_sets lines !! a.
Proof. unfold metro_graph. apply lookup_fmap. Qed.

Lemma metro_graph_spec it lines a :
  (is_Some (metro_graph it lines !! a) ↔
   ∃ stations, stations ∈ lines ∧ a ∈ stations) ∧
  (∀ nbrs, metro_graph it lines !! a = Some nbrs →
     ∀ b, b ∈ nbrs ↔ ∃ stations, stations ∈ lines ∧ neighbors_in stations a b).
Proof.
  rewrite metro_graph_lookup. split.
  - rewrite <-neighbor_sets_is_Some. apply fmap_is_Some.
  - intros nbrs Hn b. rewrite <-neighbor_sets_lookup.
    destruct (neighbor_sets lines !! a) as [s|]; [|done].
    cbn in Hn. simplify_eq. cbn. apply elem_of_sorted_list.
Qed.

(** X19: [metro_graph] has a key for every station that occurs in a line
    and for no other; the list under a station holds exactly the stations
    that come right before or right after it in some line.  A station alone
    in its lines has the empty list. *)
Theorem metro_graph_lists_adjacent_stations (it : iteration)
    (lines : list (list string)) (a : string) :
  (is_Some (metro_graph it lines !! a) ↔
   ∃ stations, stations ∈ lines ∧ a ∈ stations) ∧
  (∀ nbrs, metro_graph it lines !! a = Some nbrs →
     ∀ b, b ∈ nbrs ↔ ∃ stations, stations ∈ lines ∧ neighbors_in stations a b).
Proof. apply metro_graph_spec. Qed.

Lemma metro_graph_lists_adjacent_stations_witness :
  "C" ∈ ["A"; "C"] ↔
  ∃ stations, stations ∈ [["A"; "B"; "C"]; ["D"]] ∧ neighbors_in stations "B" "C".
Proof.
  apply (proj2 (metro_graph_lists_adjacent_stations canonical_iteration
                  [["A"; "B"; "C"]; ["D"]] "B") ["A"; "C"]).
  vm_compute. reflexivity.
Defined.

Lemma metro_graph_sorted it lines a nbrs :
  metro_graph it lines !! a = Some nbrs → StronglySorted str_lt nbrs.
Proof.
  rewrite metro_graph_lookup.
  destruct (neighbor_sets lines !! a) as [s|]; [|done].
  intros [= <-]. apply sorted_list_strict.
Qed.

Lemma metro_graph_iteration it1 it2 lines :
  metro_graph it1 lines = metro_graph it2 lines.
Proof.
  unfold metro_graph. apply map_fmap_ext. intros a s _.
  apply sorted_list_iteration.
Qed.

(** X20: every neighbour list of [metro_graph] is strictly ascending in
    the order of strings, so it has no station twice; and the whole of
    [metro_graph] is the same in whatever order the sets are walked when
    they are turned into lists. *)
Theorem metro_graph_lists_are_sorted (it1 it2 : iteration)
    (lines : list (list string)) :
  (∀ a nbrs, metro_graph it1 lines !! a = Some nbrs →
             StronglySorted str_lt nbrs ∧ NoDup nbrs) ∧
  metro_graph it1 lines = metro_graph it2 lines.
Proof.
  split; [|apply metro_graph_iteration].
  intros a nbrs Hn. split; [by eapply metro_graph_sorted|].
  revert Hn. rewrite metro_graph_lookup.
  destruct (neighbor_sets lines !! a) as [s|]; [|done].
  intros [= <-]. unfold sorted_list. rewrite merge_sort_Permutation.
  apply set_iter_NoDup.
Qed.

Lemma metro_graph_lists_are_sorted_witness :
  StronglySorted str_lt ["A"; "C"] ∧ NoDup ["A"; "C"].
Proof.
  apply (proj1 (metro_graph_lists_are_sorted canonical_iteration
                  canonical_iteration [["C"; "B"; "A"]; ["D"]]) "B" ["A"; "C"]).
  vm_compute. reflexivity.
Defined.

Lemma neighbors_in_sym stations a b :
  neighbors_in stations a b → neighbors_in stations b a.
Proof. intros (i&[?|?]); exists i; [by right|by left]. Qed.

Lemma neighbors_in_elem_of stations a b : neighbors_in stations a b → a ∈ stations.
Proof.
  intros (i&[[H _]|[_ H]]); by eapply list_elem_of_lookup_2.
Qed.

(** X21: [metro_graph] is undirected: when [b] is listed under [a], then
    [b] has a list of its own and [a] is in it. *)
Theorem metro_graph_is_undirected (it : iteration) (lines : list (list string))
    (a b : string) (na : list string) :
  metro_graph it lines !! a = Some na → b ∈ na →
  ∃ nb, metro_graph it lines !! b = Some nb ∧ a ∈ nb.
Proof.
  intros Ha Hb. destruct (metro_graph_spec it lines a) as [_ Hn].
  apply (Hn na Ha) in Hb as (sts&Hin&Hadj%neighbors_in_sym).
  destruct (metro_graph_spec it lines b) as [Hk Hn'].
  destruct (proj2 Hk) as [nb Hnb].
  { exists sts. split; [done|]. by eapply neighbors_in_elem_of. }
  exists nb. split; [done|]. apply (Hn' nb Hnb). eauto.
Qed.

Lemma metro_graph_is_undirected_witness :
  ∃ nb, metro_graph canonical_iteration [["A"; "B"; "C"]; ["D"]] !! "C" = Some nb ∧
        "B" ∈ nb.
Proof.
  apply (metro_graph_is_undirected canonical_iteration
           [["A"; "B"; "C"]; ["D"]] "B" "C" ["A"; "C"]).
  - vm_compute. reflexivity.
  - set_solver.
Defined.

Lemma neighbors_in_adjacent (items : list (string * list string)) a b :
  (∃ stations, stations ∈ items.*2 ∧ neighbors_in stations a b) ↔
  ∃ l, adjacent_in items l a b ∨ adjacent_in items l b a.
Proof.
  unfold adjacent_in. split.
  - intros (sts&([l s]&->&Hin)%list_elem_of_fmap&i&[[??]|[??]]).
    + exists l. left. by exists s, i.
    + exists l. right. by exists s, i.
  - intros (l&[(sts&i&Hin&?&?)|(sts&i&Hin&?&?)]).
    + exists sts. split; [|exists i; by left].
      apply list_elem_of_fmap. by exists (l, sts).
    + exists sts. split; [|exists i; by right].
      apply list_elem_of_fmap. by exists (l, sts).
Qed.

Lemma metro_graph_agrees (it : iteration) (items : list (string * list string))
    (a : string) :
  let b := build_graph_and_station_lines items in
  (is_Some (metro_graph it items.*2 !! a) ↔ is_Some (station_lines b !! a)) ∧
  (∀ nbrs, metro_graph it items.*2 !! a = Some nbrs →
     ∀ x, x ∈ nbrs ↔ is_Some (edge (graph b) a x)).
Proof.
  cbn zeta. destruct (metro_graph_spec it items.*2 a) as [Hk Hn]. split.
  - rewrite Hk, <-elem_of_dom.
    destruct (station_index_spec items a ∅) as [-> _]. unfold serves. split.
    + intros (sts&([l s]&->&Hin)%list_elem_of_fmap&Ha). by exists l, s.
    + intros (l&sts&Hin&Ha). exists sts. split; [|done].
      apply list_elem_of_fmap. by exists (l, sts).
  - intros nbrs Hnb x. rewrite (Hn nbrs Hnb), neighbors_in_adjacent.
    setoid_rewrite <-built_edges_spec. split.
    + intros (l&L&HL&_). by exists L.
    + intros [L HL]. pose proof (built_labels_nonempty items a x L HL) as Hne.
      apply set_choose_L in Hne as [l Hl]. exists l, L. done.
Qed.

(** X22: the two graphs of the repository agree.  Built from the same
    lines, [metro_graph] of CombinedGraph.py has a key exactly for the
    stations of the station index of PathShower.py, and lists under a
    station exactly the stations that are its neighbours in the graph of
    PathShower.py. *)
Theorem metro_graph_agrees_with_path_graph (it : iteration)
    (items : list (string * list string)) (a : string) :
  let b := build_graph_and_station_lines items in
  (is_Some (metro_graph it items.*2 !! a) ↔ is_Some (station_lines b !! a)) ∧
  (∀ nbrs, metro_graph it items.*2 !! a = Some nbrs →
     ∀ x, x ∈ nbrs ↔ is_Some (edge (graph b) a x)).
Proof. apply metro_graph_agrees. Qed.

Lemma metro_graph_agrees_with_path_graph_witness :
  "C" ∈ ["A"; "C"] ↔
  is_Some (edge (graph (build_graph_and_station_lines
                          [("L1", ["A"; "B"; "C"]); ("L2", ["D"])])) "B" "C").
Proof.
  apply (proj2 (metro_graph_agrees_with_path_graph canonical_iteration
                  [("L1", ["A"; "B"; "C"]); ("L2", ["D"])] "B") ["A"; "C"]).
  vm_compute. reflexivity.
Defined.

Import BuilderSpec SearchSpec Resolve Cli CliSpec.

(** * The command line *)

Lemma returned_route_valid (it : iteration) (fuel : nat)
    (g : gmap string (gmap string (gset string)))
    (sl : gmap string (gset string)) (src dest : string) r g' :
  find_min_switch_path it fuel g sl src dest = Some (Returned (Some r), g') →
  valid_route g src dest (f_path r) (f_lines r).
Proof.
  unfold find_min_switch_path.
  destruct (sl !! src) as [Ls|]; [|done]. destruct (sl !! dest); [|done].
  destruct (search_loop _ _ _ _) as [[[[e|]|] g1]|] eqn:Hrun; try done.
  intros [= <- <-].
  apply (search_loop_ind it (walks_inv g src) dest (walks_inv_step it g src dest))
    in Hrun as (s_end&[_ Hpq]&Hend); [|apply walks_inv_seed].
  pose proof (step_cases it dest s_end) as Hc.
  destruct (step it dest s_end) as [|b gb|]; [done| |done].
  simplify_eq. destruct Hc as (rest&Hperm&_&<-&_).
  assert (entry_ok g src e) as He by (apply Hpq; rewrite Hperm; set_solver).
  by destruct (reconstruct_valid g src e He) as (Hv&_).
Qed.

Lemma warnings_built (nord : names_order) items :
  warnings nord (id_to_names (build_graph_and_station_lines items)) = [].
Proof.
  unfold warnings. apply elem_of_nil_inv. intros w.
  intros ([s c]&Hw&Hin)%list_elem_of_bind.
  rewrite names_items_perm, elem_of_map_to_list, built_id_to_names in Hin.
  case_decide; [done|]. simplify_eq. cbn in Hw.
  rewrite map_size_singleton in Hw. by case_decide; [lia|set_solver].
Qed.

Section WithEnvironment.
Variables (normalize_name strip : string → string).
Variables (it : iteration) (dord : display_order) (nord : names_order).
Variable LINE_ITEMS : list (string * list string).

Abbreviation b := (build_graph_and_station_lines LINE_ITEMS).
Abbreviation resolved := (resolve normalize_name strip dord LINE_ITEMS).
Abbreviation run := (main normalize_name strip it dord nord LINE_ITEMS).

Lemma resolve_known input s :
  resolved input = Some s →
  ∃ Ls, station_lines b !! s = Some Ls ∧ Ls ≠ ∅.
Proof.
  intros Hr.
  destruct (resolve_built normalize_name dord LINE_ITEMS (strip input)) as [_ H].
  destruct (H s Hr) as [[Ls HLs] _]. exists Ls. split; [done|].
  by eapply built_index_nonempty.
Qed.

Lemma resolve_None input :
  resolved input = None ↔
  ∀ s, is_Some (station_lines b !! s) →
       normalize_name s ≠ normalize_name (strip input).
Proof.
  unfold resolve.
  pose proof (find_station_spec normalize_name (strip input)
                (display_items dord (canonical_to_display b))) as Hs.
  assert (∀ c d, (c, d) ∈ display_items dord (canonical_to_display b)
            ↔ d = c ∧ is_Some (station_lines b !! c)) as Hitems.
  { intros c d. rewrite display_items_perm, elem_of_map_to_list.
    apply built_canonical_to_display. }
  destruct (find_station_by_display _ _ _) as [cid|].
  - split; [done|]. intros Hno. destruct Hs as (d&[-> Hk]%Hitems&Hn).
    by destruct (Hno cid Hk).
  - split; [|done]. intros _ s Hk. apply (Hs s s). by apply Hitems.
Qed.

(** What a run that ends has printed, by cases on the two resolutions and
    on the search. *)
Lemma main_output fuel src_input dest_input out o :
  run fuel src_input dest_input = Some (out, o) →
  o = Returned () ∧
  match resolved src_input, resolved dest_input with
  | None, _ => out = [Source_not_found]
  | Some _, None => out = [Destination_not_found]
  | Some src, Some dest =>
      (¬ reachable (graph b) src dest ∧ out = [No_path_found]) ∨
      (reachable (graph b) src dest ∧
       ∃ r, valid_route (graph b) src dest (f_path r) (f_lines r) ∧
            length (f_path r) = S (f_stations r) ∧
            out = [Path_header; Path_stations (f_path r);
                   Stations_traversed (f_stations r);
                   Number_of_switches (f_switches r)])
  end.
Proof.
  unfold main. rewrite warnings_built. cbn [app].
  fold (resolved src_input) (resolved dest_input).
  destruct (resolved src_input) as [src|] eqn:Hsrc; [|by intros [= <- <-]].
  destruct (resolved dest_input) as [dest|] eqn:Hdest; [|by intros [= <- <-]].
  destruct (resolve_known _ _ Hsrc) as (Ls&HLs&Hne).
  destruct (resolve_known _ _ Hdest) as (Ld&HLd&_).
  destruct (find_min_switch_path _ _ _ _ _ _) as [[r g']|] eqn:Hrun; [|done].
  pose proof (find_min_switch_path_outcome it fuel _ _ src dest Ls r g'
                (built_labels_nonempty LINE_ITEMS) HLs Hne
                (mk_is_Some _ _ HLd) Hrun) as Ho.
  destruct r as [[r|]|]; [| |done]; intros [= <- <-]; (split; [done|]).
  - right. split; [done|]. exists r. split_and!; [|by eapply returned_count_is_hops|done].
    by eapply returned_route_valid.
  - left. done.
Qed.

Lemma main_ends src_input dest_input :
  ∃ fuel out, ∀ fuel', fuel ≤ fuel' →
    run fuel' src_input dest_input = Some (out, Returned ()).
Proof.
  assert (∃ fuel r, run fuel src_input dest_input = Some r) as (fuel&[out o]&Hrun).
  { unfold main.
    destruct (find_station_by_display _ (strip src_input) _) as [src|];
      [|by exists 0; eauto].
    destruct (find_station_by_display _ (strip dest_input) _) as [dest|];
      [|by exists 0; eauto].
    destruct (find_min_switch_path_terminates it (graph b) (station_lines b)
                src dest) as (fuel&[r g']&Hrun).
    exists fuel. rewrite Hrun. destruct r as [[?|]|]; eauto. }
  exists fuel, out. intros fuel' Hle.
  destruct (main_output _ _ _ _ _ Hrun) as [-> _].
  revert Hrun. unfold main.
  destruct (find_station_by_display _ (strip src_input) _) as [src|]; [|done].
  destruct (find_station_by_display _ (strip dest_input) _) as [dest|]; [|done].
  destruct (find_min_switch_path it fuel _ _ _ _) as [r|] eqn:Hr; [|done].
  by rewrite (find_min_switch_path_mono it _ _ _ _ fuel fuel' r Hr Hle).
Qed.

(** X23: [main] always ends, and ends without an error: for every table
    of lines and every two input lines, from some number of turns of the
    search loop on, the run returns with one and the same output. *)
Theorem main_always_returns (src_input dest_input : string) :
  ∃ fuel out, ∀ fuel', fuel ≤ fuel' →
    main normalize_name strip it dord nord LINE_ITEMS fuel' src_input dest_input
    = Some (out, Returned ()).
Proof. apply main_ends. Qed.

(** X24: [main] never prints its warning.  The builder counts every
    station under its own name only, so no counter of [id_to_names] has
    more than one display form and the loop of warnings prints nothing;
    the output is one message, or the four lines of a route. *)
Theorem main_prints_no_warning (fuel : nat) (src_input dest_input : string)
    (out : list printed) (o : outcome unit) :
  main normalize_name strip it dord nord LINE_ITEMS fuel src_input dest_input
  = Some (out, o) →
  (∀ s counter, Warning s counter ∉ out) ∧ (length out = 1 ∨ length out = 4).
Proof.
  intros [_ Hout]%main_output.
  destruct (resolved src_input), (resolved dest_input);
    [destruct Hout as [[_ ->]|(_&r&_&_&->)]|subst..];
    (split; [set_solver|cbn; lia]).
Qed.

(** X25: the two not-found messages.  [main] answers that the source is
    not found exactly when no station of the lines has a name that
    normalises like the stripped source line; it answers that the
    destination is not found exactly when the source was resolved and no
    station name normalises like the stripped destination line. *)
Theorem not_found_messages (fuel : nat) (src_input dest_input : string)
    (out : list printed) (o : outcome unit) :
  main normalize_name strip it dord nord LINE_ITEMS fuel src_input dest_input
  = Some (out, o) →
  (Source_not_found ∈ out ↔
   ∀ s, is_Some (station_lines (build_graph_and_station_lines LINE_ITEMS) !! s) →
        normalize_name s ≠ normalize_name (strip src_input)) ∧
  (Destination_not_found ∈ out ↔
   is_Some (resolve normalize_name strip dord LINE_ITEMS src_input) ∧
   ∀ s, is_Some (station_lines (build_graph_and_station_lines LINE_ITEMS) !! s) →
        normalize_name s ≠ normalize_name (strip dest_input)).
Proof.
  intros [_ Hout]%main_output. rewrite <-!resolve_None.
  destruct (resolved src_input) as [src|], (resolved dest_input) as [dest|];
    [destruct Hout as [[_ ->]|(_&r&_&_&->)]|subst..];
    rewrite ?list_elem_of_singleton, ?elem_of_cons, ?elem_of_nil;
    rewrite ?is_Some_alt; naive_solver.
Qed.

(** X26: [main] answers that no path was found exactly when both names
    were resolved and the destination cannot be reached from the source
    along edges of the graph. *)
Theorem no_path_message_means_unreachable (fuel : nat)
    (src_input dest_input : string) (out : list printed) (o : outcome unit) :
  main normalize_name strip it dord nord LINE_ITEMS fuel src_input dest_input
  = Some (out, o) →
  No_path_found ∈ out ↔
  ∃ src dest,
    resolve normalize_name strip dord LINE_ITEMS src_input = Some src ∧
    resolve normalize_name strip dord LINE_ITEMS dest_input = Some dest ∧
    ¬ reachable (graph (build_graph_and_station_lines LINE_ITEMS)) src dest.
Proof.
  intros [_ Hout]%main_output.
  destruct (resolved src_input) as [src|], (resolved dest_input) as [dest|];
    [destruct Hout as [[Hun ->]|(Hre&r&_&_&->)]|subst..].
  - split; [|set_solver]. intros _. by exists src, dest.
  - split; [set_solver|]. intros (?&?&[= <-]&[= <-]&Hun). done.
  - split; [set_solver|]. by intros (?&?&_&[=]&_).
  - split; [set_solver|]. by intros (?&?&[=]&_).
  - split; [set_solver|]. by intros (?&?&[=]&_).
Qed.

(** X27: the route [main] prints.  A printed path starts at the station
    the source line resolves to, ends at the one the destination line
    resolves to, and every hop of it is an edge of the graph; the number
    printed as stations traversed (including source) is the number of
    hops, one less than the number of stations of the printed path. *)
Theorem printed_path_is_route (fuel : nat) (src_input dest_input : string)
    (out : list printed) (o : outcome unit) (path : list string) :
  main normalize_name strip it dord nord LINE_ITEMS fuel src_input dest_input
  = Some (out, o) →
  Path_stations path ∈ out →
  ∃ src dest lines switches,
    resolve normalize_name strip dord LINE_ITEMS src_input = Some src ∧
    resolve normalize_name strip dord LINE_ITEMS dest_input = Some dest ∧
    valid_route (graph (build_graph_and_station_lines LINE_ITEMS)) src dest path lines ∧
    out = [Path_header; Path_stations path;
           Stations_traversed (length path - 1);
           Number_of_switches switches].
Proof.
  intros [_ Hout]%main_output Hin.
  destruct (resolved src_input) as [src|], (resolved dest_input) as [dest|];
    [destruct Hout as [[Hun ->]|(Hre&r&Hv&Hlen&->)]|subst..]; [set_solver| |set_solver..].
  assert (path = f_path r) as -> by set_solver.
  exists src, dest, (f_lines r), (f_switches r). split_and!; [done..|].
  rewrite Hlen. cbn. by rewrite Nat.sub_0_r.
Qed.

End WithEnvironment.

Lemma main_prints_no_warning_witness :
  (∀ s counter, Warning s counter ∉
     [Path_header; Path_stations ["A"; "B"]; Stations_traversed 1;
      Number_of_switches 0]) ∧
  (length [Path_header; Path_stations ["A"; "B"]; Stations_traversed 1;
           Number_of_switches 0] = 1 ∨
   length [Path_header; Path_stations ["A"; "B"]; Stations_traversed 1;
           Number_of_switches 0] = 4).
Proof.
  apply (main_prints_no_warning (λ s, s) (λ s, s) canonical_iteration
           canonical_display_order canonical_names_order
           [("L1", ["A"; "B"])] 5 "A" "B" _ (Returned ())).
  vm_compute. reflexivity.
Defined.

Lemma not_found_messages_witness :
  (Source_not_found ∈ [Source_not_found] ↔
   ∀ s, is_Some (station_lines (build_graph_and_station_lines
                                  [("L1", ["A"; "B"])]) !! s) → s ≠ "Z") ∧
  (Destination_not_found ∈ [Source_not_found] ↔
   is_Some (resolve (λ s, s) (λ s, s) canonical_display_order
              [("L1", ["A"; "B"])] "Z") ∧
   ∀ s, is_Some (station_lines (build_graph_and_station_lines
                                  [("L1", ["A"; "B"])]) !! s) → s ≠ "B").
Proof.
  apply (not_found_messages (λ s, s) (λ s, s) canonical_iteration
           canonical_display_order canonical_names_order
           [("L1", ["A"; "B"])] 5 "Z" "B" _ (Returned ())).
  vm_compute. reflexivity.
Defined.

Lemma no_path_message_means_unreachable_witness :
  No_path_found ∈ [No_path_found] ↔
  ∃ src dest,
    resolve (λ s, s) (λ s, s) canonical_display_order
      [("L1", ["A"]); ("L2", ["B"; "C"])] "A" = Some src ∧
    resolve (λ s, s) (λ s, s) canonical_display_order
      [("L1", ["A"]); ("L2", ["B"; "C"])] "B" = Some dest ∧
    ¬ reachable (graph (build_graph_and_station_lines
                          [("L1", ["A"]); ("L2", ["B"; "C"])])) src dest.
Proof.
  apply (no_path_message_means_unreachable (λ s, s) (λ s, s) canonical_iteration
           canonical_display_order canonical_names_order
           [("L1", ["A"]); ("L2", ["B"; "C"])] 5 "A" "B" _ (Returned ())).
  vm_compute. reflexivity.
Defined.

Lemma printed_path_is_route_witness :
  ∃ src dest lines switches,
    resolve (λ s, s) (λ s, s) canonical_display_order
      [("L1", ["A"; "B"; "C"])] "A" = Some src ∧
    resolve (λ s, s) (λ s, s) canonical_display_order
      [("L1", ["A"; "B"; "C"])] "C" = Some dest ∧
    valid_route (graph (build_graph_and_station_lines [("L1", ["A"; "B"; "C"])]))
      src dest ["A"; "B"; "C"] lines ∧
    [Path_header; Path_stations ["A"; "B"; "C"]; Stations_traversed 2;
     Number_of_switches 0] =
    [Path_header; Path_stations ["A"; "B"; "C"];
     Stations_traversed (length ["A"; "B"; "C"] - 1);
     Number_of_switches switches].
Proof.
  apply (printed_path_is_route (λ s, s) (λ s, s) canonical_iteration
           canonical_display_order canonical_names_order
           [("L1", ["A"; "B"; "C"])] 5 "A" "C" _ (Returned ())).
  - vm_compute. reflexivity.
  - set_solver.
Defined.
